(** * Transaction normalizer, classifier, retrying fetch client and batch
    orchestrator of [src/extract_and_decompile_public_rpc.js]

    A shallow embedding of the JavaScript program.  The normalizer
    ([decompileToTS], lines 216-358) is a pure function of the provider's
    response; the fetch client ([fetchParsedTx], [nextRpc], the cache
    helpers) and the orchestrator ([run], [processSig]) thread an explicit
    [World] holding the module-level variables, the file system, the clock
    and the log of the requests issued.  The earlier variant of the normalizer
    kept in [src/unnamed/part_000] is embedded in [Module Alt]. *)

From Stdlib Require Import ZArith String Ascii List Bool Lia.
From stdpp Require Import base option list gmap strings pretty sorting.

Local Open Scope string_scope.
Local Open Scope list_scope.
Local Open Scope Z_scope.

(** ** JavaScript values met in provider responses *)

(** A scalar or opaque JSON value, as found under [instr.parsed.info].
    [JNum z] stands for the (safe) integer [z]; [JObj] for a plain object. *)
Inductive JValue :=
  | JNull
  | JBool (b : bool)
  | JNum (z : Z)
  | JStr (s : string)
  | JObj.

(** [if (v)], [v || d], [v && e] *)
Definition truthy (v : JValue) : bool :=
  match v with
  | JNull => false
  | JBool b => b
  | JNum z => negb (z =? 0)
  | JStr s => negb (String.eqb s "")
  | JObj => true
  end.

(** [`${v}`] *)
Definition toStr (v : JValue) : string :=
  match v with
  | JNull => "null"
  | JBool true => "true"
  | JBool false => "false"
  | JNum z => pretty z
  | JStr s => s
  | JObj => "[object Object]"
  end.

(** A field that is absent reads as [undefined], which is falsy. *)
Definition truthyField (o : option JValue) : option JValue :=
  match o with
  | Some v => if truthy v then Some v else None
  | None => None
  end.

(** A string-valued property under [x || ...] or [if (x)]: the empty string
    is falsy. *)
Definition nonEmpty (o : option string) : option string :=
  match o with
  | Some s => if String.eqb s "" then None else Some s
  | None => None
  end.

(** A public key as the provider hands it out: a [PublicKey] instance (with a
    [toBase58] method) on a live response, a plain string once the response
    went through the JSON cache. *)
Inductive Key :=
  | KeyObj (b58 : string)
  | KeyStr (s : string).

Definition keyTruthy (k : Key) : bool :=
  match k with
  | KeyObj _ => true
  | KeyStr s => negb (String.eqb s "")
  end.

(** [(typeof pk.toBase58 === 'function') ? pk.toBase58() : pk.toString()] *)
Definition keyText (k : Key) : string :=
  match k with
  | KeyObj b58 => b58
  | KeyStr s => s
  end.

(** [instr.parsed]: the decoded [{type, info}] object, or a bare string (the
    memo program's decoded form is the memo text itself). *)
Inductive Parsed :=
  | ParsedObj (type : option string) (info : option (gmap string JValue))
  | ParsedText (s : string).

Definition parsedTruthy (p : option Parsed) : option Parsed :=
  match p with
  | Some (ParsedText s) => if String.eqb s "" then None else p
  | _ => p
  end.

(** [instr.parsed?.type] *)
Definition parsedType (p : option Parsed) : option string :=
  match p with
  | Some (ParsedObj ty _) => ty
  | _ => None
  end.

(** [instr.parsed?.info], an object when present *)
Definition parsedInfo (p : option Parsed) : option (gmap string JValue) :=
  match p with
  | Some (ParsedObj _ info) => info
  | _ => None
  end.

(** [instr.data]: a string, or a [Buffer] (represented by the text its
    [toString('base64')] yields). *)
Inductive Data :=
  | DataStr (s : string)
  | DataBuf (b64 : string).

(** One entry of the provider's instruction list. *)
Record RawInstr := {
  in_programId : option Key;
  in_program : option string;
  in_programIdIndex : option Z;
  in_parsed : option Parsed;
  in_accounts : option (list Z);
  in_data : option Data;
}.

Record Header := {
  numRequiredSignatures : option Z;
  numReadonlySignedAccounts : option Z;
  numReadonlyUnsignedAccounts : option Z;
}.

Record Message := {
  instructions : option (list RawInstr);
  accountKeys : option (list Key);
  header : option Header;
}.

Record Transaction := {
  tx_message : option Message;
  tx_instructions : option (list RawInstr);
}.

(** The response object [parsed].  [own] holds the [instructions],
    [accountKeys] and [header] properties of the object itself, read when it
    is used as the message (third alternative of line 217). *)
Record RawTransaction := {
  transaction : option Transaction;
  message : option Message;
  own : Message;
}.

(** ** The canonical model *)

Record AccountMeta := {
  pubkey : string;
  isSigner : bool;
  isWritable : bool;
}.

Record Instruction := {
  programId : string;
  description : string;
  keys : list AccountMeta;
  data : string;
}.

(** The argument handed to [renderCompleteTransactionTS]. *)
Record RenderParams := {
  sig : string;
  rp_instructions : list Instruction;
  accounts : list string;
  computeBudget : option JValue;
}.

Record Canonical := {
  kind : string;
  params : RenderParams;
}.

(** A call either returns or throws. *)
Inductive Outcome (A : Type) :=
  | Returned (a : A)
  | Thrown (e : string).
Arguments Returned {A} a.
Arguments Thrown {A} e.

Definition bindO {A B} (m : Outcome A) (f : A -> Outcome B) : Outcome B :=
  match m with
  | Returned a => f a
  | Thrown e => Thrown e
  end.

Notation "x <-! m ; k" := (bindO m (fun x => k))
  (at level 100, m at next level, right associativity).

(** ** Constants *)

Definition SYSTEM_PROGRAM_ID : string := "11111111111111111111111111111111".
Definition TOKEN_PROGRAM_ID : string := "TokenkegQfeZyiNwAJbNbGKPFXCWuBvf9Ss623VQ5DA".
Definition COMPUTE_BUDGET_ID : string := "ComputeBudget111111111111111111111111111111".

Definition MEMO_PROGRAM_IDS : list string :=
  [ "MemoSq4gqABAXKb96qnH8TysNcWxMyWCqXgDLGmfcHr";
    "Memo1UhkJBfCR961GD3xbN1T1YQC7kFpFHJBF7bxTpN" ].

Definition isMemo (pid : string) : bool := bool_decide (pid ∈ MEMO_PROGRAM_IDS).

(** ** The normalizer: [decompileToTS], lines 216-358 *)

(** [new Set()] with [add]: insertion order is kept, as [Array.from] shows
    it. *)
Definition setAdd (a : string) (s : list string) : list string :=
  if bool_decide (a ∈ s) then s else s ++ [a].

(** [accountKeys[i]] under a truthiness test: [undefined] out of range. *)
Definition keyAt (keyList : list Key) (i : Z) : option Key :=
  if 0 <=? i then
    match keyList !! Z.to_nat i with
    | Some k => if keyTruthy k then Some k else None
    | None => None
    end
  else None.

(** Lines 217-218 and 222. *)
Definition messageOf (parsed : RawTransaction) : Message :=
  match transaction parsed ≫= tx_message with
  | Some m => m
  | None =>
      match message parsed with
      | Some m => m
      | None => own parsed
      end
  end.

Definition instructionsOf (parsed : RawTransaction) : list RawInstr :=
  match instructions (messageOf parsed) with
  | Some l => l
  | None =>
      match transaction parsed ≫= tx_instructions with
      | Some l => l
      | None => []
      end
  end.

Definition accountKeysOf (parsed : RawTransaction) : list Key :=
  default [] (accountKeys (messageOf parsed)).

(** Lines 229-243: the program id of one instruction, [None] for
    [continue].  The tests of the [if]/[else if] chain, in source order. *)

(** [instr.programId && typeof instr.programId.toBase58 === 'function'] *)
Definition byToBase58 (instr : RawInstr) : option string :=
  match in_programId instr with
  | Some (KeyObj b58) => Some b58
  | _ => None
  end.

(** [instr.programId && instr.programId.toString] *)
Definition byToString (instr : RawInstr) : option string :=
  match in_programId instr with
  | Some k => if keyTruthy k then Some (keyText k) else None
  | None => None
  end.

(** [instr.program === 'system'] *)
Definition bySystemMarker (instr : RawInstr) : option string :=
  if bool_decide (in_program instr = Some "system")
  then Some SYSTEM_PROGRAM_ID else None.

(** [instr.programIdIndex !== undefined && accountKeys[instr.programIdIndex]] *)
Definition byIndex (keyList : list Key) (instr : RawInstr) : option string :=
  keyText <$> (in_programIdIndex instr ≫= keyAt keyList).

(** [instr.program] *)
Definition byProgramName (instr : RawInstr) : option string :=
  nonEmpty (in_program instr).

Definition resolveProgramId (keyList : list Key) (instr : RawInstr)
    : option string :=
  match byToBase58 instr with
  | Some pid => Some pid
  | None =>
  match byToString instr with
  | Some pid => Some pid
  | None =>
  match bySystemMarker instr with
  | Some pid => Some pid
  | None =>
  match byIndex keyList instr with
  | Some pid => Some pid
  | None =>
  match byProgramName instr with
  | Some pid => Some pid
  | None => None
  end end end end end.

(** Lines 254-271.  [info.mint.slice] is a [TypeError] when [info.mint] is
    truthy and not a string. *)
Definition describeInfo (info : gmap string JValue) (d0 : string)
    : Outcome string :=
  let d1 := match truthyField (info !! "lamports") with
            | Some v => d0 +:+ " (" +:+ toStr v +:+ " lamports)"
            | None => d0
            end in
  let d2 := match truthyField (info !! "amount") with
            | Some v => d1 +:+ " (amount: " +:+ toStr v +:+ ")"
            | None => d1
            end in
  match truthyField (info !! "mint") with
  | Some (JStr m) => Returned (d2 +:+ " (mint: " +:+ substring 0 8 m +:+ "...)")
  | Some _ => Thrown "TypeError: info.mint.slice is not a function"
  | None => Returned d2
  end.

Definition describe (pid : string) (instr : RawInstr) : Outcome string :=
  match parsedTruthy (in_parsed instr) with
  | Some p =>
      let d0 := default "parsed instruction" (nonEmpty (parsedType (Some p))) in
      match parsedInfo (Some p) with
      | Some info => describeInfo info d0
      | None => Returned d0
      end
  | None =>
      Returned
        (if isMemo pid then "Memo"
         else if String.eqb pid SYSTEM_PROGRAM_ID then "System instruction"
         else if String.eqb pid TOKEN_PROGRAM_ID then "SPL Token instruction"
         else "Program " +:+ substring 0 8 pid +:+ "... instruction")
  end.

(** [x || 0] on a header count. *)
Definition orZero (o : option Z) : Z := default 0 o.

(** Lines 282-284, from [message?.header || {}]. *)
Definition numSignersOf (m : Message) : Z :=
  orZero (header m ≫= numRequiredSignatures).

Definition numWritableOf (m : Message) (keyList : list Key) : Z :=
  Z.of_nat (length keyList)
  - orZero (header m ≫= numReadonlySignedAccounts)
  - orZero (header m ≫= numReadonlyUnsignedAccounts).

(** Lines 276-292: one turn of [for (const accIdx of instr.accounts)], on the
    pair of [uniqueAccounts] and [keys]. *)
Definition indexedKey (m : Message) (keyList : list Key)
    (st : list string * list AccountMeta) (accIdx : Z)
    : list string * list AccountMeta :=
  match keyAt keyList accIdx with
  | Some pk =>
      let pubkeyStr := keyText pk in
      (setAdd pubkeyStr st.1,
       st.2 ++ [ {| pubkey := pubkeyStr;
                    isSigner := accIdx <? numSignersOf m;
                    isWritable := accIdx <? numWritableOf m keyList |} ])
  | None => st
  end.

(** Lines 296-308. *)
Definition accountFields : list (string * bool * bool) :=
  [ ("source", true, true);
    ("destination", false, true);
    ("owner", true, false);
    ("authority", true, false);
    ("mint", false, true);
    ("account", false, true);
    ("tokenAccount", false, true);
    ("multisigAuthority", false, false);
    ("newAccount", false, true);
    ("fromPubkey", true, true);
    ("toPubkey", false, true) ].

(** Lines 310-319: one turn of the loop over [accountFields]. *)
Definition namedKey (info : gmap string JValue)
    (st : list string * list AccountMeta) (f : string * bool * bool)
    : list string * list AccountMeta :=
  match truthyField (info !! f.1.1) with
  | Some (JStr a) =>
      (setAdd a st.1,
       st.2 ++ [ {| pubkey := a; isSigner := f.1.2; isWritable := f.2 |} ])
  | _ => st
  end.

(** Lines 273-320: the new [uniqueAccounts] and the [keys] of the
    instruction. *)
Definition collectKeys (m : Message) (keyList : list Key) (instr : RawInstr)
    (uniqueAccounts : list string) : list string * list AccountMeta :=
  match in_accounts instr with
  | Some accs => foldl (indexedKey m keyList) (uniqueAccounts, []) accs
  | None =>
      match parsedInfo (in_parsed instr) with
      | Some info => foldl (namedKey info) (uniqueAccounts, []) accountFields
      | None => (uniqueAccounts, [])
      end
  end.

(** Lines 322-329. *)
Definition dataOf (instr : RawInstr) : string :=
  match in_data instr with
  | Some (DataStr s) => s
  | Some (DataBuf b64) => b64
  | None => ""
  end.

(** The variables the [for] loop of line 228 updates. *)
Record LoopState := {
  uniqueAccounts : list string;
  detailedInstructions : list Instruction;
  ls_computeBudget : option JValue;
}.

(** Lines 247-252: a compute-budget instruction only updates
    [computeBudget]. *)
Definition budgetOf (instr : RawInstr) (old : option JValue) : option JValue :=
  if bool_decide (parsedType (in_parsed instr) = Some "setComputeUnitLimit")
  then Some (default (JNum 200000)
               (truthyField (parsedInfo (in_parsed instr) ≫= (.!! "units"))))
  else old.

(** One turn of the loop of lines 228-337. *)
Definition step (m : Message) (keyList : list Key) (st : LoopState)
    (instr : RawInstr) : Outcome LoopState :=
  match resolveProgramId keyList instr with
  | None => Returned st
  | Some pid =>
      let ua := setAdd pid (uniqueAccounts st) in
      if String.eqb pid COMPUTE_BUDGET_ID then
        Returned {| uniqueAccounts := ua;
                    detailedInstructions := detailedInstructions st;
                    ls_computeBudget := budgetOf instr (ls_computeBudget st) |}
      else
        d <-! describe pid instr;
        let uk := collectKeys m keyList instr ua in
        Returned {| uniqueAccounts := uk.1;
                    detailedInstructions :=
                      detailedInstructions st ++
                      [ {| programId := pid; description := d;
                           keys := uk.2; data := dataOf instr |} ];
                    ls_computeBudget := ls_computeBudget st |}
  end.

Fixpoint loop (m : Message) (keyList : list Key) (st : LoopState)
    (instrs : list RawInstr) : Outcome LoopState :=
  match instrs with
  | [] => Returned st
  | instr :: rest =>
      st' <-! step m keyList st instr;
      loop m keyList st' rest
  end.

(** Lines 339-348: the classifier. *)
Definition classify (detailed : list Instruction) : string :=
  match detailed with
  | [] => "complex"
  | [i] =>
      let pid := programId i in
      if String.eqb pid SYSTEM_PROGRAM_ID then "system"
      else if String.eqb pid TOKEN_PROGRAM_ID then "spl-token"
      else if isMemo pid then "memo"
      else "program"
  | _ :: _ :: _ => "multi-" +:+ pretty (length detailed)
  end.

Definition initialState : LoopState :=
  {| uniqueAccounts := []; detailedInstructions := []; ls_computeBudget := None |}.

(** [decompileToTS] up to the call of the renderer: [None] is the [null] of
    line 220, otherwise the classification and the renderer's argument. *)
Definition normalize (sg : string) (parsed : RawTransaction)
    : Outcome (option Canonical) :=
  match instructionsOf parsed with
  | [] => Returned None
  | instrs =>
      st <-! loop (messageOf parsed) (accountKeysOf parsed) initialState instrs;
      Returned (Some
        {| kind := classify (detailedInstructions st);
           params := {| sig := sg;
                        rp_instructions := detailedInstructions st;
                        accounts := uniqueAccounts st;
                        computeBudget := ls_computeBudget st |} |})
  end.

(** ** The earlier normalizer: [decompileToTS] of [src/unnamed/part_000],
    lines 387-540 *)

(** [hay.includes(needle)] *)
Fixpoint includes (needle hay : string) : bool :=
  String.prefix needle hay ||
  match hay with
  | EmptyString => false
  | String _ rest => includes needle rest
  end.

Module Alt.

(** Lines 403-415: the chain ends in [instr.program || 'unknown'], no
    instruction is skipped. *)
Definition resolveProgramId (keyList : list Key) (instr : RawInstr) : string :=
  match byToBase58 instr with
  | Some pid => pid
  | None =>
  match byToString instr with
  | Some pid => pid
  | None =>
  match bySystemMarker instr with
  | Some pid => pid
  | None =>
  match byIndex keyList instr with
  | Some pid => pid
  | None => default "unknown" (nonEmpty (in_program instr))
  end end end end.

(** Lines 429-446. *)
Definition describe (pid : string) (instr : RawInstr) : Outcome string :=
  match parsedTruthy (in_parsed instr) with
  | Some p =>
      let d0 := default "parsed instruction" (nonEmpty (parsedType (Some p))) in
      match parsedInfo (Some p) with
      | Some info => describeInfo info d0
      | None => Returned d0
      end
  | None =>
      Returned
        (if includes "Memo" pid then "Memo"
         else if String.eqb pid SYSTEM_PROGRAM_ID then "System instruction"
         else if String.eqb pid TOKEN_PROGRAM_ID then "SPL Token instruction"
         else "Program " +:+ substring 0 8 pid +:+ "... instruction")
  end.

(** Line 462. *)
Definition numWritableOf (m : Message) (keyList : list Key) : Z :=
  numSignersOf m
  + (Z.of_nat (length keyList)
     - orZero (header m ≫= numReadonlySignedAccounts)
     - orZero (header m ≫= numReadonlyUnsignedAccounts)).

(** Lines 453-470. *)
Definition indexedKey (m : Message) (keyList : list Key)
    (st : list string * list AccountMeta) (accIdx : Z)
    : list string * list AccountMeta :=
  match keyAt keyList accIdx with
  | Some pk =>
      let pubkeyStr := keyText pk in
      (setAdd pubkeyStr st.1,
       st.2 ++ [ {| pubkey := pubkeyStr;
                    isSigner := accIdx <? numSignersOf m;
                    isWritable := accIdx <? numWritableOf m keyList |} ])
  | None => st
  end.

(** Lines 449-500. *)
Definition collectKeys (m : Message) (keyList : list Key) (instr : RawInstr)
    (uniqueAccounts : list string) : list string * list AccountMeta :=
  match in_accounts instr with
  | Some accs => foldl (indexedKey m keyList) (uniqueAccounts, []) accs
  | None =>
      match parsedInfo (in_parsed instr) with
      | Some info => foldl (namedKey info) (uniqueAccounts, []) accountFields
      | None => (uniqueAccounts, [])
      end
  end.

(** One turn of the loop of lines 401-518. *)
Definition step (m : Message) (keyList : list Key) (st : LoopState)
    (instr : RawInstr) : Outcome LoopState :=
  let pid := resolveProgramId keyList instr in
  let ua := setAdd pid (uniqueAccounts st) in
  if String.eqb pid COMPUTE_BUDGET_ID then
    Returned {| uniqueAccounts := ua;
                detailedInstructions := detailedInstructions st;
                ls_computeBudget := budgetOf instr (ls_computeBudget st) |}
  else
    d <-! describe pid instr;
    let uk := collectKeys m keyList instr ua in
    Returned {| uniqueAccounts := uk.1;
                detailedInstructions :=
                  detailedInstructions st ++
                  [ {| programId := pid; description := d;
                       keys := uk.2; data := dataOf instr |} ];
                ls_computeBudget := ls_computeBudget st |}.

Fixpoint loop (m : Message) (keyList : list Key) (st : LoopState)
    (instrs : list RawInstr) : Outcome LoopState :=
  match instrs with
  | [] => Returned st
  | instr :: rest =>
      st' <-! step m keyList st instr;
      loop m keyList st' rest
  end.

(** Lines 521-530. *)
Definition classify (detailed : list Instruction) : string :=
  match detailed with
  | [] => "complex"
  | [i] =>
      let pid := programId i in
      if String.eqb pid SYSTEM_PROGRAM_ID then "system"
      else if String.eqb pid TOKEN_PROGRAM_ID then "spl-token"
      else if includes "Memo" pid then "memo"
      else "program"
  | _ :: _ :: _ => "multi-" +:+ pretty (length detailed)
  end.

Definition normalize (sg : string) (parsed : RawTransaction)
    : Outcome (option Canonical) :=
  match instructionsOf parsed with
  | [] => Returned None
  | instrs =>
      st <-! loop (messageOf parsed) (accountKeysOf parsed) initialState instrs;
      Returned (Some
        {| kind := classify (detailedInstructions st);
           params := {| sig := sg;
                        rp_instructions := detailedInstructions st;
                        accounts := uniqueAccounts st;
                        computeBudget := ls_computeBudget st |} |})
  end.

End Alt.

(** ** The world of the fetch client and of the orchestrator *)

(** What [Promise.race([request, timeout])] settles to, and after how many
    milliseconds: the provider's answer ([null] is [None]), or a rejection
    with its [message] (["timeout"] when the timer wins). *)
Inductive Reply :=
  | Resolved (ms : Z) (v : option RawTransaction)
  | Rejected (ms : Z) (msg : string).

(** An entry of [rpcStats]. *)
Record Stats := {
  requests : Z;
  success : Z;
  failures : Z;
}.

(** A request sent to an endpoint: [getParsedTransaction] when [rq_parsed],
    [getTransaction] otherwise. *)
Record Request := {
  rq_parsed : bool;
  rq_rpc : string;
  rq_sig : string;
}.

(** The values interpolated into the warning of line 106. *)
Record Warning := {
  wn_rpc : string;
  wn_attempt : Z;
  wn_sig : string;
  wn_err : string;
  wn_backoff : Z;
}.

(** The module-level variables [rpcIndex] ([None] is [NaN]), [rpcStats] and
    [rpcLastUsed], the file system, the clock read by [Date.now()], and what
    the process did so far: requests sent, random numbers drawn, warnings
    printed, identifiers handed to [processSig]. *)
Record World := {
  files : gmap string string;
  rpcIndex : option Z;
  rpcStats : gmap string Stats;
  rpcLastUsed : gmap string Z;
  now : Z;
  requestLog : list Request;
  draws : nat;
  warnings : list Warning;
  processed : list string;
}.

Definition setFiles (f : gmap string string) (w : World) : World :=
  {| files := f; rpcIndex := rpcIndex w; rpcStats := rpcStats w;
     rpcLastUsed := rpcLastUsed w; now := now w; requestLog := requestLog w;
     draws := draws w; warnings := warnings w; processed := processed w |}.

Definition setRpcIndex (i : option Z) (w : World) : World :=
  {| files := files w; rpcIndex := i; rpcStats := rpcStats w;
     rpcLastUsed := rpcLastUsed w; now := now w; requestLog := requestLog w;
     draws := draws w; warnings := warnings w; processed := processed w |}.

Definition setRpcStats (s : gmap string Stats) (w : World) : World :=
  {| files := files w; rpcIndex := rpcIndex w; rpcStats := s;
     rpcLastUsed := rpcLastUsed w; now := now w; requestLog := requestLog w;
     draws := draws w; warnings := warnings w; processed := processed w |}.

Definition setRpcLastUsed (l : gmap string Z) (w : World) : World :=
  {| files := files w; rpcIndex := rpcIndex w; rpcStats := rpcStats w;
     rpcLastUsed := l; now := now w; requestLog := requestLog w;
     draws := draws w; warnings := warnings w; processed := processed w |}.

Definition setNow (t : Z) (w : World) : World :=
  {| files := files w; rpcIndex := rpcIndex w; rpcStats := rpcStats w;
     rpcLastUsed := rpcLastUsed w; now := t; requestLog := requestLog w;
     draws := draws w; warnings := warnings w; processed := processed w |}.

Definition setRequestLog (l : list Request) (w : World) : World :=
  {| files := files w; rpcIndex := rpcIndex w; rpcStats := rpcStats w;
     rpcLastUsed := rpcLastUsed w; now := now w; requestLog := l;
     draws := draws w; warnings := warnings w; processed := processed w |}.

Definition setDraws (n : nat) (w : World) : World :=
  {| files := files w; rpcIndex := rpcIndex w; rpcStats := rpcStats w;
     rpcLastUsed := rpcLastUsed w; now := now w; requestLog := requestLog w;
     draws := n; warnings := warnings w; processed := processed w |}.

Definition setWarnings (l : list Warning) (w : World) : World :=
  {| files := files w; rpcIndex := rpcIndex w; rpcStats := rpcStats w;
     rpcLastUsed := rpcLastUsed w; now := now w; requestLog := requestLog w;
     draws := draws w; warnings := l; processed := processed w |}.

Definition setProcessed (l : list string) (w : World) : World :=
  {| files := files w; rpcIndex := rpcIndex w; rpcStats := rpcStats w;
     rpcLastUsed := rpcLastUsed w; now := now w; requestLog := requestLog w;
     draws := draws w; warnings := warnings w; processed := l |}.

(** The state at program start: [rpcIndex = -1], empty tables. *)
Definition startWorld (fs : gmap string string) (t : Z) : World :=
  {| files := fs; rpcIndex := Some (-1); rpcStats := ∅; rpcLastUsed := ∅;
     now := t; requestLog := []; draws := 0%nat; warnings := [];
     processed := [] |}.

(** The configuration read from the environment and the command line, and
    what the outside answers: the [n]-th request's reply and the [n]-th
    [Math.random()] scaled by [k] and cut to whole milliseconds, as
    [setTimeout] does.  A [NaN] from [parseInt] is not represented. *)
Record Env := {
  RPC_LIST : list string;
  MAX_RETRIES : Z;
  CONCURRENCY : Z;
  BATCH_DELAY_MS : Z;
  START_FROM_SIG : option string;
  getParsedTransaction : nat -> string -> string -> Reply;
  getTransaction : nat -> string -> string -> Reply;
  random : nat -> Z -> Z;
}.

Definition BASE_BACKOFF_MS : Z := 1000.
Definition PER_RPC_DELAY_MS : Z := 300.

(** The largest delay a timer takes: 2^31 - 1 ms, a little under 25 days. *)
Definition TIMEOUT_MAX : Z := 2147483647.

(** The delay [setTimeout(f, ms)] really uses: Node sets a delay that is
    not within [1, TIMEOUT_MAX] (a negative number, zero, a number that is
    too large, [Infinity]) to 1 ms. *)
Definition timerDelay (ms : Z) : Z :=
  if (1 <=? ms) && (ms <=? TIMEOUT_MAX) then ms else 1.

(** [ms] milliseconds go by. *)
Definition elapse (ms : Z) (w : World) : World :=
  setNow (now w + Z.max 0 ms) w.

(** [wait(ms)], line 67: the caller resumes when the timer fires. *)
Definition wait (ms : Z) (w : World) : World :=
  elapse (timerDelay ms) w.

(** [path.join(OUT_JSONL_DIR, `${sig}.json`)], relative to the working
    directory, for an identifier that [path.join] leaves as it is (one
    without [/], [.] or [..] segments). *)
Definition cachePathForSig (sg : string) : string :=
  "out_jsonl/" +:+ sg +:+ ".json".

Definition isCached (sg : string) (w : World) : bool :=
  bool_decide (is_Some (files w !! cachePathForSig sg)).

(** Line 104. *)
Definition is429 (msg : string) : bool :=
  negb (String.eqb msg "") &&
  (includes "429" msg || includes "Too Many Requests" msg).

(** Lines 100 and 105.  [Math.pow] on whole numbers is exact while the
    product is below 2^53; from there on the number of the program is this
    one rounded, or [Infinity], in either case far beyond [TIMEOUT_MAX]. *)
Definition backoffMs (rateLimited : bool) (attempt : Z) : Z :=
  if rateLimited then BASE_BACKOFF_MS * 3 ^ attempt
  else BASE_BACKOFF_MS * 2 ^ attempt.

(** [s.replace(/[^a-zA-Z0-9_.-]/g,'_').slice(0,120)], on ASCII text. *)
Definition safeChar (c : ascii) : ascii :=
  let n := nat_of_ascii c in
  if ((97 <=? n) && (n <=? 122) || (65 <=? n) && (n <=? 90) ||
      (48 <=? n) && (n <=? 57) || (n =? 95) || (n =? 46) || (n =? 45))%nat
  then c else "_"%char.

Fixpoint mapChars (f : ascii -> ascii) (s : string) : string :=
  match s with
  | EmptyString => EmptyString
  | String c rest => String (f c) (mapChars f rest)
  end.

Definition safeName (s : string) : string :=
  substring 0 120 (mapChars safeChar s).

(** [l.slice(a, b)] *)
Definition slice {A} (l : list A) (a b : Z) : list A :=
  let len := Z.of_nat (length l) in
  let from := if a <? 0 then Z.max (len + a) 0 else Z.min a len in
  let to := if b <? 0 then Z.max (len + b) 0 else Z.min b len in
  take (Z.to_nat (to - from)) (drop (Z.to_nat from) l).

(** [l.indexOf(x)], [None] for [-1]. *)
Fixpoint indexOf (x : string) (l : list string) : option nat :=
  match l with
  | [] => None
  | y :: rest => if String.eqb y x then Some 0%nat else S <$> indexOf x rest
  end.

Definition emptyMessage : Message :=
  {| instructions := None; accountKeys := None; header := None |}.

(** The object [{}]. *)
Definition emptyRaw : RawTransaction :=
  {| transaction := None; message := None; own := emptyMessage |}.

Definition zeroStats : Stats := {| requests := 0; success := 0; failures := 0 |}.

Definition incRequests (s : Stats) : Stats :=
  {| requests := requests s + 1; success := success s; failures := failures s |}.
Definition incSuccess (s : Stats) : Stats :=
  {| requests := requests s; success := success s + 1; failures := failures s |}.
Definition incFailures (s : Stats) : Stats :=
  {| requests := requests s; success := success s; failures := failures s + 1 |}.

(** How a run of the orchestrator ends: normally, by [process.exit(code)],
    or not within the given number of turns of its [while] loop. *)
Inductive RunResult :=
  | Completed
  | Exited (code : Z)
  | StillRunning.

(** Functions the program calls and that are taken as given:
    [JSON.stringify], [JSON.parse] ([None] for a falsy value such as
    [null]), whether [new Connection(url)] accepts the endpoint, and the
    renderer of lines 113-214. *)
Record Library := {
  JSON_stringify : RawTransaction -> string;
  JSON_parse : string -> Outcome (option RawTransaction);
  connectionOk : string -> bool;
  renderCompleteTransactionTS : RenderParams -> string;
}.

Section Pipeline.

Variable L : Library.

Definition writeCache (sg : string) (obj : RawTransaction) (w : World) : World :=
  setFiles (<[cachePathForSig sg := JSON_stringify L obj]> (files w)) w.

Definition readCache (sg : string) (w : World) : Outcome (option RawTransaction) :=
  match files w !! cachePathForSig sg with
  | Some content => JSON_parse L content
  | None => Thrown "ENOENT: no such file or directory"
  end.

(** Lines 39-57.  The endpoint is [None] ([undefined]) when the list is
    empty; as a property key it reads ["undefined"]. *)
Definition nextRpc (E : Env) (w : World) : option string * World :=
  let len := Z.of_nat (length (RPC_LIST E)) in
  let idx := match rpcIndex w with
             | Some i => if len =? 0 then None else Some (Z.rem (i + 1) len)
             | None => None
             end in
  let rpc := idx ≫= (λ i, if 0 <=? i then RPC_LIST E !! Z.to_nat i else None) in
  let key := default "undefined" rpc in
  let w := setRpcIndex idx w in
  let w := setRpcStats
             (<[key := incRequests (default zeroStats (rpcStats w !! key))]>
                (rpcStats w)) w in
  let w := match rpcLastUsed w !! key with
           | Some last =>
               if last =? 0 then w
               else
                 let timeSinceLastUse := now w - last in
                 if timeSinceLastUse <? PER_RPC_DELAY_MS
                 then wait (PER_RPC_DELAY_MS - timeSinceLastUse) w
                 else w
           | None => w
           end in
  let w := setRpcLastUsed (<[key := now w]> (rpcLastUsed w)) w in
  (rpc, w).

(** One [Promise.race] of lines 82-85 or 91-94: the request is logged and
    settles after the time the reply takes. *)
Definition send (parsedForm : bool) (E : Env) (url sg : string) (w : World)
    : Reply * World :=
  let n := length (requestLog w) in
  let r := if parsedForm then getParsedTransaction E n url sg
           else getTransaction E n url sg in
  let w := setRequestLog
             (requestLog w ++
              [ {| rq_parsed := parsedForm; rq_rpc := url; rq_sig := sg |} ]) w in
  (r, elapse (match r with Resolved ms _ => ms | Rejected ms _ => ms end) w).

(** [Math.random() * k] *)
Definition draw (E : Env) (k : Z) (w : World) : Z * World :=
  (random E (draws w) k, setDraws (S (draws w)) w).

(** Lines 102-108. *)
Definition catchError (E : Env) (attempt : Z) (url sg msg : string)
    (w : World) : World :=
  let w := setRpcStats (alter incFailures url (rpcStats w)) w in
  let backoff := backoffMs (is429 msg) attempt in
  let w := setWarnings
             (warnings w ++
              [ {| wn_rpc := url; wn_attempt := attempt; wn_sig := sg;
                   wn_err := msg; wn_backoff := backoff |} ]) w in
  let jw := draw E 150 w in
  wait (backoff + jw.1) jw.2.

(** Lines 86-90 and 95-99, for a cache file that can be written.  (When
    [writeFileSync] throws, the [catch] block counts a failure for the
    endpoint as well and the loop goes on.) *)
Definition succeed (url sg : string) (v : RawTransaction) (w : World) : World :=
  writeCache sg v (setRpcStats (alter incSuccess url (rpcStats w)) w).

(** Lines 81-108: the [try] of one attempt; [Some v] when it returns [v],
    [None] when the loop goes on. *)
Definition tryOnce (E : Env) (attempt : Z) (url sg : string) (w : World)
    : option RawTransaction * World :=
  let rw := send true E url sg w in
  match rw.1 with
  | Rejected _ msg => (None, catchError E attempt url sg msg rw.2)
  | Resolved _ (Some parsed) => (Some parsed, succeed url sg parsed rw.2)
  | Resolved _ None =>
      let rw := send false E url sg rw.2 in
      match rw.1 with
      | Rejected _ msg => (None, catchError E attempt url sg msg rw.2)
      | Resolved _ (Some raw) => (Some raw, succeed url sg raw rw.2)
      | Resolved _ None =>
          let backoff := backoffMs false attempt in
          let jw := draw E 100 rw.2 in
          (None, wait (backoff + jw.1) jw.2)
      end
  end.

(** Lines 77-110: the [while (attempt < MAX_RETRIES)] loop, with
    [remaining] the number of turns left, [MAX_RETRIES - attempt]. *)
Fixpoint fetchLoop (E : Env) (sg : string) (remaining : nat) (attempt : Z)
    (w : World) : Outcome (option RawTransaction) * World :=
  match remaining with
  | O =>
      (Thrown ("Failed to fetch " +:+ sg +:+ " after " +:+
               pretty (MAX_RETRIES E) +:+ " attempts"), w)
  | S remaining' =>
      let attempt := attempt + 1 in
      let rw := nextRpc E w in
      match rw.1 with
      | Some url =>
          if connectionOk L url then
            match tryOnce E attempt url sg rw.2 with
            | (Some v, w') => (Returned (Some v), w')
            | (None, w') => fetchLoop E sg remaining' attempt w'
            end
          else (Thrown "TypeError: invalid endpoint URL", rw.2)
      | None => (Thrown "TypeError: invalid endpoint URL", rw.2)
      end
  end.

(** Lines 74-111. *)
Definition fetchParsedTx (E : Env) (sg : string) (w : World)
    : Outcome (option RawTransaction) * World :=
  if isCached sg w then (readCache sg w, w)
  else fetchLoop E sg (Z.to_nat (MAX_RETRIES E)) 0 w.

(** Lines 216-358: [{kind, ts}], or [null]. *)
Definition decompileToTS (sg : string) (parsed : RawTransaction)
    : Outcome (option (string * string)) :=
  c <-! normalize sg parsed;
  Returned ((λ c, (kind c, renderCompleteTransactionTS L (params c))) <$> c).

(** The file [processSig] writes for a decompiled transaction. *)
Definition outPath (sg k : string) : string :=
  "out_ts/" +:+ safeName (sg +:+ "_" +:+ k +:+ ".ts").

(** Lines 382-389: from the fetched value to the written file. *)
Definition emit (sg : string) (parsed : option RawTransaction)
    : option (string * string) :=
  match decompileToTS sg (default emptyRaw parsed) with
  | Returned (Some (k, ts)) => Some (outPath sg k, ts)
  | _ => None
  end.

Definition writeOut (out : option (string * string)) (fs : gmap string string)
    : gmap string string :=
  match out with
  | Some (p, ts) => <[p := ts]> fs
  | None => fs
  end.

(** What [processSig] writes for an identifier whose cache file holds
    [content]. *)
Definition emitCached (sg content : string) : option (string * string) :=
  match JSON_parse L content with
  | Returned parsed => emit sg parsed
  | Thrown _ => None
  end.

(** Lines 379-393; an exception is caught and only printed. *)
Definition processSig (E : Env) (w : World) (sg : string) : World :=
  let w := setProcessed (processed w ++ [sg]) w in
  let rw := if isCached sg w then (readCache sg w, w)
            else fetchParsedTx E sg w in
  match rw.1 with
  | Returned parsed => setFiles (writeOut (emit sg parsed) (files rw.2)) rw.2
  | Thrown _ => rw.2
  end.

(** Lines 402-416: the windows of [CONCURRENCY] identifiers; the calls of
    one window are run one after the other, in list order. *)
Fixpoint runLoop (E : Env) (sigs : list string) (fuel : nat) (i : Z)
    (w : World) : RunResult * World :=
  if i <? Z.of_nat (length sigs) then
    match fuel with
    | O => (StillRunning, w)
    | S fuel' =>
        let batch := slice sigs i (i + CONCURRENCY E) in
        let w := foldl (processSig E) w batch in
        let i := i + CONCURRENCY E in
        let w := if i <? Z.of_nat (length sigs)
                 then wait (BATCH_DELAY_MS E) w else w in
        runLoop E sigs fuel' i w
    end
  else (Completed, w).

(** Lines 364-375: where the sweep starts. *)
Definition selectSigs (E : Env) (allSigs : list string)
    : option (list string) :=
  match nonEmpty (START_FROM_SIG E) with
  | Some start =>
      match indexOf start allSigs with
      | Some startIndex =>
          Some (slice allSigs (Z.of_nat startIndex)
                  (Z.of_nat (length allSigs)))
      | None => None
      end
  | None => Some allSigs
  end.

(** Lines 360-423, from the identifier list [allSigs] of line 362. *)
Definition run (E : Env) (allSigs : list string) (fuel : nat) (w : World)
    : RunResult * World :=
  match selectSigs E allSigs with
  | Some sigs => runLoop E sigs fuel 0 w
  | None => (Exited 1, w)
  end.

End Pipeline.

(** ** Inputs used in the examples *)

Definition rawInstr (pid : option Key) (prog : option string)
    (idx : option Z) (accs : option (list Z)) : RawInstr :=
  {| in_programId := pid; in_program := prog; in_programIdIndex := idx;
     in_parsed := None; in_accounts := accs; in_data := None |}.

(** A response in the raw encoding whose message is [m]. *)
Definition rawOf (m : Message) : RawTransaction :=
  {| transaction := Some {| tx_message := Some m; tx_instructions := None |};
     message := None; own := emptyMessage |}.

(** Five account keys under the header (2, 1, 1); one instruction of the
    program at index 4 that refers to every account. *)
Definition fiveKeys : list Key :=
  [ KeyStr "Payer1111"; KeyStr "Signer222"; KeyStr "Vault3333";
    KeyStr "Store4444"; KeyStr "Prog55555" ].

Definition header211 : Header :=
  {| numRequiredSignatures := Some 2;
     numReadonlySignedAccounts := Some 1;
     numReadonlyUnsignedAccounts := Some 1 |}.

Definition message211 : Message :=
  {| instructions := Some [ rawInstr None None (Some 4) (Some [0; 1; 2; 3; 4]) ];
     accountKeys := Some fiveKeys;
     header := Some header211 |}.

(** A compute-budget instruction in the pre-parsed encoding. *)
Definition budgetInstr : RawInstr :=
  {| in_programId := Some (KeyObj COMPUTE_BUDGET_ID);
     in_program := None; in_programIdIndex := None;
     in_parsed := Some (ParsedObj (Some "setComputeUnitLimit")
                          (Some {[ "units" := JNum 1400000 ]}));
     in_accounts := None; in_data := None |}.

(** A system transfer in the pre-parsed encoding. *)
Definition transferInstr : RawInstr :=
  {| in_programId := Some (KeyObj SYSTEM_PROGRAM_ID);
     in_program := Some "system"; in_programIdIndex := None;
     in_parsed := Some (ParsedObj (Some "transfer")
                          (Some (<[ "source" := JStr "Alice" ]>
                                 (<[ "destination" := JStr "Bob" ]>
                                  {[ "lamports" := JNum 5000 ]}))));
     in_accounts := None; in_data := None |}.

Definition messageOfInstrs (l : list RawInstr) : Message :=
  {| instructions := Some l; accountKeys := None; header := None |}.

(** An instruction that only names its program, by the provider's label. *)
Definition labelledInstr : RawInstr :=
  rawInstr None (Some "spl-memo") None None.

(** A single instruction of the SPL token program. *)
Definition tokenInstr : RawInstr :=
  rawInstr (Some (KeyStr TOKEN_PROGRAM_ID)) None None None.

(** A compute-budget directive followed by a system transfer, and the
    directive alone. *)
Definition budgetAndTransfer : RawTransaction :=
  rawOf (messageOfInstrs [ budgetInstr; transferInstr ]).

Definition budgetOnly : RawTransaction :=
  rawOf (messageOfInstrs [ budgetInstr ]).

(** An instruction with a string program id and an index into the keys, and
    one with nothing to resolve. *)
Definition taggedAndIndexed : RawInstr :=
  rawInstr (Some (KeyStr "TagProg11")) None (Some 0) None.

Definition bareInstr : RawInstr := rawInstr None None None None.

(** The message of [message211] with an instruction that refers to the
    first three accounts only. *)
Definition message211low : Message :=
  {| instructions := Some [ rawInstr None None (Some 4) (Some [0; 1; 2]) ];
     accountKeys := Some fiveKeys;
     header := Some header211 |}.

(** An environment with one endpoint and five attempts whose requests all
    time out, and the library functions of a process whose cache files all
    hold the response [budgetAndTransfer]. *)
Definition timeoutEnv (start : option string) : Env :=
  {| RPC_LIST := ["https://api.mainnet-beta.solana.com"];
     MAX_RETRIES := 5;
     CONCURRENCY := 5;
     BATCH_DELAY_MS := 0;
     START_FROM_SIG := start;
     getParsedTransaction := λ _ _ _, Rejected 30000 "timeout";
     getTransaction := λ _ _ _, Rejected 30000 "timeout";
     random := λ _ _, 0 |}.

Definition stringifyStub (_ : RawTransaction) : string := "{}".
Definition parseStub (_ : string) : Outcome (option RawTransaction) :=
  Returned (Some budgetAndTransfer).
Definition renderStub (p : RenderParams) : string := sig p.
Definition httpsOnly (url : string) : bool := String.prefix "https:" url.

Definition libStub : Library :=
  {| JSON_stringify := stringifyStub; JSON_parse := parseStub;
     connectionOk := httpsOnly; renderCompleteTransactionTS := renderStub |}.

(** A world at program start whose cache holds the transaction [tx1]. *)
Definition cachedWorld : World :=
  startWorld {[ cachePathForSig "tx1" := "{}" ]} 1700000000000.

(** ** What the specification says, where it is compared with the code *)

(** The first strategy that yields a program id. *)
Fixpoint firstMatch {A B} (strategies : list (A -> option B)) (a : A)
    : option B :=
  match strategies with
  | [] => None
  | s :: rest =>
      match s a with
      | Some b => Some b
      | None => firstMatch rest a
      end
  end.

(** The chain as the specification lists it: structured key, string-typed
    tag, system marker, account-key index; otherwise the instruction is
    skipped. *)
Definition specStrategies (keyList : list Key)
    : list (RawInstr -> option string) :=
  [ byToBase58; byToString; bySystemMarker; byIndex keyList ].

(** The chain of the source: the provider's program label is tried before
    the instruction is given up. *)
Definition codeStrategies (keyList : list Key)
    : list (RawInstr -> option string) :=
  specStrategies keyList ++ [ byProgramName ].

(** The tag vocabulary as the specification lists it. *)
Definition inSpecVocabulary (k : string) : Prop :=
  k ∈ [ "system"; "token"; "memo"; "program"; "complex"; "unrecognized" ]
  ∨ ∃ n : nat, k = "multi-" +:+ pretty n.

(** The tags the classifier of the source can produce. *)
Definition inVocabulary (k : string) : Prop :=
  k ∈ [ "system"; "spl-token"; "memo"; "program"; "complex" ]
  ∨ ∃ n : nat, (2 <= n)%nat ∧ k = "multi-" +:+ pretty n.

(** The addresses an instruction list mentions, as a program id or as an
    account. *)
Definition addressesOf (i : Instruction) : list string :=
  programId i :: (pubkey <$> keys i).

Definition addresses (l : list Instruction) : list string :=
  l ≫= addressesOf.

(** Whether an instruction of the response resolves to the compute-budget
    program. *)
Definition isBudget (keyList : list Key) (instr : RawInstr) : bool :=
  bool_decide (resolveProgramId keyList instr = Some COMPUTE_BUDGET_ID).

(** The writable accounts by the header's two trailing read-only ranges:
    the last [numReadonlySignedAccounts] of the signers and the last
    [numReadonlyUnsignedAccounts] of all are read-only. *)
Definition specIsWritable (m : Message) (keyList : list Key) (i : Z) : bool :=
  let n := Z.of_nat (length keyList) in
  let ns := numSignersOf m in
  if i <? ns
  then i <? ns - orZero (header m ≫= numReadonlySignedAccounts)
  else i <? n - orZero (header m ≫= numReadonlyUnsignedAccounts).

(** The accounts of a state are the addresses of its instructions, and the
    compute-budget program once [b] tells that one of its instructions was
    met. *)
Definition accountsInv (b : bool) (st : LoopState) : Prop :=
  ∀ a, a ∈ uniqueAccounts st ↔
       a ∈ addresses (detailedInstructions st) ∨ (b = true ∧ a = COMPUTE_BUDGET_ID).

(** The program id under which an instruction of the response enters the
    canonical list, if it does. *)
Definition keptId (keyList : list Key) (instr : RawInstr) : option string :=
  match resolveProgramId keyList instr with
  | Some pid => if String.eqb pid COMPUTE_BUDGET_ID then None else Some pid
  | None => None
  end.

(** The canonical transaction under another identifier. *)
Definition withSig (sg : string) (c : Canonical) : Canonical :=
  {| kind := kind c;
     params := {| sig := sg;
                  rp_instructions := rp_instructions (params c);
                  accounts := accounts (params c);
                  computeBudget := computeBudget (params c) |} |}.

(** The account reference the raw encoding gives for index [i]. *)
Definition refAt (m : Message) (keyList : list Key) (nWritable : Z) (i : Z)
    : option AccountMeta :=
  (λ pk, {| pubkey := keyText pk;
            isSigner := i <? numSignersOf m;
            isWritable := i <? nWritable |}) <$> keyAt keyList i.

(** An instruction on which the two normalizers have no reason to differ:
    the chain of the source resolves its program id; that id contains
    ["Memo"] only if it is one of the two memo programs; and the two
    thresholds for [isWritable] class alike every account index it refers
    to. *)
Definition variantsAgreeOn (m : Message) (keyList : list Key)
    (instr : RawInstr) : Prop :=
  is_Some (resolveProgramId keyList instr) ∧
  (∀ pid, resolveProgramId keyList instr = Some pid →
          includes "Memo" pid = isMemo pid) ∧
  (∀ accs i, in_accounts instr = Some accs → i ∈ accs →
             is_Some (keyAt keyList i) →
             (i <? numWritableOf m keyList) = (i <? Alt.numWritableOf m keyList)).

(** ** Further notions used in the properties below *)

(** The unit limit an instruction of the response sets: it resolves to the
    compute-budget program and is decoded as [setComputeUnitLimit]. *)
Definition unitLimitOf (keyList : list Key) (instr : RawInstr) : option JValue :=
  if isBudget keyList instr then
    if bool_decide (parsedType (in_parsed instr) = Some "setComputeUnitLimit")
    then budgetOf instr None
    else None
  else None.

(** A token transfer whose decoded [mint] is a number. *)
Definition numericMintInstr : RawInstr :=
  {| in_programId := Some (KeyStr TOKEN_PROGRAM_ID);
     in_program := Some "spl-token"; in_programIdIndex := None;
     in_parsed := Some (ParsedObj (Some "transferChecked")
                          (Some {[ "mint" := JNum 7 ]}));
     in_accounts := None; in_data := None |}.

(** [n] calls of [nextRpc] in a row: the endpoints handed out, in order. *)
Fixpoint nextRpcs (E : Env) (n : nat) (w : World) : list (option string) * World :=
  match n with
  | O => ([], w)
  | S n' =>
      let rw := nextRpc E w in
      let rest := nextRpcs E n' rw.2 in
      (rw.1 :: rest.1, rest.2)
  end.

(** No endpoint is credited with more successes than requests, nor with
    more failures than requests. *)
Definition statsOk (w : World) : Prop :=
  ∀ k s, rpcStats w !! k = Some s →
         success s ≤ requests s ∧ failures s ≤ requests s.

(** The same while the request just counted for endpoint [key] has no
    outcome yet: both counters of [key] are below its requests. *)
Definition statsOwe (key : string) (w : World) : Prop :=
  ∀ k s, rpcStats w !! k = Some s →
         success s + (if decide (k = key) then 1 else 0) ≤ requests s ∧
         failures s + (if decide (k = key) then 1 else 0) ≤ requests s.

(** An environment with three endpoints whose first request is rejected as
    rate limited and whose later requests are answered, the pre-parsed form
    empty and the raw form with [budgetAndTransfer]. *)
Definition threeRpcEnv (width : Z) : Env :=
  {| RPC_LIST := ["https://a.example"; "https://b.example"; "https://c.example"];
     MAX_RETRIES := 3;
     CONCURRENCY := width;
     BATCH_DELAY_MS := 0;
     START_FROM_SIG := None;
     getParsedTransaction :=
       λ n _ _, if (n <? 1)%nat then Rejected 10 "429 Too Many Requests"
                else Resolved 5 None;
     getTransaction := λ _ _ _, Resolved 7 (Some budgetAndTransfer);
     random := λ _ _, 42 |}.

(** A world at program start with an empty file system. *)
Definition freshWorld : World := startWorld ∅ 1700000000000.

(** The characters [safeName] keeps: [[a-zA-Z0-9_.-]]. *)
Definition isSafeChar (c : ascii) : bool :=
  let n := nat_of_ascii c in
  ((97 <=? n) && (n <=? 122) || (65 <=? n) && (n <=? 90) ||
   (48 <=? n) && (n <=? 57) || (n =? 95) || (n =? 46) || (n =? 45))%nat.

Fixpoint allChars (p : ascii -> bool) (s : string) : bool :=
  match s with
  | EmptyString => true
  | String c rest => p c && allChars p rest
  end.

Definition notUnderscore (c : ascii) : bool := negb (Ascii.eqb c "_").

(** ** The manifest: [src/generate_manifest.js] (lines 426-445 of the first
    source file) *)

(** [s.endsWith(suffix)] *)
Definition endsWith (suffix s : string) : bool :=
  (String.length suffix <=? String.length s)%nat &&
  String.eqb
    (substring (String.length s - String.length suffix) (String.length suffix) s)
    suffix.

(** The text after the last underscore of [s], if there is one. *)
Fixpoint afterLastUnderscore (s : string) : option string :=
  match s with
  | EmptyString => None
  | String c rest =>
      match afterLastUnderscore rest with
      | Some t => Some t
      | None => if Ascii.eqb c "_" then Some rest else None
      end
  end.

(** [f.match(/_([^_]+)\.ts$/)], then [match ? match[1] : 'unclassified'].
    The group cannot cross an underscore and must reach the final [.ts], so
    the only underscore at which the pattern can match is the last one, and
    it matches there when what follows is a non-empty text and [.ts]. *)
Definition manifestKind (f : string) : string :=
  match afterLastUnderscore f with
  | Some t =>
      if endsWith ".ts" t && (3 <? String.length t)%nat
      then substring 0 (String.length t - 3) t
      else "unclassified"
  | None => "unclassified"
  end.

(** The characters of a classification tag: safe for file names and not an
    underscore. *)
Definition isTagChar (c : ascii) : bool := isSafeChar c && notUnderscore c.

(** ** The identifier list: lines 361-362 of the first source file, and
    [src/fetch_swap_transactions.js] (lines 1-165 of [src/unnamed/part_000])
    that writes it *)

Definition LF : ascii := "010"%char.
Definition CR : ascii := "013"%char.
Definition COMMA : ascii := ","%char.

(** A string stands for a sequence of UTF-16 code units below 256.  The
    characters that [trim] removes among them: tab, line feed, vertical tab,
    form feed, carriage return, space, and the no-break space U+00A0.  (The
    other white space of [trim], U+1680, U+2000 to U+200A, U+2028, U+2029,
    U+202F, U+205F, U+3000 and U+FEFF, lies above.) *)
Definition isSpace (c : ascii) : bool :=
  let n := nat_of_ascii c in
  ((9 <=? n) && (n <=? 13) || (n =? 32) || (n =? 160))%nat.

(** [s.split(sep)] for a one-character separator. *)
Fixpoint splitOn (sep : ascii) (s : string) : list string :=
  match s with
  | EmptyString => [""]
  | String c rest =>
      if Ascii.eqb c sep then "" :: splitOn sep rest
      else match splitOn sep rest with
           | piece :: pieces => String c piece :: pieces
           | [] => [String c ""]
           end
  end.

(** [s] without one final carriage return. *)
Fixpoint dropFinalCR (s : string) : string :=
  match s with
  | EmptyString => EmptyString
  | String c EmptyString => if Ascii.eqb c CR then EmptyString else s
  | String c rest => String c (dropFinalCR rest)
  end.

(** [s.split(/\r?\n/)]: the pieces between line feeds, where a carriage
    return just before a line feed belongs to the separator. *)
Fixpoint stripSeparatorCR (pieces : list string) : list string :=
  match pieces with
  | [] => []
  | [p] => [p]
  | p :: rest => dropFinalCR p :: stripSeparatorCR rest
  end.

Definition splitLines (s : string) : list string :=
  stripSeparatorCR (splitOn LF s).

Fixpoint trimStart (s : string) : string :=
  match s with
  | EmptyString => EmptyString
  | String c rest => if isSpace c then trimStart rest else s
  end.

Fixpoint trimEnd (s : string) : string :=
  match s with
  | EmptyString => EmptyString
  | String c rest =>
      match trimEnd rest with
      | EmptyString => if isSpace c then EmptyString else String c EmptyString
      | t => String c t
      end
  end.

(** [s.trim()] *)
Definition trim (s : string) : string := trimEnd (trimStart s).

(** [l.split(',')[0]] *)
Definition firstField (l : string) : string :=
  default "" (head (splitOn COMMA l)).

(** Lines 361-362: the identifiers read from the text of the CSV file. *)
Definition parseSigs (content : string) : list string :=
  let lines := filter (λ l : string, l ≠ "") (trim <$> splitLines content) in
  filter (λ l : string, l ≠ "" ∧ String.prefix "#" l = false ∧
                        String.prefix "signature" l = false)
    (firstField <$> lines).

(** An entry of [signatureDetails]; a [null] block time is [None]. *)
Record SigDetail := {
  signature : string;
  dex_program : string;
  dex_name : string;
  block_time : option Z;
  slot : Z;
}.

(** An entry of what [getSignaturesForAddress] returns. *)
Record SigInfo := {
  si_signature : string;
  si_blockTime : option Z;
  si_slot : Z;
}.

(** [b.block_time || 0] *)
Definition timeKey (d : SigDetail) : Z := orZero (block_time d).

(** [signatures.sort((a, b) => (b.block_time || 0) - (a.block_time || 0))]:
    the sort is stable, so the result is that of inserting the entries one by
    one, each after the entries that are not older. *)
Fixpoint insertByTime (x : SigDetail) (sorted : list SigDetail) : list SigDetail :=
  match sorted with
  | [] => [x]
  | y :: rest =>
      if timeKey y <? timeKey x then x :: y :: rest
      else y :: insertByTime x rest
  end.

Definition sortByTimeDesc (l : list SigDetail) : list SigDetail :=
  foldl (λ acc x, insertByTime x acc) [] l.

(** [lines.join('\n')] *)
Definition joinLines (lines : list string) : string :=
  String.concat (String LF "") lines.

Definition OUTPUT_FILE : string := "data/signatures.csv".

(** Lines 118-123 of part_000: the signatures already in the file. *)
Definition existingSignatures (existingData : string) : list string :=
  firstField <$>
    filter (λ line : string, trim line ≠ "" ∧ String.prefix "signature" line = false)
      (splitOn LF existingData).

(** [saveSignaturesToCSV], lines 110-152 of part_000, on the file system. *)
Definition saveSignaturesToCSV (signatures : list SigDetail)
    (fs : gmap string string) : gmap string string :=
  let sorted := sortByTimeDesc signatures in
  match fs !! OUTPUT_FILE with
  | Some existingData =>
      let existing := existingSignatures existingData in
      let newSignatures := filter (λ d, signature d ∉ existing) sorted in
      match newSignatures with
      | [] => fs
      | _ :: _ =>
          <[OUTPUT_FILE := existingData +:+
                           joinLines (signature <$> newSignatures) +:+ String LF ""]> fs
      end
  | None =>
      <[OUTPUT_FILE := joinLines ("signature" :: (signature <$> sorted)) +:+
                       String LF ""]> fs
  end.

Definition DEX_PROGRAMS : list (string * string) :=
  [ ("RAYDIUM_AMM", "675kPX9MHTjS2zt1qfr1NYHuzeLXfQM9H24wFSUt1Mp8");
    ("RAYDIUM_CLMM", "CAMMCzo5YL8w4VFF8KVHrK22GGUsp5VTaW7grrKgrWqK");
    ("ORCA_WHIRLPOOL", "9W959DqEETiGZocYWCQPaJ6sBmUzgfxXfqGeTEdp3aQP");
    ("ORCA_V1", "DjVE6JNiYqPL2QXyCUUh8rNjHrbz9hXHNYt99MQ59qw1");
    ("JUPITER_V6", "JUP6LkbZbjS1jKKwapdHNy74zcZ3tLUZoi5QNyVTaV4");
    ("JUPITER_V4", "JUP4Fb2cqiRUcaTHdrPC8h2gNsA2ETXiPDD33WcGuJB");
    ("PHOENIX", "PhoeNiXZ8ByJGLkxNfZRnkUfjvmuYqLR89jjFHGqdXY");
    ("METEORA_DLMM", "Eo7WjKq67rjJQSZxS6z3YkapzY3eMj6Xy8X5EQVn5UaB");
    ("METEORA_POOLS", "LBUZKhRxPF3XUpBCjp4YzTKgLccjZhTSDM9YuVaPwxo") ].

(** [dexName.replace(/_/g, ' ')] *)
Definition spaced (s : string) : string :=
  mapChars (λ c, if Ascii.eqb c "_" then " "%char else c) s.

(** Lines 80-91 of part_000: one turn of the loop over the signatures of a
    program, on [allSignatures] and [signatureDetails]. *)
Definition addSignature (dexName programAddress : string)
    (st : list string * list SigDetail) (sg : SigInfo)
    : list string * list SigDetail :=
  if bool_decide (si_signature sg ∈ st.1) then st
  else (st.1 ++ [si_signature sg],
        st.2 ++ [ {| signature := si_signature sg;
                     dex_program := programAddress;
                     dex_name := spaced dexName;
                     block_time := si_blockTime sg;
                     slot := si_slot sg |} ]).

(** Lines 68-94 of part_000, with [fetched] what [fetchProgramSignatures]
    returns for a program address (the empty list when the request fails). *)
Definition collectSignatures (fetched : string → list SigInfo)
    (programs : list (string * string)) : list SigDetail :=
  (foldl (λ st p, foldl (addSignature p.1 p.2) st (fetched p.2))
     ([], []) programs).2.

(** [fetchSwapTransactions], lines 50-108 of part_000, on the file system;
    when the provider is not [connected] ([getVersion] throws) the process
    exits before anything is written. *)
Definition fetchSwapTransactions (connected : bool)
    (fetched : string → list SigInfo)
    (fs : gmap string string) : gmap string string :=
  if connected then saveSignaturesToCSV (collectSignatures fetched DEX_PROGRAMS) fs
  else fs.

(** An identifier that survives the trip through the CSV file: a non-empty
    text of printable ASCII characters other than the blank and the comma
    (as every base58 signature is), starting neither like the header line
    nor like a comment. *)
Definition plainChar (c : ascii) : bool :=
  let n := nat_of_ascii c in
  ((33 <=? n) && (n <=? 126))%nat && negb (Ascii.eqb c COMMA).

Definition cleanSig (s : string) : Prop :=
  s ≠ "" ∧ allChars plainChar s = true ∧
  String.prefix "signature" s = false ∧ String.prefix "#" s = false.

(** Two entries of a signature list, the older first. *)
Definition sigOld : SigDetail :=
  {| signature := "3xOld"; dex_program := "675kPX9MHTjS2zt1qfr1NYHuzeLXfQM9H24wFSUt1Mp8";
     dex_name := "RAYDIUM AMM"; block_time := Some 1700000000; slot := 10 |}.
Definition sigNew : SigDetail :=
  {| signature := "5yNew"; dex_program := "JUP6LkbZbjS1jKKwapdHNy74zcZ3tLUZoi5QNyVTaV4";
     dex_name := "JUPITER V6"; block_time := Some 1700000600; slot := 20 |}.

(** [a] is not older than [b]. *)
Definition notOlder (a b : SigDetail) : Prop := timeKey b ≤ timeKey a.

(** A text that is empty or ends with a line feed. *)
Definition lineTerminated (s : string) : Prop :=
  s = "" ∨ ∃ body, s = body +:+ String LF "".

(** What the provider returns in the example: two programs share a
    signature. *)
Definition fetchedExample (programAddress : string) : list SigInfo :=
  if String.eqb programAddress "675kPX9MHTjS2zt1qfr1NYHuzeLXfQM9H24wFSUt1Mp8"
  then [ {| si_signature := "3xOld"; si_blockTime := Some 1700000000; si_slot := 10 |};
         {| si_signature := "5yNew"; si_blockTime := Some 1700000600; si_slot := 20 |} ]
  else if String.eqb programAddress "JUP6LkbZbjS1jKKwapdHNy74zcZ3tLUZoi5QNyVTaV4"
  then [ {| si_signature := "5yNew"; si_blockTime := Some 1700000600; si_slot := 20 |} ]
  else [].

(** ** Keys as objects and keys as text *)

(** A response with every [PublicKey] replaced by its base58 text, which is
    how a key comes back from the JSON cache. *)
Definition textKey (k : Key) : Key := KeyStr (keyText k).

Definition textInstr (i : RawInstr) : RawInstr :=
  {| in_programId := textKey <$> in_programId i;
     in_program := in_program i;
     in_programIdIndex := in_programIdIndex i;
     in_parsed := in_parsed i;
     in_accounts := in_accounts i;
     in_data := in_data i |}.

Definition textMessage (m : Message) : Message :=
  {| instructions := (λ l : list RawInstr, textInstr <$> l) <$> instructions m;
     accountKeys := (λ l : list Key, textKey <$> l) <$> accountKeys m;
     header := header m |}.

Definition textTransaction (t : Transaction) : Transaction :=
  {| tx_message := textMessage <$> tx_message t;
     tx_instructions := (λ l : list RawInstr, textInstr <$> l) <$> tx_instructions t |}.

Definition keysAsText (raw : RawTransaction) : RawTransaction :=
  {| transaction := textTransaction <$> transaction raw;
     message := textMessage <$> message raw;
     own := textMessage (own raw) |}.

(** A [PublicKey] has a non-empty base58 text. *)
Definition properKey (k : Key) : Prop :=
  match k with
  | KeyObj b58 => b58 ≠ ""
  | KeyStr _ => True
  end.

(** The response of [message211] with its keys as [PublicKey] objects. *)
Definition liveMessage211 : Message :=
  {| instructions :=
       Some [ rawInstr (Some (KeyObj "Prog55555")) None None (Some [0; 1; 2; 3; 4]) ];
     accountKeys :=
       Some [ KeyObj "Payer1111"; KeyObj "Signer222"; KeyObj "Vault3333";
              KeyObj "Store4444"; KeyObj "Prog55555" ];
     header := Some header211 |}.

(** The program id under which an instruction of the response enters the
    canonical list of the earlier normalizer: only compute-budget
    instructions stay out. *)
Definition keptIdEarlier (keyList : list Key) (instr : RawInstr) : option string :=
  let pid := Alt.resolveProgramId keyList instr in
  if String.eqb pid COMPUTE_BUDGET_ID then None else Some pid.

(** ** The delay after a failed attempt, and the width of the sweep *)

(** Where an attempt enters the [catch] block of line 102: the message of
    the rejected request (the first one, or the second one after an empty
    answer to the first) and the world at that moment; [None] when no
    request of the attempt is rejected. *)
Definition caught (E : Env) (url sg : string) (w : World)
    : option (string * World) :=
  let rw := send true E url sg w in
  match rw.1 with
  | Rejected _ msg => Some (msg, rw.2)
  | Resolved _ (Some _) => None
  | Resolved _ None =>
      let rw := send false E url sg rw.2 in
      match rw.1 with
      | Rejected _ msg => Some (msg, rw.2)
      | Resolved _ _ => None
      end
  end.

(** An environment with a budget of twenty attempts whose requests are all
    rejected at once with the message [msg]. *)
Definition stubbornEnv (msg : string) : Env :=
  {| RPC_LIST := ["https://api.mainnet-beta.solana.com"];
     MAX_RETRIES := 20;
     CONCURRENCY := 5;
     BATCH_DELAY_MS := 0;
     START_FROM_SIG := None;
     getParsedTransaction := λ _ _ _, Rejected 0 msg;
     getTransaction := λ _ _ _, Rejected 0 msg;
     random := λ _ _, 0 |}.

(** An environment that resumes at [start] with windows of [width]
    identifiers. *)
Definition resumeEnv (width : Z) (start : string) : Env :=
  {| RPC_LIST := ["https://api.mainnet-beta.solana.com"];
     MAX_RETRIES := 5;
     CONCURRENCY := width;
     BATCH_DELAY_MS := 0;
     START_FROM_SIG := Some start;
     getParsedTransaction := λ _ _ _, Rejected 30000 "timeout";
     getTransaction := λ _ _ _, Rejected 30000 "timeout";
     random := λ _ _, 0 |}.

(** ** The canonical transaction, component by component

    What [decompileToTS] hands to the renderer, given as a function of the
    response with one expression per component instead of the loop and its
    three variables. *)

(** The account reference that a named field of the decoded [info] gives. *)
Definition namedRef (info : gmap string JValue) (f : string * bool * bool)
    : option AccountMeta :=
  match truthyField (info !! f.1.1) with
  | Some (JStr a) => Some {| pubkey := a; isSigner := f.1.2; isWritable := f.2 |}
  | _ => None
  end.

(** The account references of an instruction with their roles: by index
    into the key list under the counts of the header, or else by the named
    fields of the decoded [info]. *)
Definition accountRefsOf (m : Message) (keyList : list Key) (instr : RawInstr)
    : list AccountMeta :=
  match in_accounts instr with
  | Some accs => omap (refAt m keyList (numWritableOf m keyList)) accs
  | None =>
      match parsedInfo (in_parsed instr) with
      | Some info => omap (namedRef info) accountFields
      | None => []
      end
  end.

(** The canonical form of an instruction of the response: none for an
    instruction that is skipped or that belongs to the compute-budget
    program; otherwise its program id, description, account references and
    data, unless the description throws. *)
Definition canonicalInstruction (m : Message) (keyList : list Key)
    (instr : RawInstr) : option (Outcome Instruction) :=
  (λ pid, d <-! describe pid instr;
          Returned {| programId := pid; description := d;
                      keys := accountRefsOf m keyList instr;
                      data := dataOf instr |})
  <$> keptId keyList instr.

(** The results of a list of calls, or the error of the first that
    throws. *)
Fixpoint returnedAll {A} (l : list (Outcome A)) : Outcome (list A) :=
  match l with
  | [] => Returned []
  | o :: rest => a <-! o; r <-! returnedAll rest; Returned (a :: r)
  end.

(** The addresses that an instruction of the response brings in, in order:
    its program id and, unless it belongs to the compute-budget program,
    the addresses of its account references. *)
Definition addressesMet (m : Message) (keyList : list Key) (instr : RawInstr)
    : list string :=
  match resolveProgramId keyList instr with
  | Some pid =>
      pid :: (if String.eqb pid COMPUTE_BUDGET_ID then []
              else pubkey <$> accountRefsOf m keyList instr)
  | None => []
  end.

(** A list without its repetitions, each element where it first occurs. *)
Definition firstOccurrences (l : list string) : list string :=
  foldl (λ s a, setAdd a s) [] l.

(** The canonical transaction of a response. *)
Definition canonicalOf (sg : string) (raw : RawTransaction)
    : Outcome (option Canonical) :=
  let m := messageOf raw in
  let keyList := accountKeysOf raw in
  match instructionsOf raw with
  | [] => Returned None
  | instrs =>
      ds <-! returnedAll (omap (canonicalInstruction m keyList) instrs);
      Returned (Some
        {| kind := classify ds;
           params := {| sig := sg;
                        rp_instructions := ds;
                        accounts := firstOccurrences (instrs ≫= addressesMet m keyList);
                        computeBudget := last (omap (unitLimitOf keyList) instrs) |} |})
  end.

(** The file that goes with a fetched value: its path and its text. *)
Definition written (L : Library) (sg : string) (parsed : option RawTransaction)
    : option (string * string) :=
  match canonicalOf sg (default emptyRaw parsed) with
  | Returned (Some c) =>
      Some (outPath sg (kind c), renderCompleteTransactionTS L (params c))
  | _ => None
  end.

(** ** Properties of the normalizer *)

Lemma elem_of_setAdd (a x : string) (s : list string) :
  a ∈ setAdd x s ↔ a = x ∨ a ∈ s.
Proof.
  unfold setAdd. case_bool_decide as Hx.
  - split; [tauto | intros [-> | H]; done].
  - rewrite elem_of_app, list_elem_of_singleton. tauto.
Qed.

(** A loop whose turns either leave the pair alone or record one account in
    both components keeps the two in step. *)
Lemma foldl_keys_inv {X} (f : list string * list AccountMeta → X →
                              list string * list AccountMeta)
    (ua : list string) :
  (∀ st x, f st x = st ∨
           ∃ meta, f st x = (setAdd (pubkey meta) st.1, st.2 ++ [meta])) →
  ∀ xs st,
    (∀ a, a ∈ st.1 ↔ a ∈ ua ∨ a ∈ pubkey <$> st.2) →
    ∀ a, a ∈ (foldl f st xs).1 ↔ a ∈ ua ∨ a ∈ pubkey <$> (foldl f st xs).2.
Proof.
  intros Hf xs. induction xs as [|x xs IH]; intros st Hst; [exact Hst|].
  cbn [foldl]. apply IH. intros a.
  destruct (Hf st x) as [-> | [meta ->]]; [apply Hst|].
  cbn [fst snd]. rewrite elem_of_setAdd, fmap_app, elem_of_app, Hst.
  cbn. rewrite list_elem_of_singleton. tauto.
Qed.

Lemma indexedKey_turn m keyList st accIdx :
  indexedKey m keyList st accIdx = st ∨
  ∃ meta, indexedKey m keyList st accIdx
          = (setAdd (pubkey meta) st.1, st.2 ++ [meta]).
Proof.
  unfold indexedKey. destruct (keyAt keyList accIdx) as [pk|]; [|by left].
  right. by eexists {| pubkey := keyText pk |}.
Qed.

Lemma namedKey_turn info st f :
  namedKey info st f = st ∨
  ∃ meta, namedKey info st f = (setAdd (pubkey meta) st.1, st.2 ++ [meta]).
Proof.
  unfold namedKey. destruct (truthyField _) as [[| | |a|]|]; try by left.
  right. by eexists {| pubkey := a |}.
Qed.

Lemma keys_inv_start (ua : list string) (a : string) :
  a ∈ (ua, @nil AccountMeta).1 ↔ a ∈ ua ∨ a ∈ pubkey <$> (ua, @nil AccountMeta).2.
Proof. cbn. rewrite elem_of_nil. tauto. Qed.

Lemma collectKeys_accounts m keyList instr ua a :
  a ∈ (collectKeys m keyList instr ua).1 ↔
  a ∈ ua ∨ a ∈ pubkey <$> (collectKeys m keyList instr ua).2.
Proof.
  unfold collectKeys.
  destruct (in_accounts instr) as [accs|].
  - apply foldl_keys_inv; [apply indexedKey_turn | apply keys_inv_start].
  - destruct (parsedInfo _) as [info|].
    + apply foldl_keys_inv; [apply namedKey_turn | apply keys_inv_start].
    + apply keys_inv_start.
Qed.

Lemma addresses_snoc l i a :
  a ∈ addresses (l ++ [i]) ↔ a ∈ addresses l ∨ a ∈ addressesOf i.
Proof.
  unfold addresses. rewrite bind_app, elem_of_app. cbn.
  by rewrite app_nil_r.
Qed.

Lemma step_accountsInv m keyList st instr st' b :
  step m keyList st instr = Returned st' →
  accountsInv b st →
  accountsInv (b || isBudget keyList instr) st'.
Proof.
  unfold step, isBudget. intros Hstep Hinv a.
  destruct (resolveProgramId keyList instr) as [pid|] eqn:Hres.
  - destruct (String.eqb pid COMPUTE_BUDGET_ID) eqn:Hcb.
    + apply String.eqb_eq in Hcb. subst pid.
      injection Hstep as <-. cbn [uniqueAccounts detailedInstructions].
      rewrite bool_decide_eq_true_2 by done.
      rewrite orb_true_r, elem_of_setAdd, (Hinv a). tauto.
    + apply String.eqb_neq in Hcb.
      rewrite bool_decide_eq_false_2 by congruence.
      rewrite orb_false_r.
      destruct (describe pid instr) as [d|e]; [|done].
      cbn in Hstep. injection Hstep as <-.
      cbn [uniqueAccounts detailedInstructions].
      rewrite collectKeys_accounts, elem_of_setAdd, (Hinv a), addresses_snoc.
      unfold addressesOf. cbn [programId keys]. rewrite elem_of_cons. tauto.
  - injection Hstep as <-.
    rewrite bool_decide_eq_false_2 by done. rewrite orb_false_r. apply Hinv.
Qed.

Lemma loop_accountsInv m keyList instrs : ∀ st st' b,
  loop m keyList st instrs = Returned st' →
  accountsInv b st →
  accountsInv (b || existsb (isBudget keyList) instrs) st'.
Proof.
  induction instrs as [|instr rest IH]; intros st st' b Hloop Hinv.
  - injection Hloop as <-. cbn. by rewrite orb_false_r.
  - cbn in Hloop. destruct (step m keyList st instr) as [st1|] eqn:Hstep; [|done].
    cbn in Hloop. cbn [existsb]. rewrite orb_assoc.
    eapply IH; [exact Hloop|]. by eapply step_accountsInv.
Qed.

(** What [normalize] returns, in terms of the loop. *)
Lemma normalize_Some sg parsed c :
  normalize sg parsed = Returned (Some c) →
  instructionsOf parsed ≠ [] ∧
  ∃ st, loop (messageOf parsed) (accountKeysOf parsed) initialState
          (instructionsOf parsed) = Returned st ∧
        c = {| kind := classify (detailedInstructions st);
               params := {| sig := sg;
                            rp_instructions := detailedInstructions st;
                            accounts := uniqueAccounts st;
                            computeBudget := ls_computeBudget st |} |}.
Proof.
  unfold normalize. destruct (instructionsOf parsed) as [|i l] eqn:Hi; [done|].
  intros H. split; [done|].
  destruct (loop _ _ _ _) as [st|]; [|done].
  cbn in H. injection H as <-. by exists st.
Qed.

Lemma normalize_None sg parsed :
  normalize sg parsed = Returned None ↔ instructionsOf parsed = [].
Proof.
  unfold normalize. destruct (instructionsOf parsed) as [|i l]; [done|].
  split; [|done]. by destruct (loop _ _ _ _).
Qed.

(** The program ids of the canonical list are those of the instructions of
    the response that resolve, the compute-budget ones left out, in order. *)
Lemma step_programIds m keyList st instr st' :
  step m keyList st instr = Returned st' →
  programId <$> detailedInstructions st'
  = (programId <$> detailedInstructions st) ++ option_list (keptId keyList instr).
Proof.
  unfold step, keptId. intros Hstep.
  destruct (resolveProgramId keyList instr) as [pid|].
  - destruct (String.eqb pid COMPUTE_BUDGET_ID).
    + injection Hstep as <-. cbn. by rewrite app_nil_r.
    + destruct (describe pid instr) as [d|]; [|done].
      cbn in Hstep. injection Hstep as <-. cbn. by rewrite fmap_app.
  - injection Hstep as <-. cbn. by rewrite app_nil_r.
Qed.

Lemma loop_programIds m keyList instrs : ∀ st st',
  loop m keyList st instrs = Returned st' →
  programId <$> detailedInstructions st'
  = (programId <$> detailedInstructions st) ++ omap (keptId keyList) instrs.
Proof.
  induction instrs as [|instr rest IH]; intros st st' Hloop.
  - injection Hloop as <-. cbn. by rewrite app_nil_r.
  - cbn in Hloop. destruct (step m keyList st instr) as [st1|] eqn:Hstep; [|done].
    cbn in Hloop. rewrite (IH _ _ Hloop), (step_programIds _ _ _ _ _ Hstep).
    rewrite <- app_assoc. f_equal.
    destruct (keptId keyList instr) eqn:Hk; cbn; rewrite Hk; reflexivity.
Qed.

Lemma omap_nil_iff {A B} (f : A → option B) (l : list A) :
  omap f l = [] ↔ ∀ x, x ∈ l → f x = None.
Proof.
  induction l as [|x l IH]; cbn.
  - split; [intros _ y Hy; by apply elem_of_nil in Hy | done].
  - destruct (f x) eqn:Hx.
    + split; [done|]. intros H. specialize (H x (list_elem_of_here _ _)). congruence.
    + rewrite IH. split.
      * intros H y [->|Hy]%elem_of_cons; auto.
      * intros H y Hy. apply H. by apply list_elem_of_further.
Qed.

(** The classifier stays within its tags. *)
Lemma classify_inVocabulary (l : list Instruction) : inVocabulary (classify l).
Proof.
  destruct l as [|i [|j l]].
  - left. cbn. set_unfold. tauto.
  - left. cbn. repeat case_match; set_unfold; tauto.
  - right. exists (length (i :: j :: l)). split; [cbn; lia | done].
Qed.

Lemma not_inSpecVocabulary_spl_token : ¬ inSpecVocabulary "spl-token".
Proof.
  intros [H | [n H]].
  - set_unfold. intuition discriminate.
  - discriminate H.
Qed.

Lemma existsb_isBudget keyList (l : list RawInstr) :
  existsb (isBudget keyList) l = true ↔
  ∃ instr, instr ∈ l ∧ resolveProgramId keyList instr = Some COMPUTE_BUDGET_ID.
Proof.
  rewrite existsb_exists. unfold isBudget.
  split; intros [instr [Hin H]]; exists instr.
  - apply list_elem_of_In in Hin. apply bool_decide_eq_true in H. by split.
  - apply list_elem_of_In in Hin. split; [done|]. by apply bool_decide_eq_true.
Qed.

Lemma accountsInv_initial : accountsInv false initialState.
Proof. intros a. cbn. rewrite elem_of_nil. intuition discriminate. Qed.

(** In the raw encoding the account references of an instruction are those
    of its indices that have a key, each a signer below [numSigners] and
    writable below [numWritable]. *)
Lemma indexedKeys_refs m keyList accs : ∀ st,
  (foldl (indexedKey m keyList) st accs).2
  = st.2 ++ omap (refAt m keyList (numWritableOf m keyList)) accs.
Proof.
  induction accs as [|i accs IH]; intros st; cbn [foldl].
  - cbn. by rewrite app_nil_r.
  - rewrite IH. unfold indexedKey, refAt. cbn.
    destruct (keyAt keyList i) as [pk|]; cbn; [|done].
    by rewrite <- app_assoc.
Qed.

Lemma collectKeys_indexed m keyList instr ua accs :
  in_accounts instr = Some accs →
  (collectKeys m keyList instr ua).2
  = omap (refAt m keyList (numWritableOf m keyList)) accs.
Proof. intros H. unfold collectKeys. rewrite H. apply indexedKeys_refs. Qed.

(** C1 (as the code computes it): under the header (2, 1, 1) over five keys
    the normalizer marks indices 0 and 1 as signers, and marks as writable
    the indices below 5 - 1 - 1 = 3, that is 0, 1 and 2; the two trailing
    read-only ranges of the header leave 0, 2 and 3 writable. *)
Theorem roles_under_header_2_1_1 :
  ∃ c i,
    normalize "tx" (rawOf message211) = Returned (Some c) ∧
    rp_instructions (params c) = [i] ∧
    pubkey <$> keys i = keyText <$> fiveKeys ∧
    isSigner <$> keys i = [true; true; false; false; false] ∧
    isWritable <$> keys i = [true; true; true; false; false] ∧
    specIsWritable message211 fiveKeys <$> [0; 1; 2; 3; 4]
    = [true; false; true; true; false].
Proof.
  do 2 eexists. split; [vm_compute; reflexivity|].
  split; [reflexivity|]. repeat split.
Qed.

(** C2 (counterexample): for a compute-budget directive followed by a system
    transfer, the compute-budget program id is in [uniqueAccounts] although
    no canonical instruction mentions it. *)
Lemma accounts_keep_the_budget_program :
  ∃ c, normalize "tx" budgetAndTransfer = Returned (Some c) ∧
       COMPUTE_BUDGET_ID ∈ accounts (params c) ∧
       COMPUTE_BUDGET_ID ∉ addresses (rp_instructions (params c)).
Proof.
  eexists. split; [vm_compute; reflexivity|]. split.
  - apply list_elem_of_here.
  - intros H. apply list_elem_of_In in H. cbn in H. intuition discriminate.
Qed.

(** C2 (amended): when normalization succeeds, [uniqueAccounts] holds exactly
    the addresses that appear as a program id or as an account of a canonical
    instruction, and in addition the compute-budget program id when an
    instruction of the response resolves to it. *)
Theorem accounts_are_addresses_and_budget sg raw c :
  normalize sg raw = Returned (Some c) →
  ∀ a, a ∈ accounts (params c) ↔
       a ∈ addresses (rp_instructions (params c)) ∨
       (a = COMPUTE_BUDGET_ID ∧
        ∃ instr, instr ∈ instructionsOf raw ∧
                 resolveProgramId (accountKeysOf raw) instr = Some COMPUTE_BUDGET_ID).
Proof.
  intros [_ [st [Hloop ->]]]%normalize_Some a. cbn.
  pose proof (loop_accountsInv _ _ _ _ _ false Hloop accountsInv_initial a) as H.
  rewrite H. cbn [orb]. rewrite existsb_isBudget. tauto.
Qed.

Lemma accounts_are_addresses_and_budget_witness :
  ∃ c, normalize "tx" budgetAndTransfer = Returned (Some c) ∧
       ∀ a, a ∈ accounts (params c) ↔
            a ∈ addresses (rp_instructions (params c)) ∨
            (a = COMPUTE_BUDGET_ID ∧
             ∃ instr, instr ∈ instructionsOf budgetAndTransfer ∧
                      resolveProgramId (accountKeysOf budgetAndTransfer) instr
                      = Some COMPUTE_BUDGET_ID).
Proof.
  eexists. split; [vm_compute; reflexivity|].
  apply (accounts_are_addresses_and_budget "tx" budgetAndTransfer).
  vm_compute. reflexivity.
Defined.

(** C3 (counterexample): a response whose only instruction is a
    compute-budget directive is normalized to a canonical transaction with an
    empty instruction list, classified [complex]. *)
Lemma budget_only_has_no_instruction :
  ∃ c, normalize "tx" budgetOnly = Returned (Some c) ∧
       rp_instructions (params c) = [] ∧
       kind c = "complex".
Proof. eexists. split; [vm_compute; reflexivity|]. split; reflexivity. Qed.

(** C3 (amended): [normalize] returns [null] exactly when the response has no
    instruction.  When it returns a canonical transaction, the program ids of
    its instructions are those of the instructions of the response that
    resolve to a program other than compute-budget; the list is empty exactly
    when there is none, and the classification is then [complex]. *)
Theorem null_iff_no_instructions sg raw :
  (normalize sg raw = Returned None ↔ instructionsOf raw = []) ∧
  ∀ c, normalize sg raw = Returned (Some c) →
       instructionsOf raw ≠ [] ∧
       programId <$> rp_instructions (params c)
       = omap (keptId (accountKeysOf raw)) (instructionsOf raw) ∧
       (rp_instructions (params c) = [] ↔
        ∀ instr, instr ∈ instructionsOf raw →
                 keptId (accountKeysOf raw) instr = None) ∧
       (rp_instructions (params c) = [] → kind c = "complex").
Proof.
  split; [apply normalize_None|].
  intros c [Hne [st [Hloop ->]]]%normalize_Some. cbn.
  pose proof (loop_programIds _ _ _ _ _ Hloop) as Hids. cbn in Hids.
  repeat split; try done.
  - intros Hnil. apply omap_nil_iff. by rewrite <- Hids, Hnil.
  - intros Hall. apply omap_nil_iff in Hall. rewrite Hall in Hids.
    by apply fmap_nil_inv in Hids.
  - by intros ->.
Qed.

Lemma null_iff_no_instructions_witness :
  ∃ c, normalize "tx" budgetOnly = Returned (Some c) ∧
       instructionsOf budgetOnly ≠ [] ∧
       programId <$> rp_instructions (params c) = [] ∧
       kind c = "complex".
Proof.
  eexists. split; [vm_compute; reflexivity|].
  destruct (proj2 (null_iff_no_instructions "tx" budgetOnly) _ eq_refl)
    as (Hne & Hids & _ & Hkind).
  split; [exact Hne|]. split; [exact Hids|]. apply Hkind. reflexivity.
Defined.

(** C4 (counterexample): an instruction that carries only the provider's
    program label is not skipped, as the fifth strategy of the specification
    would have it: the label becomes its program id and the instruction
    enters the canonical list. *)
Lemma label_resolves_after_index :
  firstMatch (specStrategies []) labelledInstr = None ∧
  resolveProgramId [] labelledInstr = Some "spl-memo" ∧
  ∃ c, normalize "tx" (rawOf (messageOfInstrs [labelledInstr])) = Returned (Some c) ∧
       programId <$> rp_instructions (params c) = ["spl-memo"].
Proof.
  split; [reflexivity|]. split; [reflexivity|].
  eexists. split; [vm_compute; reflexivity|]. reflexivity.
Qed.

(** C4 (amended): the program id of an instruction is the first result of
    the chain: structured program key, string program id, system literal on
    the provider's marker, account key at the embedded index, provider's
    program label; an instruction is skipped only when all five fail, and
    the loop then goes on with the next one.  A non-empty string program id
    wins over an account-key index. *)
Theorem program_id_resolution keyList instr :
  resolveProgramId keyList instr = firstMatch (codeStrategies keyList) instr ∧
  (∀ s i, in_programId instr = Some (KeyStr s) → s ≠ "" →
          in_programIdIndex instr = Some i →
          resolveProgramId keyList instr = Some s) ∧
  (resolveProgramId keyList instr = None →
   ∀ m st rest, loop m keyList st (instr :: rest) = loop m keyList st rest).
Proof.
  split; [|split].
  - unfold resolveProgramId, codeStrategies, specStrategies. cbn.
    repeat case_match; congruence.
  - intros s i Hid Hs _. unfold resolveProgramId, byToBase58, byToString.
    rewrite Hid. cbn. apply String.eqb_neq in Hs. by rewrite Hs.
  - intros Hnone m st rest. cbn. unfold step. by rewrite Hnone.
Qed.

Lemma program_id_resolution_witness :
  resolveProgramId [KeyStr "KeyAtZero"] taggedAndIndexed = Some "TagProg11" ∧
  ∀ m st rest, loop m [] st (bareInstr :: rest) = loop m [] st rest.
Proof.
  split.
  - apply (proj1 (proj2 (program_id_resolution [KeyStr "KeyAtZero"] taggedAndIndexed))
             "TagProg11" 0); [reflexivity | discriminate | reflexivity].
  - apply (proj2 (proj2 (program_id_resolution [] bareInstr))). reflexivity.
Defined.

(** C5 (counterexample): a single instruction of the SPL token program is
    tagged [spl-token], which is none of [system], [token], [memo],
    [program], [multi-N], [complex], [unrecognized]. *)
Lemma token_tag_is_spl_token :
  ∃ c, normalize "tx" (rawOf (messageOfInstrs [tokenInstr])) = Returned (Some c) ∧
       kind c = "spl-token" ∧
       ¬ inSpecVocabulary (kind c).
Proof.
  eexists. split; [vm_compute; reflexivity|]. split; [reflexivity|].
  apply not_inSpecVocabulary_spl_token.
Qed.

(** C5 (amended): the classification is the classifier's value on the
    canonical instruction list and is one of [system], [spl-token], [memo],
    [program], [complex] or [multi-N] with N at least 2; a single instruction
    of the SPL token program is tagged [spl-token]. *)
Theorem classification_vocabulary sg raw c :
  normalize sg raw = Returned (Some c) →
  kind c = classify (rp_instructions (params c)) ∧
  inVocabulary (kind c) ∧
  (∀ i, rp_instructions (params c) = [i] → programId i = TOKEN_PROGRAM_ID →
        kind c = "spl-token").
Proof.
  intros [_ [st [_ ->]]]%normalize_Some. cbn.
  split; [done|]. split; [apply classify_inVocabulary|].
  intros i -> Hpid. cbn. by rewrite Hpid.
Qed.

Lemma classification_vocabulary_witness :
  ∃ c, normalize "tx" (rawOf (messageOfInstrs [tokenInstr])) = Returned (Some c) ∧
       inVocabulary (kind c) ∧ kind c = "spl-token".
Proof.
  eexists. split; [vm_compute; reflexivity|].
  destruct (classification_vocabulary "tx" (rawOf (messageOfInstrs [tokenInstr])) _ eq_refl)
    as (_ & Hvoc & Htok).
  split; [exact Hvoc|]. by eapply Htok.
Defined.

(** ** The two normalizers compared *)

Lemma Alt_resolveProgramId_resolved keyList instr pid :
  resolveProgramId keyList instr = Some pid →
  Alt.resolveProgramId keyList instr = pid.
Proof.
  unfold resolveProgramId, Alt.resolveProgramId, byProgramName.
  repeat case_match; cbn; congruence.
Qed.

Lemma Alt_describe_eq pid instr :
  includes "Memo" pid = isMemo pid →
  Alt.describe pid instr = describe pid instr.
Proof. unfold Alt.describe, describe. by intros ->. Qed.

Lemma Alt_indexedKeys_eq m keyList accs : ∀ st,
  (∀ i, i ∈ accs → is_Some (keyAt keyList i) →
        (i <? numWritableOf m keyList) = (i <? Alt.numWritableOf m keyList)) →
  foldl (Alt.indexedKey m keyList) st accs = foldl (indexedKey m keyList) st accs.
Proof.
  induction accs as [|i accs IH]; intros st H; [done|].
  cbn [foldl].
  assert (Alt.indexedKey m keyList st i = indexedKey m keyList st i) as ->.
  { unfold Alt.indexedKey, indexedKey.
    destruct (keyAt keyList i) as [pk|] eqn:Hk; [|done].
    rewrite <- (H i); [done | apply list_elem_of_here | by rewrite Hk]. }
  apply IH. intros j Hj. apply H. by apply list_elem_of_further.
Qed.

Lemma Alt_collectKeys_eq m keyList instr ua :
  (∀ accs i, in_accounts instr = Some accs → i ∈ accs →
             is_Some (keyAt keyList i) →
             (i <? numWritableOf m keyList) = (i <? Alt.numWritableOf m keyList)) →
  Alt.collectKeys m keyList instr ua = collectKeys m keyList instr ua.
Proof.
  intros H. unfold Alt.collectKeys, collectKeys.
  destruct (in_accounts instr) as [accs|]; [|done].
  apply Alt_indexedKeys_eq. intros i. by apply H.
Qed.

Lemma Alt_step_eq m keyList st instr :
  variantsAgreeOn m keyList instr →
  Alt.step m keyList st instr = step m keyList st instr.
Proof.
  intros ([pid Hres] & Hmemo & Hacc). unfold Alt.step, step.
  rewrite (Alt_resolveProgramId_resolved _ _ _ Hres), Hres.
  rewrite (Alt_describe_eq pid instr (Hmemo pid Hres)).
  by rewrite (Alt_collectKeys_eq _ _ _ _ Hacc).
Qed.

Lemma Alt_loop_eq m keyList instrs : ∀ st,
  (∀ instr, instr ∈ instrs → variantsAgreeOn m keyList instr) →
  Alt.loop m keyList st instrs = loop m keyList st instrs.
Proof.
  induction instrs as [|instr rest IH]; intros st H; [done|].
  cbn. rewrite Alt_step_eq by (apply H, list_elem_of_here).
  destruct (step m keyList st instr) as [st1|]; [|done].
  cbn. apply IH. intros j Hj. apply H. by apply list_elem_of_further.
Qed.

Lemma Alt_classify_eq (l : list Instruction) :
  (∀ i, i ∈ l → includes "Memo" (programId i) = isMemo (programId i)) →
  Alt.classify l = classify l.
Proof.
  intros H. destruct l as [|i [|j l]]; [done| |done].
  cbn. by rewrite (H i (list_elem_of_here _ _)).
Qed.

(** The program id of a canonical instruction is the one the chain gave to
    an instruction of the response. *)
Lemma loop_programId_origin m keyList instrs st i :
  loop m keyList initialState instrs = Returned st →
  i ∈ detailedInstructions st →
  ∃ instr, instr ∈ instrs ∧ resolveProgramId keyList instr = Some (programId i).
Proof.
  intros Hloop Hi. apply loop_programIds in Hloop. cbn in Hloop.
  assert (programId i ∈ omap (keptId keyList) instrs) as Hin.
  { rewrite <- Hloop. by apply list_elem_of_fmap_2. }
  apply list_elem_of_omap in Hin as [instr [Hinstr Hk]].
  exists instr. split; [done|]. unfold keptId in Hk.
  destruct (resolveProgramId keyList instr) as [pid|]; [|done].
  destruct (String.eqb pid COMPUTE_BUDGET_ID); congruence.
Qed.

(** C10 (counterexample): on the response with header (2, 1, 1) over five
    keys the source marks accounts 0 to 2 writable, the earlier variant all
    five; and the earlier variant keeps an instruction that the source
    skips, under the program id [unknown]. *)
Lemma variants_differ :
  (∃ c c' i i',
     normalize "tx" (rawOf message211) = Returned (Some c) ∧
     Alt.normalize "tx" (rawOf message211) = Returned (Some c') ∧
     rp_instructions (params c) = [i] ∧
     rp_instructions (params c') = [i'] ∧
     isWritable <$> keys i = [true; true; true; false; false] ∧
     isWritable <$> keys i' = [true; true; true; true; true]) ∧
  (∃ c c',
     normalize "tx" (rawOf (messageOfInstrs [bareInstr])) = Returned (Some c) ∧
     Alt.normalize "tx" (rawOf (messageOfInstrs [bareInstr])) = Returned (Some c') ∧
     programId <$> rp_instructions (params c) = [] ∧
     programId <$> rp_instructions (params c') = ["unknown"]).
Proof.
  split.
  - do 4 eexists. split; [vm_compute; reflexivity|].
    split; [vm_compute; reflexivity|]. repeat split.
  - do 2 eexists. split; [vm_compute; reflexivity|].
    split; [vm_compute; reflexivity|]. split; reflexivity.
Qed.

(** C10 (amended): the two normalizers return the same canonical
    transaction for every response each of whose instructions has a program
    id that the chain of the source resolves and that contains ["Memo"] only
    if it is one of the two memo programs, and refers by index only to
    accounts that the two [isWritable] thresholds, [numWritable] and
    [numRequiredSignatures + numWritable], class alike. *)
Theorem variants_agree sg raw :
  (∀ instr, instr ∈ instructionsOf raw →
            variantsAgreeOn (messageOf raw) (accountKeysOf raw) instr) →
  Alt.normalize sg raw = normalize sg raw.
Proof.
  intros H. unfold Alt.normalize, normalize.
  destruct (instructionsOf raw) as [|instr0 rest] eqn:Hinstrs; [done|].
  rewrite Alt_loop_eq by done.
  destruct (loop _ _ _ _) as [st|] eqn:Hloop; [|done].
  cbn. rewrite Alt_classify_eq; [done|].
  intros i Hi.
  destruct (loop_programId_origin _ _ _ _ _ Hloop Hi) as [instr [Hin Hres]].
  destruct (H instr Hin) as (_ & Hmemo & _). by apply Hmemo.
Qed.

Lemma variants_agree_witness :
  Alt.normalize "tx" (rawOf message211low) = normalize "tx" (rawOf message211low).
Proof.
  apply variants_agree. intros instr Hin.
  apply list_elem_of_singleton in Hin. subst instr. split; [|split].
  - by eexists.
  - intros pid Hpid. injection Hpid as <-. reflexivity.
  - intros accs i Haccs Hi _. injection Haccs as <-.
    repeat (apply elem_of_cons in Hi as [-> | Hi]; [reflexivity|]).
    by apply elem_of_nil in Hi.
Defined.

(** ** The loop of the normalizer in closed form *)

Lemma step_budget m keyList st instr st' :
  step m keyList st instr = Returned st' →
  ls_computeBudget st'
  = match unitLimitOf keyList instr with
    | Some v => Some v
    | None => ls_computeBudget st
    end.
Proof.
  unfold step, unitLimitOf, isBudget. intros Hstep.
  destruct (resolveProgramId keyList instr) as [pid|].
  - destruct (String.eqb pid COMPUTE_BUDGET_ID) eqn:Hcb.
    + apply String.eqb_eq in Hcb. subst pid. injection Hstep as <-. cbn.
      rewrite bool_decide_eq_true_2 by done. unfold budgetOf.
      by case_bool_decide.
    + apply String.eqb_neq in Hcb.
      rewrite bool_decide_eq_false_2 by congruence.
      destruct (describe pid instr) as [d|]; [|done].
      cbn in Hstep. by injection Hstep as <-.
  - injection Hstep as <-. by rewrite bool_decide_eq_false_2 by done.
Qed.

Lemma loop_budget m keyList instrs : ∀ st st',
  loop m keyList st instrs = Returned st' →
  ls_computeBudget st'
  = match last (omap (unitLimitOf keyList) instrs) with
    | Some v => Some v
    | None => ls_computeBudget st
    end.
Proof.
  induction instrs as [|instr rest IH]; intros st st' Hloop.
  - by injection Hloop as <-.
  - cbn in Hloop. destruct (step m keyList st instr) as [st1|] eqn:Hstep; [|done].
    cbn in Hloop. rewrite (IH _ _ Hloop), (step_budget _ _ _ _ _ Hstep).
    cbn [omap list_omap]. destruct (unitLimitOf keyList instr) as [v|]; [|done].
    change (omap (unitLimitOf keyList) rest) with
      (list_omap _ _ (unitLimitOf keyList) rest).
    destruct (list_omap _ _ (unitLimitOf keyList) rest) as [|v' l] eqn:Hrest; [done|].
    rewrite last_cons_cons. destruct (last (v' :: l)) eqn:Hl; [done|].
    by apply last_None in Hl.
Qed.

Lemma indexedKey_refAt m keyList st i :
  indexedKey m keyList st i
  = match refAt m keyList (numWritableOf m keyList) i with
    | Some meta => (setAdd (pubkey meta) st.1, st.2 ++ [meta])
    | None => st
    end.
Proof. unfold indexedKey, refAt. by destruct (keyAt keyList i). Qed.

Lemma namedKey_namedRef info st f :
  namedKey info st f
  = match namedRef info f with
    | Some meta => (setAdd (pubkey meta) st.1, st.2 ++ [meta])
    | None => st
    end.
Proof.
  unfold namedKey, namedRef.
  by destruct (truthyField (info !! f.1.1)) as [[| | |a|]|].
Qed.

(** A loop that adds one reference per turn, or none. *)
Lemma refs_closed {X} (f : list string * list AccountMeta → X →
                           list string * list AccountMeta)
    (ref : X → option AccountMeta) :
  (∀ st x, f st x = match ref x with
                    | Some meta => (setAdd (pubkey meta) st.1, st.2 ++ [meta])
                    | None => st
                    end) →
  ∀ xs st,
    foldl f st xs
    = (foldl (λ s a, setAdd a s) st.1 (pubkey <$> omap ref xs),
       st.2 ++ omap ref xs).
Proof.
  intros Hf. induction xs as [|x xs IH]; intros [ua ks]; cbn [foldl].
  - cbn. by rewrite app_nil_r.
  - rewrite IH, Hf. cbn [omap list_omap].
    destruct (ref x) as [meta|]; cbn; [|done].
    by rewrite <- app_assoc.
Qed.

(** The references of an instruction do not depend on the accounts met so
    far, and the accounts grow by the addresses of the references. *)
Lemma collectKeys_closed m keyList instr ua :
  collectKeys m keyList instr ua
  = (foldl (λ s a, setAdd a s) ua (pubkey <$> accountRefsOf m keyList instr),
     accountRefsOf m keyList instr).
Proof.
  unfold collectKeys, accountRefsOf.
  destruct (in_accounts instr) as [accs|].
  - by rewrite (refs_closed _ _ (indexedKey_refAt m keyList)).
  - destruct (parsedInfo (in_parsed instr)) as [info|]; [|done].
    by rewrite (refs_closed _ _ (namedKey_namedRef info)).
Qed.

Lemma step_closed m keyList st instr :
  match canonicalInstruction m keyList instr with
  | Some (Thrown e) => step m keyList st instr = Thrown e
  | Some (Returned i) =>
      ∃ st', step m keyList st instr = Returned st' ∧
             uniqueAccounts st'
             = foldl (λ s a, setAdd a s) (uniqueAccounts st)
                 (addressesMet m keyList instr) ∧
             detailedInstructions st' = detailedInstructions st ++ [i]
  | None =>
      ∃ st', step m keyList st instr = Returned st' ∧
             uniqueAccounts st'
             = foldl (λ s a, setAdd a s) (uniqueAccounts st)
                 (addressesMet m keyList instr) ∧
             detailedInstructions st' = detailedInstructions st
  end.
Proof.
  unfold canonicalInstruction, keptId, step, addressesMet.
  destruct (resolveProgramId keyList instr) as [pid|]; cbn.
  - destruct (String.eqb pid COMPUTE_BUDGET_ID); cbn.
    + eexists. split; [done|]. by split.
    + destruct (describe pid instr) as [d|e]; cbn; [|done].
      eexists. split; [done|]. cbn. rewrite collectKeys_closed. by split.
  - exists st. by split.
Qed.

Lemma loop_closed m keyList instrs : ∀ st,
  match returnedAll (omap (canonicalInstruction m keyList) instrs) with
  | Returned ds =>
      ∃ st', loop m keyList st instrs = Returned st' ∧
             uniqueAccounts st'
             = foldl (λ s a, setAdd a s) (uniqueAccounts st)
                 (instrs ≫= addressesMet m keyList) ∧
             detailedInstructions st' = detailedInstructions st ++ ds
  | Thrown e => loop m keyList st instrs = Thrown e
  end.
Proof.
  induction instrs as [|instr rest IH]; intros st.
  - cbn. exists st. split; [done|]. split; [done|]. by rewrite app_nil_r.
  - pose proof (step_closed m keyList st instr) as Hstep.
    cbn [omap list_omap loop mbind list_bind].
    destruct (canonicalInstruction m keyList instr) as [[i|e]|].
    + destruct Hstep as (st1 & Hs & Hua & Hd). rewrite Hs.
      cbn [returnedAll bindO]. specialize (IH st1).
      change (list_omap _ _ (canonicalInstruction m keyList) rest)
        with (omap (canonicalInstruction m keyList) rest).
      destruct (returnedAll (omap (canonicalInstruction m keyList) rest)) as [ds|e];
        cbn [bindO]; [|done].
      destruct IH as (st' & Hl & Hua' & Hd'). exists st'. split; [done|].
      rewrite Hua', Hd', Hua, Hd, foldl_app, <- app_assoc. done.
    + by rewrite Hstep.
    + destruct Hstep as (st1 & Hs & Hua & Hd). rewrite Hs.
      cbn [bindO]. specialize (IH st1).
      change (list_omap _ _ (canonicalInstruction m keyList) rest)
        with (omap (canonicalInstruction m keyList) rest).
      destruct (returnedAll (omap (canonicalInstruction m keyList) rest)) as [ds|e];
        [|done].
      destruct IH as (st' & Hl & Hua' & Hd'). exists st'. split; [done|].
      rewrite Hua', Hd', Hua, Hd, foldl_app. done.
Qed.

(** The normalizer computes the canonical transaction of the response: the
    instructions kept, each with its description and its account roles;
    the accounts met, each once; and the last unit limit set. *)
Lemma normalize_closed sg raw : normalize sg raw = canonicalOf sg raw.
Proof.
  unfold normalize, canonicalOf.
  destruct (instructionsOf raw) as [|i l] eqn:Hi; [done|].
  pose proof (loop_closed (messageOf raw) (accountKeysOf raw) (i :: l) initialState)
    as Hloop.
  destruct (returnedAll _) as [ds|e]; [|by rewrite Hloop].
  destruct Hloop as (st' & Hl & Hua & Hd). rewrite Hl. cbn [bindO].
  rewrite (loop_budget _ _ _ _ _ Hl), Hua, Hd. cbn [initialState ls_computeBudget
    uniqueAccounts detailedInstructions app].
  unfold firstOccurrences. by destruct (last _).
Qed.

(** ** Properties of the fetch client and of the orchestrator *)

Lemma pow2_lt_pow3 (n : Z) : 1 ≤ n → 2 ^ n < 3 ^ n.
Proof. intros H. apply Z.pow_lt_mono_l; lia. Qed.

Lemma backoff_steeper (n : Z) : 1 ≤ n → backoffMs false n < backoffMs true n.
Proof.
  intros H. unfold backoffMs, BASE_BACKOFF_MS.
  pose proof (pow2_lt_pow3 n H). lia.
Qed.

Lemma slice_from {A} (l : list A) (i : nat) :
  slice l (Z.of_nat i) (Z.of_nat (length l)) = drop i l.
Proof.
  unfold slice.
  rewrite (proj2 (Z.ltb_ge _ _)) by lia.
  rewrite (proj2 (Z.ltb_ge _ _)) by lia.
  destruct (decide (i ≤ length l)%nat) as [Hle|Hgt].
  - rewrite Z.min_id, Z.min_l by lia. rewrite Nat2Z.id.
    apply take_ge. rewrite length_drop. lia.
  - rewrite Z.min_id, Z.min_r by lia. rewrite Z.sub_diag. cbn.
    symmetry. apply drop_ge. lia.
Qed.

(** A window and what follows it make up what was left. *)
Lemma slice_window {A} (l : list A) (i c : Z) :
  0 ≤ i → 1 ≤ c →
  slice l i (i + c) ++ drop (Z.to_nat (i + c)) l = drop (Z.to_nat i) l.
Proof.
  intros Hi Hc. unfold slice.
  rewrite (proj2 (Z.ltb_ge _ _)) by lia.
  rewrite (proj2 (Z.ltb_ge _ _)) by lia.
  set (len := Z.of_nat (length l)).
  destruct (decide (i ≤ len)) as [Hle|Hgt].
  - rewrite (Z.min_l i) by lia.
    destruct (decide (i + c ≤ len)) as [Hle2|Hgt2].
    + rewrite Z.min_l by lia.
      replace (Z.to_nat (i + c)) with (Z.to_nat i + Z.to_nat (i + c - i))%nat by lia.
      rewrite <- drop_drop. apply take_drop.
    + rewrite Z.min_r by lia.
      rewrite (drop_ge l (Z.to_nat (i + c))) by (subst len; lia).
      rewrite app_nil_r. apply take_ge. rewrite length_drop. subst len. lia.
  - rewrite !Z.min_r by lia. rewrite Z.sub_diag. cbn.
    rewrite !drop_ge by (subst len; lia). done.
Qed.

Section PipelineProperties.

Context (L : Library).

Local Abbreviation fetchTx := (fetchParsedTx L).
Local Abbreviation fetchTurns := (fetchLoop L).
Local Abbreviation attemptOnce := (tryOnce L).
Local Abbreviation process := (processSig L).
Local Abbreviation sweep := (runLoop L).

(** *** What each step leaves alone *)

Lemma nextRpc_keeps E w :
  warnings (nextRpc E w).2 = warnings w ∧
  processed (nextRpc E w).2 = processed w ∧
  files (nextRpc E w).2 = files w.
Proof. unfold nextRpc. cbn. repeat case_match; done. Qed.

Lemma tryOnce_warnings E attempt url sg w :
  warnings (attemptOnce E attempt url sg w).2 = warnings w ∨
  ∃ msg, warnings (attemptOnce E attempt url sg w).2
         = warnings w ++ [ {| wn_rpc := url; wn_attempt := attempt;
                              wn_sig := sg; wn_err := msg;
                              wn_backoff := backoffMs (is429 msg) attempt |} ].
Proof.
  unfold tryOnce, send. cbn.
  destruct (getParsedTransaction E _ url sg) as [ms [v|]|ms msg]; cbn.
  - by left.
  - destruct (getTransaction E _ url sg) as [ms' [v|]|ms' msg]; cbn;
      [by left | by left | right; by exists msg].
  - right. by exists msg.
Qed.

Lemma tryOnce_processed E attempt url sg w :
  processed (attemptOnce E attempt url sg w).2 = processed w.
Proof.
  unfold tryOnce, send. cbn.
  destruct (getParsedTransaction E _ url sg) as [ms [v|]|ms msg]; cbn; [done| |done].
  by destruct (getTransaction E _ url sg) as [ms' [v|]|ms' msg].
Qed.

Lemma fetchLoop_warnings E sg remaining : ∀ attempt w wn,
  wn ∈ warnings (fetchTurns E sg remaining attempt w).2 →
  wn ∈ warnings w ∨
  (attempt < wn_attempt wn ≤ attempt + Z.of_nat remaining ∧
   wn_backoff wn = backoffMs (is429 (wn_err wn)) (wn_attempt wn)).
Proof.
  induction remaining as [|r IH]; intros attempt w wn; cbn [fetchLoop].
  - by left.
  - destruct (nextRpc_keeps E w) as (Hw & _ & _).
    destruct (nextRpc E w) as [[url|] w1]; cbn [fst snd] in *;
      [|rewrite Hw; by left].
    destruct (connectionOk L url); [|cbn; rewrite Hw; by left].
    pose proof (tryOnce_warnings E (attempt + 1) url sg w1) as Hone.
    destruct (attemptOnce E (attempt + 1) url sg w1) as [[v|] w2];
      cbn [fst snd] in *.
    + intros Hin. destruct Hone as [Hone | [msg Hone]]; rewrite Hone, ?Hw in Hin.
      * by left.
      * apply elem_of_app in Hin as [Hin | ->%list_elem_of_singleton];
          [by left|]. right. cbn. split; [lia | done].
    + intros Hin. apply IH in Hin as [Hin | [Hrange Hb]].
      * destruct Hone as [Hone | [msg Hone]]; rewrite Hone, ?Hw in Hin.
        -- by left.
        -- apply elem_of_app in Hin as [Hin | ->%list_elem_of_singleton];
             [by left|]. right. cbn. split; [lia | done].
      * right. split; [lia | done].
Qed.

Lemma fetchLoop_processed E sg remaining : ∀ attempt w,
  processed (fetchTurns E sg remaining attempt w).2 = processed w.
Proof.
  induction remaining as [|r IH]; intros attempt w; cbn [fetchLoop]; [done|].
  destruct (nextRpc_keeps E w) as (_ & Hp & _).
  destruct (nextRpc E w) as [[url|] w1]; cbn [fst snd] in *; [|done].
  destruct (connectionOk L url); [|done].
  pose proof (tryOnce_processed E (attempt + 1) url sg w1) as Hone.
  destruct (attemptOnce E (attempt + 1) url sg w1) as [[v|] w2];
    cbn [fst snd] in *; [congruence|].
  rewrite IH. congruence.
Qed.

Lemma fetchParsedTx_processed E sg w :
  processed (fetchTx E sg w).2 = processed w.
Proof.
  unfold fetchParsedTx. destruct (isCached sg w); [done|].
  apply fetchLoop_processed.
Qed.

Lemma processSig_processed E w sg :
  processed (process E w sg) = processed w ++ [sg].
Proof.
  unfold processSig. cbn.
  match goal with |- context [isCached sg ?w'] => destruct (isCached sg w') end.
  - cbn. by destruct (readCache _ _ _).
  - match goal with |- context [fetchTx E sg ?w'] =>
      pose proof (fetchParsedTx_processed E sg w') as H;
      destruct (fetchTx E sg w') as [[parsed|] w1] end; cbn in *; congruence.
Qed.

Lemma batch_processed E batch : ∀ w,
  processed (foldl (process E) w batch) = processed w ++ batch.
Proof.
  induction batch as [|sg batch IH]; intros w; cbn [foldl].
  - by rewrite app_nil_r.
  - rewrite IH, processSig_processed, <- app_assoc. done.
Qed.

(** With a positive window width the sweep ends within one turn per
    identifier left, and hands the identifiers to [processSig] in list
    order. *)
Lemma runLoop_processed E sigs fuel : ∀ i w,
  1 ≤ CONCURRENCY E → 0 ≤ i →
  (Z.to_nat (Z.of_nat (length sigs) - i) ≤ fuel)%nat →
  (sweep E sigs fuel i w).1 = Completed ∧
  processed (sweep E sigs fuel i w).2 = processed w ++ drop (Z.to_nat i) sigs.
Proof.
  induction fuel as [|fuel IH]; intros i w Hc Hi Hfuel.
  - cbn [runLoop]. rewrite (proj2 (Z.ltb_ge _ _)) by lia. cbn.
    rewrite drop_ge by lia. by rewrite app_nil_r.
  - cbn [runLoop]. destruct (i <? Z.of_nat (length sigs)) eqn:Hlt.
    + apply Z.ltb_lt in Hlt.
      set (w1 := foldl (process E) w (slice sigs i (i + CONCURRENCY E))).
      set (w2 := if i + CONCURRENCY E <? Z.of_nat (length sigs)
                 then wait (BATCH_DELAY_MS E) w1 else w1).
      assert (processed w2
              = processed w ++ slice sigs i (i + CONCURRENCY E)) as Hw2.
      { subst w2 w1. destruct (_ <? _); cbn; apply batch_processed. }
      destruct (IH (i + CONCURRENCY E) w2) as [Hres Hproc]; [done | lia | lia |].
      split; [exact Hres|].
      rewrite Hproc, Hw2, <- app_assoc. f_equal. by apply slice_window.
    + apply Z.ltb_ge in Hlt. cbn.
      rewrite drop_ge by lia. by rewrite app_nil_r.
Qed.

Lemma outPath_not_cachePath sg k sg' : outPath sg k ≠ cachePathForSig sg'.
Proof. unfold outPath, cachePathForSig. cbn. discriminate. Qed.

(** With the identifier in the cache, [processSig] writes what the cached
    text decompiles to and touches no other file. *)
Lemma processSig_cached E w sg content :
  files w !! cachePathForSig sg = Some content →
  files (process E w sg)
  = writeOut (emitCached L sg content)
      (files w).
Proof.
  intros Hc. unfold processSig, isCached, readCache, emitCached. cbn.
  rewrite Hc. rewrite bool_decide_eq_true_2 by eauto. cbn.
  by destruct (JSON_parse L content).
Qed.

Lemma writeOut_keeps_cache out fs sg content :
  (∀ p ts, out = Some (p, ts) → p ≠ cachePathForSig sg) →
  fs !! cachePathForSig sg = Some content →
  writeOut out fs !! cachePathForSig sg = Some content.
Proof.
  intros Hp Hc. destruct out as [[p ts]|]; [|done].
  cbn. rewrite lookup_insert_ne; [done|]. by eapply Hp.
Qed.

Lemma emitCached_path sg content p ts :
  emitCached L sg content = Some (p, ts) →
  ∃ k, p = outPath sg k.
Proof.
  unfold emitCached, emit. destruct (JSON_parse L content) as [parsed|]; [|done].
  destruct (decompileToTS _ _ _) as [[[k ts']|]|]; [|done|done].
  intros [= <- <-]. by exists k.
Qed.

Lemma writeOut_twice out (fs : gmap string string) :
  writeOut out (writeOut out fs) = writeOut out fs.
Proof. destruct out as [[p ts]|]; [|done]. cbn. apply insert_insert_eq. Qed.

(** *** Where the sweep starts *)

Lemma indexOf_None (x : string) (l : list string) :
  indexOf x l = None ↔ x ∉ l.
Proof.
  induction l as [|y l IH]; cbn.
  - split; [intros _ H; by apply elem_of_nil in H | done].
  - destruct (String.eqb_spec y x) as [->|Hne].
    + split; [done|]. intros H. destruct H. apply list_elem_of_here.
    + rewrite not_elem_of_cons, <- IH.
      destruct (indexOf x l); cbn; split; try done; intros [_ ?]; done.
Qed.

(** A resume point that is not in the list ends the run before anything is
    done. *)
Lemma run_resume_absent E allSigs fuel w start :
  START_FROM_SIG E = Some start → start ≠ "" → start ∉ allSigs →
  run L E allSigs fuel w = (Exited 1, w).
Proof.
  intros Hs Hne Habs. unfold run, selectSigs. rewrite Hs. cbn.
  apply String.eqb_neq in Hne. rewrite Hne.
  apply indexOf_None in Habs. by rewrite Habs.
Qed.

(** A resume point found at [startIndex] makes the run sweep the list from
    there, in order. *)
Lemma run_resume_present E allSigs fuel w start startIndex :
  START_FROM_SIG E = Some start → start ≠ "" →
  indexOf start allSigs = Some startIndex →
  1 ≤ CONCURRENCY E → (length allSigs ≤ fuel)%nat →
  (run L E allSigs fuel w).1 = Completed ∧
  processed (run L E allSigs fuel w).2 = processed w ++ drop startIndex allSigs.
Proof.
  intros Hs Hne Hidx Hc Hfuel. unfold run, selectSigs. rewrite Hs. cbn.
  apply String.eqb_neq in Hne. rewrite Hne, Hidx, slice_from.
  apply (runLoop_processed E (drop startIndex allSigs) fuel 0 w); [done | lia |].
  rewrite length_drop. lia.
Qed.

(** A window of width 0 is empty, and the sweep stays where it is. *)
Lemma slice_empty {A} (l : list A) (i : Z) : slice l i (i + 0) = [].
Proof. unfold slice. rewrite Z.add_0_r, Z.sub_diag. done. Qed.

Lemma runLoop_zero_width E sigs fuel : ∀ i w,
  CONCURRENCY E = 0 → i < Z.of_nat (length sigs) →
  (sweep E sigs fuel i w).1 = StillRunning ∧
  processed (sweep E sigs fuel i w).2 = processed w.
Proof.
  induction fuel as [|fuel IH]; intros i w Hc Hi; cbn [runLoop];
    rewrite (proj2 (Z.ltb_lt _ _) Hi); [done|].
  rewrite Hc, slice_empty, Z.add_0_r. cbn [foldl].
  rewrite (proj2 (Z.ltb_lt _ _) Hi).
  destruct (IH i (wait (BATCH_DELAY_MS E) w) Hc Hi) as [H1 H2]. by split.
Qed.

(** *** The delay after a failure *)

(** The timer takes every delay of the first thirteen attempts as it is. *)
Lemma backoff_fits (rateLimited : bool) (n j : Z) :
  0 ≤ n ≤ 13 → 0 ≤ j ≤ 150 →
  timerDelay (backoffMs rateLimited n + j) = backoffMs rateLimited n + j.
Proof.
  intros Hn Hj. unfold timerDelay, backoffMs, BASE_BACKOFF_MS, TIMEOUT_MAX.
  assert (1 ≤ 2 ^ n ≤ 3 ^ n) as [H1 H2].
  { split; [apply (Z.pow_le_mono_r 2 0 n); lia | apply Z.pow_le_mono_l; lia]. }
  assert (3 ^ n ≤ 3 ^ 13) as H3 by (apply Z.pow_le_mono_r; lia).
  change (3 ^ 13) with 1594323 in H3.
  destruct rateLimited.
  - rewrite (proj2 (Z.leb_le 1 _)), (proj2 (Z.leb_le _ 2147483647)) by lia. done.
  - rewrite (proj2 (Z.leb_le 1 _)), (proj2 (Z.leb_le _ 2147483647)) by lia. done.
Qed.

(** From the fourteenth attempt on the delay after a rate-limited failure is
    beyond the timer's range. *)
Lemma backoff_overflows (n j : Z) :
  14 ≤ n → 0 ≤ j → timerDelay (backoffMs true n + j) = 1.
Proof.
  intros Hn Hj. unfold timerDelay, backoffMs, BASE_BACKOFF_MS, TIMEOUT_MAX.
  assert (3 ^ 14 ≤ 3 ^ n) as H by (apply Z.pow_le_mono_r; lia).
  change (3 ^ 14) with 4782969 in H.
  rewrite (proj2 (Z.leb_gt _ 2147483647)) by lia. by rewrite andb_false_r.
Qed.

Lemma timerDelay_range (ms : Z) : 1 ≤ timerDelay ms ≤ TIMEOUT_MAX.
Proof.
  unfold timerDelay, TIMEOUT_MAX.
  destruct (1 <=? ms) eqn:H1; [|cbn; lia].
  destruct (ms <=? 2147483647) eqn:H2; [|cbn; lia].
  apply Z.leb_le in H1, H2. cbn. lia.
Qed.

(** The [catch] block ends when its timer fires. *)
Lemma catchError_now E attempt url sg msg w :
  now (catchError E attempt url sg msg w)
  = now w + timerDelay (backoffMs (is429 msg) attempt + random E (draws w) 150).
Proof.
  unfold catchError, draw, wait, elapse. cbn.
  pose proof (timerDelay_range
                (backoffMs (is429 msg) attempt + random E (draws w) 150)). lia.
Qed.

(** An attempt with a rejected request goes through the [catch] block and
    lets the loop go on. *)
Lemma tryOnce_caught E attempt url sg w msg w0 :
  caught E url sg w = Some (msg, w0) →
  attemptOnce E attempt url sg w = (None, catchError E attempt url sg msg w0).
Proof.
  unfold caught, tryOnce.
  destruct (send true E url sg w) as [[ms [v|]|ms msg1] w1]; cbn [fst snd].
  - done.
  - destruct (send false E url sg w1) as [[ms' v|ms' msg2] w2]; cbn [fst snd].
    + done.
    + by intros [= -> ->].
  - by intros [= -> ->].
Qed.

(** *** The claims on the fetch client and the orchestrator *)


(** C7, amended: with the resume point [c] and a window width of at least 1
    the sweep over [a, b, c, d] ends and hands exactly [c] then [d] to
    [processSig]; with the absent resume point [z] the run exits with
    status 1 and the world is untouched, whatever the width: no identifier
    is processed and no request is sent. *)
Theorem resume_from_signature E w fuel :
  (START_FROM_SIG E = Some "c" → 1 ≤ CONCURRENCY E → (2 ≤ fuel)%nat →
   (run L E ["a"; "b"; "c"; "d"] fuel w).1 = Completed ∧
   processed (run L E ["a"; "b"; "c"; "d"] fuel w).2
   = processed w ++ ["c"; "d"]) ∧
  (START_FROM_SIG E = Some "z" →
   run L E ["a"; "b"; "c"; "d"] fuel w = (Exited 1, w)).
Proof.
  split; [intros Hstart Hc Hfuel | intros Hstart]; unfold run, selectSigs;
    rewrite Hstart; cbn [nonEmpty String.eqb Ascii.eqb Bool.eqb indexOf fmap
                         option_fmap option_map]; [|done].
  change (slice ["a"; "b"; "c"; "d"] _ _) with ["c"; "d"].
  apply (runLoop_processed E ["c"; "d"] fuel 0 w); [done | lia | cbn; lia].
Qed.

(** C8: for an identifier whose cache file exists, [fetchParsedTx] returns
    what the file parses to and leaves the world as it was: no endpoint is
    taken from the pool (the rotation index and the request counters stay)
    and no request is sent. *)
Theorem cached_fetch_makes_no_request E sg w content :
  files w !! cachePathForSig sg = Some content →
  fetchParsedTx L E sg w = (JSON_parse L content, w) ∧
  requestLog (fetchParsedTx L E sg w).2 = requestLog w ∧
  rpcIndex (fetchParsedTx L E sg w).2 = rpcIndex w ∧
  rpcStats (fetchParsedTx L E sg w).2 = rpcStats w.
Proof.
  intros Hc.
  assert (fetchParsedTx L E sg w = (JSON_parse L content, w)) as ->; [|done].
  unfold fetchParsedTx, isCached, readCache. rewrite Hc.
  by rewrite bool_decide_eq_true_2 by eauto.
Qed.

Lemma emit_written sg parsed : emit L sg parsed = written L sg parsed.
Proof.
  unfold emit, written, decompileToTS. rewrite normalize_closed.
  by destruct (canonicalOf sg _) as [[c|]|].
Qed.

(** The log of the identifiers handed to [processSig] is read by no step of
    a fetch. *)
Lemma nextRpc_setProcessed E l w :
  nextRpc E (setProcessed l w)
  = ((nextRpc E w).1, setProcessed l (nextRpc E w).2).
Proof. unfold nextRpc. cbn. repeat case_match; reflexivity. Qed.

Lemma tryOnce_setProcessed E attempt url sg l w :
  attemptOnce E attempt url sg (setProcessed l w)
  = ((attemptOnce E attempt url sg w).1,
     setProcessed l (attemptOnce E attempt url sg w).2).
Proof.
  unfold tryOnce, send. cbn.
  destruct (getParsedTransaction E _ url sg) as [ms [v|]|ms msg]; cbn; [done| |done].
  by destruct (getTransaction E _ url sg) as [ms' [v|]|ms' msg].
Qed.

Lemma fetchLoop_setProcessed E sg remaining l : ∀ attempt w,
  fetchTurns E sg remaining attempt (setProcessed l w)
  = ((fetchTurns E sg remaining attempt w).1,
     setProcessed l (fetchTurns E sg remaining attempt w).2).
Proof.
  induction remaining as [|r IH]; intros attempt w; cbn [fetchLoop]; [done|].
  rewrite nextRpc_setProcessed. cbn [fst snd].
  destruct (nextRpc E w) as [[url|] w1]; cbn [fst snd]; [|done].
  destruct (connectionOk L url); [|done].
  rewrite tryOnce_setProcessed.
  destruct (attemptOnce E (attempt + 1) url sg w1) as [[v|] w2]; cbn [fst snd];
    [done|].
  apply IH.
Qed.

(** What [processSig] leaves in the file system: what the fetch left, and
    the file that goes with the value fetched. *)
Lemma processSig_files E w sg :
  files (process E w sg)
  = match (fetchTx E sg w).1 with
    | Returned parsed => writeOut (emit L sg parsed) (files (fetchTx E sg w).2)
    | Thrown _ => files (fetchTx E sg w).2
    end.
Proof.
  unfold processSig, fetchParsedTx.
  change (isCached sg (setProcessed (processed w ++ [sg]) w)) with (isCached sg w).
  destruct (isCached sg w); cbn [fst snd].
  - change (readCache L sg (setProcessed (processed w ++ [sg]) w))
      with (readCache L sg w).
    by destruct (readCache L sg w).
  - rewrite fetchLoop_setProcessed. cbn [fst snd].
    by destruct (fetchTurns E sg _ 0 w) as [[parsed|e] w1].
Qed.


End PipelineProperties.


(** C7 as stated fails for a window width that is not positive: with a
    width of 0 the sweep that resumes at [c] processes nothing and never
    ends, whatever the number of turns allowed. *)
Lemma resume_needs_a_positive_width :
  CONCURRENCY (resumeEnv 0 "c") = 0 ∧
  START_FROM_SIG (resumeEnv 0 "c") = Some "c" ∧
  ∀ fuel,
    (run libStub (resumeEnv 0 "c") ["a"; "b"; "c"; "d"] fuel cachedWorld).1
    = StillRunning ∧
    processed (run libStub (resumeEnv 0 "c") ["a"; "b"; "c"; "d"] fuel
                 cachedWorld).2 = [].
Proof.
  split; [done|]. split; [done|]. intros fuel.
  unfold run, selectSigs.
  cbn [nonEmpty START_FROM_SIG resumeEnv String.eqb Ascii.eqb Bool.eqb indexOf
       fmap option_fmap option_map].
  change (slice ["a"; "b"; "c"; "d"] _ _) with ["c"; "d"].
  apply (runLoop_zero_width libStub (resumeEnv 0 "c") ["c"; "d"] fuel 0 cachedWorld);
    [done | cbn; lia].
Qed.


Lemma resume_from_signature_witness :
  (run libStub (timeoutEnv (Some "c"))
     ["a"; "b"; "c"; "d"] 2 cachedWorld).1 = Completed ∧
  processed (run libStub (timeoutEnv (Some "c"))
               ["a"; "b"; "c"; "d"] 2 cachedWorld).2 = ["c"; "d"].
Proof.
  apply (proj1 (resume_from_signature libStub
                  (timeoutEnv (Some "c")) cachedWorld 2));
    [reflexivity | cbn; lia | lia].
Defined.

Lemma cached_fetch_makes_no_request_witness :
  fetchParsedTx libStub (timeoutEnv None) "tx1" cachedWorld
  = (Returned (Some budgetAndTransfer), cachedWorld).
Proof.
  apply (cached_fetch_makes_no_request libStub
           (timeoutEnv None) "tx1" cachedWorld "{}").
  reflexivity.
Defined.


(** ** Further properties of the normalizer *)

Lemma setAdd_NoDup (a : string) (s : list string) :
  NoDup s → NoDup (setAdd a s).
Proof.
  unfold setAdd. case_bool_decide as Hin; [done|]. intros Hs.
  apply NoDup_app. split; [done|]. split; [|apply NoDup_singleton].
  intros x Hx Hxa. apply list_elem_of_singleton in Hxa. by subst.
Qed.

Lemma head_setAdd (a : string) (s : list string) :
  head (setAdd a s) = Some (default a (head s)).
Proof.
  unfold setAdd. destruct s as [|x s]; [done|].
  by case_bool_decide.
Qed.

Lemma foldl_keys_NoDup {X} (f : list string * list AccountMeta → X →
                                list string * list AccountMeta) :
  (∀ st x, f st x = st ∨
           ∃ meta, f st x = (setAdd (pubkey meta) st.1, st.2 ++ [meta])) →
  ∀ xs st, NoDup st.1 → NoDup (foldl f st xs).1.
Proof.
  intros Hf xs. induction xs as [|x xs IH]; intros st Hst; [done|].
  cbn [foldl]. apply IH.
  destruct (Hf st x) as [-> | [meta ->]]; [done|]. cbn. by apply setAdd_NoDup.
Qed.

Lemma foldl_keys_head {X} (f : list string * list AccountMeta → X →
                               list string * list AccountMeta) :
  (∀ st x, f st x = st ∨
           ∃ meta, f st x = (setAdd (pubkey meta) st.1, st.2 ++ [meta])) →
  ∀ xs st a, head st.1 = Some a → head (foldl f st xs).1 = Some a.
Proof.
  intros Hf xs. induction xs as [|x xs IH]; intros st a Hst; [done|].
  cbn [foldl]. apply IH.
  destruct (Hf st x) as [-> | [meta ->]]; [done|]. cbn.
  by rewrite head_setAdd, Hst.
Qed.

Lemma collectKeys_turns m keyList instr ua :
  (NoDup ua → NoDup (collectKeys m keyList instr ua).1) ∧
  (∀ a, head ua = Some a → head (collectKeys m keyList instr ua).1 = Some a).
Proof.
  unfold collectKeys. destruct (in_accounts instr) as [accs|].
  - split.
    + intros H. by apply (foldl_keys_NoDup _ (indexedKey_turn m keyList) accs (ua, [])).
    + intros a H. by apply (foldl_keys_head _ (indexedKey_turn m keyList) accs (ua, [])).
  - destruct (parsedInfo _) as [info|]; [|done]. split.
    + intros H. by apply (foldl_keys_NoDup _ (namedKey_turn info) _ (ua, [])).
    + intros a H. by apply (foldl_keys_head _ (namedKey_turn info) _ (ua, [])).
Qed.

Lemma step_NoDup m keyList st instr st' :
  step m keyList st instr = Returned st' →
  NoDup (uniqueAccounts st) → NoDup (uniqueAccounts st').
Proof.
  unfold step. intros Hstep Hnd.
  destruct (resolveProgramId keyList instr) as [pid|]; [|by injection Hstep as <-].
  destruct (String.eqb pid COMPUTE_BUDGET_ID).
  - injection Hstep as <-. by apply setAdd_NoDup.
  - destruct (describe pid instr) as [d|]; [|done].
    cbn in Hstep. injection Hstep as <-. cbn.
    by apply collectKeys_turns, setAdd_NoDup.
Qed.

Lemma loop_NoDup m keyList instrs : ∀ st st',
  loop m keyList st instrs = Returned st' →
  NoDup (uniqueAccounts st) → NoDup (uniqueAccounts st').
Proof.
  induction instrs as [|instr rest IH]; intros st st' Hloop Hnd.
  - by injection Hloop as <-.
  - cbn in Hloop. destruct (step m keyList st instr) as [st1|] eqn:Hstep; [|done].
    eapply IH; [exact Hloop|]. by eapply step_NoDup.
Qed.

(** X1: the account list handed to the renderer never repeats an address. *)
Theorem accounts_have_no_duplicate sg raw c :
  normalize sg raw = Returned (Some c) → NoDup (accounts (params c)).
Proof.
  intros [_ [st [Hloop ->]]]%normalize_Some. cbn.
  eapply loop_NoDup; [exact Hloop|]. apply NoDup_nil_2.
Qed.

Lemma accounts_have_no_duplicate_witness :
  ∃ c, normalize "tx" budgetAndTransfer = Returned (Some c) ∧
       NoDup (accounts (params c)).
Proof.
  eexists. split; [vm_compute; reflexivity|].
  apply (accounts_have_no_duplicate "tx" budgetAndTransfer). vm_compute. reflexivity.
Defined.

Lemma step_head m keyList st instr st' :
  step m keyList st instr = Returned st' →
  head (uniqueAccounts st')
  = match head (uniqueAccounts st) with
    | Some a => Some a
    | None => resolveProgramId keyList instr
    end.
Proof.
  unfold step. intros Hstep.
  destruct (resolveProgramId keyList instr) as [pid|];
    [|injection Hstep as <-; by destruct (head _)].
  assert (head (setAdd pid (uniqueAccounts st))
          = match head (uniqueAccounts st) with
            | Some a => Some a
            | None => Some pid
            end) as Hh.
  { rewrite head_setAdd. by destruct (head _). }
  destruct (String.eqb pid COMPUTE_BUDGET_ID).
  - by injection Hstep as <-.
  - destruct (describe pid instr) as [d|]; [|done].
    cbn in Hstep. injection Hstep as <-. cbn. rewrite <- Hh.
    destruct (head (setAdd pid (uniqueAccounts st))) as [a|] eqn:Ha.
    + by apply collectKeys_turns.
    + rewrite head_setAdd in Ha. done.
Qed.

Lemma loop_head m keyList instrs : ∀ st st',
  loop m keyList st instrs = Returned st' →
  head (uniqueAccounts st')
  = match head (uniqueAccounts st) with
    | Some a => Some a
    | None => head (omap (resolveProgramId keyList) instrs)
    end.
Proof.
  induction instrs as [|instr rest IH]; intros st st' Hloop.
  - injection Hloop as <-. by destruct (head _).
  - cbn in Hloop. destruct (step m keyList st instr) as [st1|] eqn:Hstep; [|done].
    cbn in Hloop. rewrite (IH _ _ Hloop), (step_head _ _ _ _ _ Hstep).
    destruct (head (uniqueAccounts st)); [done|].
    cbn. by destruct (resolveProgramId keyList instr).
Qed.

(** X2: the first account of the list handed to the renderer, which the
    rendered code takes as the agent's public key, is the program id of the
    first instruction of the response that resolves (a compute-budget
    directive included), not an account of the transaction's key list. *)
Theorem first_account_is_first_program sg raw c :
  normalize sg raw = Returned (Some c) →
  head (accounts (params c))
  = head (omap (resolveProgramId (accountKeysOf raw)) (instructionsOf raw)).
Proof.
  intros [_ [st [Hloop ->]]]%normalize_Some. cbn.
  by rewrite (loop_head _ _ _ _ _ Hloop).
Qed.

Lemma first_account_is_first_program_witness :
  ∃ c, normalize "tx" budgetAndTransfer = Returned (Some c) ∧
       head (accounts (params c)) = Some COMPUTE_BUDGET_ID.
Proof.
  eexists. split; [vm_compute; reflexivity|].
  rewrite (first_account_is_first_program "tx" budgetAndTransfer);
    [reflexivity | vm_compute; reflexivity].
Defined.

Lemma unitLimitOf_truthy keyList instr v :
  unitLimitOf keyList instr = Some v → truthy v = true.
Proof.
  unfold unitLimitOf, budgetOf. repeat case_match; try done.
  intros [= <-]. unfold truthyField in *.
  destruct (_ ≫= _) as [u|]; [|done]. cbn.
  destruct (truthy u) eqn:Hu; [done | done].
Qed.

(** X3: the compute budget handed to the renderer is the unit limit of the
    last compute-budget instruction decoded as [setComputeUnitLimit] (absent
    when there is none), and it is never a falsy value: a missing, zero or
    empty [units] is replaced by 200000. *)
Theorem compute_budget_is_last_unit_limit sg raw c :
  normalize sg raw = Returned (Some c) →
  computeBudget (params c)
  = last (omap (unitLimitOf (accountKeysOf raw)) (instructionsOf raw)) ∧
  ∀ v, computeBudget (params c) = Some v → truthy v = true.
Proof.
  intros [_ [st [Hloop ->]]]%normalize_Some. cbn.
  pose proof (loop_budget _ _ _ _ _ Hloop) as Hb. cbn in Hb.
  assert (ls_computeBudget st
          = last (omap (unitLimitOf (accountKeysOf raw)) (instructionsOf raw))) as Heq.
  { rewrite Hb. by destruct (last _). }
  split; [done|]. intros v Hv. rewrite Heq in Hv.
  apply last_Some_elem_of in Hv.
  apply list_elem_of_omap in Hv as [instr [_ Hu]].
  by eapply unitLimitOf_truthy.
Qed.

Lemma compute_budget_is_last_unit_limit_witness :
  ∃ c, normalize "tx" budgetAndTransfer = Returned (Some c) ∧
       computeBudget (params c) = Some (JNum 1400000).
Proof.
  eexists. split; [vm_compute; reflexivity|].
  etrans; [|reflexivity].
  apply (compute_budget_is_last_unit_limit "tx" budgetAndTransfer).
  vm_compute. reflexivity.
Defined.

Lemma describe_throws pid instr ty info v :
  in_parsed instr = Some (ParsedObj ty (Some info)) →
  info !! "mint" = Some v → truthy v = true → (∀ s, v ≠ JStr s) →
  ∃ e, describe pid instr = Thrown e.
Proof.
  intros Hp Hm Hv Hs. unfold describe, describeInfo, truthyField.
  rewrite Hp. cbn. rewrite Hm, Hv.
  destruct v as [|b|z|s|]; try (by eexists). by destruct (Hs s).
Qed.

Lemma loop_throws m keyList instr ty info v instrs : ∀ st,
  instr ∈ instrs → is_Some (keptId keyList instr) →
  in_parsed instr = Some (ParsedObj ty (Some info)) →
  info !! "mint" = Some v → truthy v = true → (∀ s, v ≠ JStr s) →
  ∃ e, loop m keyList st instrs = Thrown e.
Proof.
  induction instrs as [|i rest IH]; intros st Hin Hkept Hp Hm Hv Hs.
  - by apply elem_of_nil in Hin.
  - cbn [loop]. destruct (step m keyList st i) as [st1|e1] eqn:Hstep; cbn;
      [|by eexists].
    apply elem_of_cons in Hin as [<-|Hin]; [|by apply IH].
    exfalso. unfold step in Hstep. unfold keptId in Hkept.
    destruct (resolveProgramId keyList instr) as [pid|]; [|by destruct Hkept].
    destruct (String.eqb pid COMPUTE_BUDGET_ID); [by destruct Hkept|].
    destruct (describe_throws pid instr ty info v Hp Hm Hv Hs) as [e He].
    by rewrite He in Hstep.
Qed.



Lemma multi_tag_inj (n k : nat) :
  "multi-" +:+ pretty n = "multi-" +:+ pretty k → n = k.
Proof.
  assert (∀ p a b : string, p +:+ a = p +:+ b → a = b) as Happ.
  { induction p as [|ch p IH]; cbn; [done|]. intros a b [= H]. by apply IH. }
  intros H. apply Happ in H. by apply pretty_nat_inj in H.
Qed.

(** X5: the tag tells the shape of the canonical list: [complex] exactly for
    the empty list, [multi-N] exactly for a list of N >= 2 instructions, and
    [system], [spl-token], [memo] exactly for a single instruction of the
    system program, of the SPL token program, of one of the two memo
    programs. *)
Theorem classify_tells_the_shape (l : list Instruction) :
  (classify l = "complex" ↔ l = []) ∧
  (∀ n : nat, classify l = "multi-" +:+ pretty n ↔ (2 ≤ n)%nat ∧ length l = n) ∧
  (classify l = "system" ↔ ∃ i, l = [i] ∧ programId i = SYSTEM_PROGRAM_ID) ∧
  (classify l = "spl-token" ↔ ∃ i, l = [i] ∧ programId i = TOKEN_PROGRAM_ID) ∧
  (classify l = "memo" ↔ ∃ i, l = [i] ∧ programId i ∈ MEMO_PROGRAM_IDS).
Proof.
  destruct l as [|i [|j l]].
  - cbn. repeat split; try done; try (intros [? [? ?]]; done).
    intros [H1 H2]. cbn in H2. lia.
  - cbn [classify]. unfold isMemo.
    destruct (String.eqb_spec (programId i) SYSTEM_PROGRAM_ID) as [Hs|Hs];
      [|destruct (String.eqb_spec (programId i) TOKEN_PROGRAM_ID) as [Ht|Ht];
        [|case_bool_decide as Hm]].
    all: repeat split; try done; try (intros [H1 H2]; cbn in H2; lia).
    all: try (intros _; by exists i).
    all: try (intros [i' [[= <-] H]]; try congruence).
    all: try (rewrite Hs in H; set_unfold; intuition discriminate).
    all: try (rewrite Ht in H; set_unfold; intuition discriminate).
    all: try (rewrite Ht in Hs; done).
    all: try done.
  - cbn [classify]. repeat split; try done; try (intros [? [? ?]]; done).
    + apply multi_tag_inj in H. cbn in H. lia.
    + apply multi_tag_inj in H. by rewrite <- H.
    + intros [_ <-]. done.
Qed.

(** ** Further properties of the fetch client and of the orchestrator *)

Lemma nextRpc_rotates E w i :
  RPC_LIST E ≠ [] → rpcIndex w = Some i → -1 ≤ i →
  let j := (i + 1) `mod` Z.of_nat (length (RPC_LIST E)) in
  (nextRpc E w).1 = RPC_LIST E !! Z.to_nat j ∧
  rpcIndex (nextRpc E w).2 = Some j ∧ 0 ≤ j.
Proof.
  intros Hne Hi Hge j. unfold nextRpc. rewrite Hi.
  assert (0 < Z.of_nat (length (RPC_LIST E))) as Hlen.
  { destruct (RPC_LIST E); [done | cbn; lia]. }
  rewrite (proj2 (Z.eqb_neq _ _)) by lia.
  rewrite Z.rem_mod_nonneg by lia. fold j.
  assert (0 ≤ j) as Hj by (apply Z.mod_pos_bound; lia).
  cbn. rewrite (proj2 (Z.leb_le 0 j)) by done.
  split; [done|]. split; [|done].
  by repeat case_match.
Qed.

(** X6: the endpoints are handed out in strict rotation whatever the
    outcome of the requests: with a non-empty list, the [k]-th of [n] calls
    in a row returns the endpoint at position [(rpcIndex + 1 + k) mod M]
    (so, from program start, position [k mod M]). *)
Theorem endpoints_rotate E n : ∀ w i,
  RPC_LIST E ≠ [] → rpcIndex w = Some i → -1 ≤ i →
  (nextRpcs E n w).1
  = (λ k : nat, RPC_LIST E !!
       Z.to_nat ((i + 1 + Z.of_nat k) `mod` Z.of_nat (length (RPC_LIST E))))
    <$> seq 0 n.
Proof.
  induction n as [|n IH]; intros w i Hne Hi Hge; [done|].
  destruct (nextRpc_rotates E w i Hne Hi Hge) as (H1 & H2 & H3).
  cbn [nextRpcs fst]. rewrite H1.
  rewrite (IH _ _ Hne H2) by lia.
  cbn [seq fmap list_fmap]. rewrite Z.add_0_r. f_equal.
  rewrite <- fmap_S_seq, <- list_fmap_compose.
  apply list_fmap_ext. intros _ k _. cbn. do 2 f_equal.
  rewrite Nat2Z.inj_succ.
  rewrite <- Z.add_assoc, Zplus_mod_idemp_l. f_equal. lia.
Qed.

Lemma endpoints_rotate_witness :
  (nextRpcs (threeRpcEnv 2) 5 freshWorld).1
  = [ Some "https://a.example"; Some "https://b.example"; Some "https://c.example";
      Some "https://a.example"; Some "https://b.example" ].
Proof.
  rewrite (endpoints_rotate (threeRpcEnv 2) 5 freshWorld (-1));
    [reflexivity | discriminate | reflexivity | lia].
Defined.

(** X7: two uses of the same endpoint are at least [PER_RPC_DELAY_MS]
    apart: when [nextRpc] hands out an endpoint last used at a non-zero time
    [last], it returns no earlier than [last + 300], never before it was
    called, and records the time of return as the new last use.  The wait
    this takes is at most 300 ms when [last] is not ahead of the clock; the
    spacing holds as long as the wait fits a timer, and in the one case
    left, a [last] more than [TIMEOUT_MAX - 300] ms ahead of the clock, the
    timer fires after 1 ms. *)
Theorem endpoint_uses_are_spaced E w rpc last :
  (nextRpc E w).1 = Some rpc →
  rpcLastUsed w !! rpc = Some last → last ≠ 0 →
  (last + PER_RPC_DELAY_MS - now w ≤ TIMEOUT_MAX →
   last + PER_RPC_DELAY_MS ≤ now (nextRpc E w).2) ∧
  (TIMEOUT_MAX < last + PER_RPC_DELAY_MS - now w →
   now (nextRpc E w).2 = now w + 1) ∧
  now w ≤ now (nextRpc E w).2 ∧
  rpcLastUsed (nextRpc E w).2 !! rpc = Some (now (nextRpc E w).2).
Proof.
  unfold nextRpc. cbn [fst snd].
  set (rpcO := _ ≫= _). intros Hrpc. rewrite Hrpc. cbn [default].
  intros Hlast Hne. cbn. rewrite Hlast.
  rewrite (proj2 (Z.eqb_neq _ _)) by done.
  pose proof (timerDelay_range (PER_RPC_DELAY_MS - (now w - last))) as Hrange.
  destruct (now w - last <? PER_RPC_DELAY_MS) eqn:Hlt; cbn.
  - apply Z.ltb_lt in Hlt. rewrite lookup_insert_eq.
    unfold timerDelay, PER_RPC_DELAY_MS, TIMEOUT_MAX in *.
    rewrite (proj2 (Z.leb_le 1 _)) in * by lia. cbn [andb] in *.
    destruct (300 - (now w - last) <=? 2147483647) eqn:Hfit;
      [apply Z.leb_le in Hfit | apply Z.leb_gt in Hfit];
      (split; [lia|]); (split; [lia|]); (split; [lia|done]).
  - apply Z.ltb_ge in Hlt. rewrite lookup_insert_eq.
    unfold PER_RPC_DELAY_MS, TIMEOUT_MAX in *.
    split; [lia|]. split; [lia|]. split; [lia|done].
Qed.

Lemma endpoint_uses_are_spaced_witness :
  let w := (nextRpc (timeoutEnv None) freshWorld).2 in
  now w + 300 ≤ now (nextRpc (timeoutEnv None) w).2.
Proof.
  intros w.
  apply (proj1 (endpoint_uses_are_spaced (timeoutEnv None) w
                  "https://api.mainnet-beta.solana.com" (now w)
                  eq_refl eq_refl ltac:(discriminate))).
  vm_compute. discriminate.
Defined.

Lemma statsOwe_statsOk key w : statsOwe key w → statsOk w.
Proof.
  intros H k s Hk. specialize (H k s Hk). by case_decide; lia.
Qed.

Lemma nextRpc_statsOwe E w :
  statsOk w →
  statsOwe (default "undefined" (nextRpc E w).1) (nextRpc E w).2.
Proof.
  intros Hok. unfold nextRpc. cbn [fst snd].
  set (rpcO := _ ≫= _). set (key := default "undefined" rpcO).
  assert (∀ w', rpcStats w' = <[key := incRequests (default zeroStats (rpcStats w !! key))]> (rpcStats w) →
                statsOwe key w') as Hins.
  { intros w' Hw' k s. rewrite Hw'. destruct (decide (k = key)) as [->|Hne].
    - rewrite lookup_insert_eq. intros [= <-]. cbn.
      destruct (rpcStats w !! key) as [s0|] eqn:Hs0; cbn.
      + specialize (Hok _ _ Hs0). lia.
      + lia.
    - rewrite lookup_insert_ne by done. intros Hk. specialize (Hok _ _ Hk). lia. }
  apply Hins. cbn. by repeat case_match.
Qed.

Section PipelineInvariants.

Context (L : Library).

Lemma settle_statsOk (f : Stats → Stats) url w w' :
  (∀ s, success (f s) ≤ success s + 1 ∧ failures (f s) ≤ failures s + 1 ∧
        requests (f s) = requests s) →
  rpcStats w' = alter f url (rpcStats w) →
  statsOwe url w → statsOk w'.
Proof.
  intros Hf Hw' Howe k s. rewrite Hw', lookup_alter.
  case_decide as Hk.
  - subst k. destruct (rpcStats w !! url) as [s0|] eqn:Hs0; [|done].
    intros [= <-]. specialize (Howe _ _ Hs0). rewrite decide_True in Howe by done.
    destruct (Hf s0) as (H1 & H2 & H3). lia.
  - intros Hs. specialize (Howe _ _ Hs). rewrite decide_False in Howe by done. lia.
Qed.

Lemma tryOnce_statsOk E attempt url sg w :
  statsOwe url w → statsOk (tryOnce L E attempt url sg w).2.
Proof.
  intros Howe. unfold tryOnce, send. cbn.
  destruct (getParsedTransaction E _ url sg) as [ms [v|]|ms msg]; cbn.
  - eapply (settle_statsOk incSuccess url); [| |exact Howe]; [intros []; cbn; lia | done].
  - destruct (getTransaction E _ url sg) as [ms' [v|]|ms' msg]; cbn.
    + eapply (settle_statsOk incSuccess url); [| |exact Howe]; [intros []; cbn; lia | done].
    + by eapply statsOwe_statsOk.
    + eapply (settle_statsOk incFailures url); [| |exact Howe]; [intros []; cbn; lia | done].
  - eapply (settle_statsOk incFailures url); [| |exact Howe]; [intros []; cbn; lia | done].
Qed.

Lemma fetchLoop_statsOk E sg remaining : ∀ attempt w,
  statsOk w → statsOk (fetchLoop L E sg remaining attempt w).2.
Proof.
  induction remaining as [|r IH]; intros attempt w Hok; cbn [fetchLoop]; [done|].
  pose proof (nextRpc_statsOwe E w Hok) as Howe.
  destruct (nextRpc E w) as [[url|] w1]; cbn [fst snd default] in *;
    [|by eapply statsOwe_statsOk].
  destruct (connectionOk L url); [|by eapply statsOwe_statsOk].
  pose proof (tryOnce_statsOk E (attempt + 1) url sg w1 Howe) as Hone.
  destruct (tryOnce L E (attempt + 1) url sg w1) as [[v|] w2]; cbn [fst snd] in *;
    [done|]. by apply IH.
Qed.

Lemma fetchParsedTx_statsOk E sg w :
  statsOk w → statsOk (fetchParsedTx L E sg w).2.
Proof.
  intros Hok. unfold fetchParsedTx. destruct (isCached sg w); [done|].
  by apply fetchLoop_statsOk.
Qed.

Lemma processSig_statsOk E w sg :
  statsOk w → statsOk (processSig L E w sg).
Proof.
  intros Hok. unfold processSig. cbn.
  match goal with |- context [isCached sg ?w'] =>
    destruct (isCached sg w'); cbn;
    [by destruct (readCache L sg w')|];
    pose proof (fetchParsedTx_statsOk E sg w' Hok) as H;
    destruct (fetchParsedTx L E sg w') as [[parsed|] w1] end; done.
Qed.

Lemma batch_statsOk E batch : ∀ w,
  statsOk w → statsOk (foldl (processSig L E) w batch).
Proof.
  induction batch as [|sg batch IH]; intros w Hok; [done|].
  cbn [foldl]. by apply IH, processSig_statsOk.
Qed.

Lemma runLoop_statsOk E sigs fuel : ∀ i w,
  statsOk w → statsOk (runLoop L E sigs fuel i w).2.
Proof.
  induction fuel as [|fuel IH]; intros i w Hok; cbn [runLoop].
  - by destruct (_ <? _).
  - destruct (i <? _); [|done]. apply IH.
    pose proof (batch_statsOk E (slice sigs i (i + CONCURRENCY E)) w Hok).
    by destruct (_ <? _).
Qed.

(** X8: the usage counters stay consistent through a whole run: no
    endpoint is ever credited with more successes than requests, nor with
    more failures than requests (so the success rate printed at the end is
    at most 100%).  Successes and failures together may exceed the
    requests in the program: a success whose cache write then throws is
    counted as a failure as well. *)
Theorem stats_stay_consistent E allSigs fuel w :
  statsOk w → statsOk (run L E allSigs fuel w).2.
Proof.
  intros Hok. unfold run. destruct (selectSigs E allSigs); [|done].
  by apply runLoop_statsOk.
Qed.

(** *** The files a fetch writes *)

Lemma tryOnce_files E attempt url sg w :
  files (tryOnce L E attempt url sg w).2
  = match (tryOnce L E attempt url sg w).1 with
    | Some v => <[cachePathForSig sg := JSON_stringify L v]> (files w)
    | None => files w
    end.
Proof.
  unfold tryOnce, send. cbn.
  destruct (getParsedTransaction E _ url sg) as [ms [v|]|ms msg]; cbn; [done| |done].
  by destruct (getTransaction E _ url sg) as [ms' [v|]|ms' msg].
Qed.

Lemma fetchLoop_files E sg remaining : ∀ attempt w,
  match (fetchLoop L E sg remaining attempt w).1 with
  | Returned (Some v) =>
      files (fetchLoop L E sg remaining attempt w).2
      = <[cachePathForSig sg := JSON_stringify L v]> (files w)
  | Returned None => False
  | Thrown _ => files (fetchLoop L E sg remaining attempt w).2 = files w
  end.
Proof.
  induction remaining as [|r IH]; intros attempt w; cbn [fetchLoop]; [done|].
  destruct (nextRpc_keeps E w) as (_ & _ & Hf).
  destruct (nextRpc E w) as [[url|] w1]; cbn [fst snd] in *; [|done].
  destruct (connectionOk L url); [|done].
  pose proof (tryOnce_files E (attempt + 1) url sg w1) as Hone.
  destruct (tryOnce L E (attempt + 1) url sg w1) as [[v|] w2]; cbn [fst snd] in *.
  - by rewrite Hone, Hf.
  - specialize (IH (attempt + 1) w2). rewrite Hone, Hf in IH. exact IH.
Qed.

(** X9: a fetch that succeeds over the network stores the result under the
    identifier's cache path and writes no other file; from then on a fetch of
    the same identifier, in any environment, returns what the stored text
    parses to and leaves the world untouched (no request is sent). *)
Theorem fetched_is_cached E sg w v w' :
  files w !! cachePathForSig sg = None →
  fetchParsedTx L E sg w = (Returned (Some v), w') →
  files w' = <[cachePathForSig sg := JSON_stringify L v]> (files w) ∧
  ∀ E', fetchParsedTx L E' sg w' = (JSON_parse L (JSON_stringify L v), w').
Proof.
  intros Hmiss Hfetch. unfold fetchParsedTx, isCached in Hfetch.
  rewrite Hmiss in Hfetch.
  rewrite bool_decide_eq_false_2 in Hfetch by (by intros [? ?]).
  pose proof (fetchLoop_files E sg (Z.to_nat (MAX_RETRIES E)) 0 w) as Hf.
  rewrite Hfetch in Hf. cbn in Hf. split; [done|].
  intros E'. unfold fetchParsedTx, isCached, readCache.
  rewrite Hf, lookup_insert_eq.
  by rewrite bool_decide_eq_true_2 by eauto.
Qed.

(** X10: a fetch that throws (retries exhausted, endpoint refused, or an
    unreadable cache file) leaves the file system as it was: nothing is
    cached for the identifier. *)
Theorem failed_fetch_writes_nothing E sg w e :
  (fetchParsedTx L E sg w).1 = Thrown e →
  files (fetchParsedTx L E sg w).2 = files w.
Proof.
  unfold fetchParsedTx. destruct (isCached sg w); [done|].
  pose proof (fetchLoop_files E sg (Z.to_nat (MAX_RETRIES E)) 0 w) as Hf.
  intros He. by rewrite He in Hf.
Qed.

(** *** The requests a fetch sends *)

Lemma nextRpc_requestLog E w :
  requestLog (nextRpc E w).2 = requestLog w.
Proof. unfold nextRpc. cbn. by repeat case_match. Qed.

Lemma nextRpc_in_list E w url :
  (nextRpc E w).1 = Some url → url ∈ RPC_LIST E.
Proof.
  unfold nextRpc. cbn [fst]. intros H.
  apply bind_Some in H as (i & _ & H).
  destruct (0 <=? i); [|done]. by eapply list_elem_of_lookup_2.
Qed.

Lemma tryOnce_requestLog E attempt url sg w :
  ∃ new, requestLog (tryOnce L E attempt url sg w).2 = requestLog w ++ new ∧
         (1 ≤ length new ≤ 2)%nat ∧
         Forall (λ r, rq_sig r = sg ∧ rq_rpc r = url) new.
Proof.
  unfold tryOnce, send. cbn.
  destruct (getParsedTransaction E _ url sg) as [ms [v|]|ms msg]; cbn.
  - eexists [_]. repeat split; [cbn; lia.. | by repeat constructor].
  - destruct (getTransaction E _ url sg) as [ms' [v|]|ms' msg]; cbn;
      rewrite <- app_assoc; eexists [_; _];
      (repeat split; [cbn; lia.. | by repeat constructor]).
  - eexists [_]. repeat split; [cbn; lia.. | by repeat constructor].
Qed.

Lemma fetchLoop_requestLog E sg remaining : ∀ attempt w,
  ∃ new, requestLog (fetchLoop L E sg remaining attempt w).2 = requestLog w ++ new ∧
         (length new ≤ 2 * remaining)%nat ∧
         Forall (λ r, rq_sig r = sg ∧ rq_rpc r ∈ RPC_LIST E) new.
Proof.
  induction remaining as [|r IH]; intros attempt w; cbn [fetchLoop].
  - exists []. rewrite app_nil_r. repeat split; [cbn; lia | constructor].
  - pose proof (nextRpc_requestLog E w) as Hlog.
    pose proof (nextRpc_in_list E w) as Hin.
    destruct (nextRpc E w) as [[url|] w1]; cbn [fst snd] in *.
    2:{ exists []. rewrite app_nil_r. repeat split; [done | cbn; lia | constructor]. }
    destruct (connectionOk L url).
    2:{ exists []. rewrite app_nil_r. repeat split; [done | cbn; lia | constructor]. }
    destruct (tryOnce_requestLog E (attempt + 1) url sg w1) as (new1 & H1 & Hlen1 & Hall1).
    assert (Forall (λ r, rq_sig r = sg ∧ rq_rpc r ∈ RPC_LIST E) new1) as Hall1'.
    { eapply Forall_impl; [exact Hall1|]. intros rq [? ->]. split; [done|]. by apply Hin. }
    destruct (tryOnce L E (attempt + 1) url sg w1) as [[v|] w2]; cbn [fst snd] in *.
    + exists new1. rewrite H1, Hlog. repeat split; [lia | done].
    + destruct (IH (attempt + 1) w2) as (new2 & H2 & Hlen2 & Hall2).
      exists (new1 ++ new2). rewrite H2, H1, Hlog, <- app_assoc.
      repeat split; [rewrite length_app; lia | by apply Forall_app].
Qed.

(** X11: one fetch sends at most two requests per attempt, hence at most
    [2 * MAX_RETRIES] in all (none when [MAX_RETRIES] is not positive); every
    request it sends is for the identifier asked and goes to an endpoint of
    the configured list; earlier entries of the request log are kept. *)
Theorem fetch_requests_are_bounded E sg w :
  ∃ new,
    requestLog (fetchParsedTx L E sg w).2 = requestLog w ++ new ∧
    (length new ≤ 2 * Z.to_nat (MAX_RETRIES E))%nat ∧
    Forall (λ r, rq_sig r = sg ∧ rq_rpc r ∈ RPC_LIST E) new.
Proof.
  unfold fetchParsedTx. destruct (isCached sg w).
  - exists []. rewrite app_nil_r. repeat split; [cbn; lia | constructor].
  - apply fetchLoop_requestLog.
Qed.

(** X12: [processSig] touches two files at most: the cache entry of its
    identifier and the output file named after the identifier; every other
    path of the file system keeps its content. *)
Theorem processSig_touches_own_files E w sg p :
  p ≠ cachePathForSig sg → (∀ k, p ≠ outPath sg k) →
  files (processSig L E w sg) !! p = files w !! p.
Proof.
  intros Hc Ho. unfold processSig. cbn.
  set (w0 := setProcessed _ w).
  assert (∀ r w1, files w1 !! p = files w !! p →
            files (match r with
                   | Returned parsed =>
                       setFiles (writeOut (emit L sg parsed) (files w1)) w1
                   | Thrown _ => w1
                   end) !! p = files w !! p) as Hemit.
  { intros [parsed|e] w1 Hw1; [|done]. cbn. unfold emit.
    destruct (decompileToTS L sg _) as [[[k ts]|]|]; cbn; [|done..].
    by rewrite lookup_insert_ne. }
  destruct (isCached sg w0) eqn:Hcached; cbn [fst snd].
  - by apply Hemit.
  - apply Hemit.
    pose proof (fetchLoop_files E sg (Z.to_nat (MAX_RETRIES E)) 0 w0) as Hf.
    unfold fetchParsedTx. rewrite Hcached.
    destruct (fetchLoop L E sg _ 0 w0) as [[[v|]|e] w1]; cbn [fst snd] in *;
      [|done|by rewrite Hf].
    rewrite Hf. by rewrite lookup_insert_ne.
Qed.

(** *** The sweep *)

Lemma indexOf_first (start : string) (pre post : list string) :
  start ∉ pre → indexOf start (pre ++ start :: post) = Some (length pre).
Proof.
  induction pre as [|y pre IH]; intros Hnot; cbn.
  - by rewrite String.eqb_refl.
  - apply not_elem_of_cons in Hnot as [Hne Hnot].
    rewrite (proj2 (String.eqb_neq y start)) by done. by rewrite IH.
Qed.

(** X13: without a resume point and with a window width of at least 1 the
    run ends and hands every identifier of the list to [processSig] exactly
    once, in list order (an empty list is a run that does nothing). *)
Theorem run_sweeps_the_whole_list E allSigs fuel w :
  nonEmpty (START_FROM_SIG E) = None →
  1 ≤ CONCURRENCY E → (length allSigs ≤ fuel)%nat →
  (run L E allSigs fuel w).1 = Completed ∧
  processed (run L E allSigs fuel w).2 = processed w ++ allSigs.
Proof.
  intros Hs Hc Hfuel. unfold run, selectSigs. rewrite Hs.
  apply (runLoop_processed L E allSigs fuel 0 w); [done | lia | lia].
Qed.

(** X14: with a resume point the run starts at its first occurrence in the
    list: the identifiers before it are not processed, the resume point and
    everything after it are, in list order. *)
Theorem run_resumes_at_first_occurrence E pre post start fuel w :
  START_FROM_SIG E = Some start → start ≠ "" → start ∉ pre →
  1 ≤ CONCURRENCY E → (length (pre ++ start :: post) ≤ fuel)%nat →
  (run L E (pre ++ start :: post) fuel w).1 = Completed ∧
  processed (run L E (pre ++ start :: post) fuel w).2
  = processed w ++ start :: post.
Proof.
  intros Hs Hne Hpre Hc Hfuel.
  destruct (run_resume_present L E (pre ++ start :: post) fuel w start (length pre))
    as [H1 H2]; try done.
  { by apply indexOf_first. }
  split; [done|]. by rewrite H2, drop_app_length.
Qed.

Lemma runLoop_never_ends E sigs fuel : ∀ i w,
  CONCURRENCY E ≤ 0 → i ≤ 0 → sigs ≠ [] →
  (runLoop L E sigs fuel i w).1 = StillRunning.
Proof.
  induction fuel as [|fuel IH]; intros i w Hc Hi Hne; cbn [runLoop].
  - rewrite (proj2 (Z.ltb_lt _ _)); [done|]. destruct sigs; [done | cbn; lia].
  - rewrite (proj2 (Z.ltb_lt i _)); [|destruct sigs; [done | cbn; lia]].
    apply IH; [done | lia | done].
Qed.

(** X15: a window width that is not positive makes the sweep of a non-empty
    list loop for ever: whatever the number of turns allowed, the run has
    not ended. *)
Theorem nonpositive_width_never_ends E allSigs sigs fuel w :
  CONCURRENCY E ≤ 0 → selectSigs E allSigs = Some sigs → sigs ≠ [] →
  (run L E allSigs fuel w).1 = StillRunning.
Proof.
  intros Hc Hsel Hne. unfold run. rewrite Hsel.
  by apply runLoop_never_ends.
Qed.

End PipelineInvariants.

Lemma statsOk_freshWorld : statsOk freshWorld.
Proof. intros k s Hk. cbn in Hk. by rewrite lookup_empty in Hk. Qed.

Lemma stats_stay_consistent_witness :
  statsOk (run libStub (threeRpcEnv 2) ["s1"; "s2"; "s3"] 3 freshWorld).2.
Proof.
  apply (stats_stay_consistent libStub (threeRpcEnv 2) ["s1"; "s2"; "s3"] 3 freshWorld).
  exact statsOk_freshWorld.
Defined.

Lemma fetched_is_cached_witness :
  fetchParsedTx libStub (timeoutEnv None) "tx1"
    (fetchParsedTx libStub (threeRpcEnv 2) "tx1" freshWorld).2
  = (Returned (Some budgetAndTransfer),
     (fetchParsedTx libStub (threeRpcEnv 2) "tx1" freshWorld).2).
Proof.
  apply (fetched_is_cached libStub (threeRpcEnv 2) "tx1" freshWorld budgetAndTransfer).
  - reflexivity.
  - vm_compute. reflexivity.
Defined.

Lemma failed_fetch_writes_nothing_witness :
  files (fetchParsedTx libStub (timeoutEnv None) "tx9" freshWorld).2 = ∅.
Proof.
  apply (failed_fetch_writes_nothing libStub (timeoutEnv None) "tx9" freshWorld
           "Failed to fetch tx9 after 5 attempts").
  vm_compute. reflexivity.
Defined.

Lemma processSig_touches_own_files_witness :
  files (processSig libStub (threeRpcEnv 2) cachedWorld "tx1") !! "data/signatures.csv"
  = None.
Proof.
  rewrite (processSig_touches_own_files libStub (threeRpcEnv 2) cachedWorld "tx1"
             "data/signatures.csv").
  - reflexivity.
  - discriminate.
  - intros k. unfold outPath. cbn [String.append]. discriminate.
Defined.

Lemma run_sweeps_the_whole_list_witness :
  processed (run libStub (threeRpcEnv 2) ["s1"; "s2"; "s3"] 3 freshWorld).2
  = ["s1"; "s2"; "s3"].
Proof.
  apply (run_sweeps_the_whole_list libStub (threeRpcEnv 2) ["s1"; "s2"; "s3"] 3
           freshWorld); [reflexivity | cbn; lia | cbn; lia].
Defined.

Lemma run_resumes_at_first_occurrence_witness :
  processed (run libStub (timeoutEnv (Some "c")) (["a"; "b"] ++ "c" :: ["d"; "c"]) 5
               cachedWorld).2
  = ["c"; "d"; "c"].
Proof.
  apply (run_resumes_at_first_occurrence libStub (timeoutEnv (Some "c"))
           ["a"; "b"] ["d"; "c"] "c" 5 cachedWorld);
    [reflexivity | discriminate | | cbn; lia | cbn; lia].
  intros H. apply list_elem_of_In in H. cbn in H. intuition discriminate.
Defined.

Lemma nonpositive_width_never_ends_witness :
  (run libStub (threeRpcEnv 0) ["s1"] 1000 freshWorld).1 = StillRunning.
Proof.
  apply (nonpositive_width_never_ends libStub (threeRpcEnv 0) ["s1"] ["s1"] 1000
           freshWorld); [cbn; lia | reflexivity | discriminate].
Defined.

(** ** Properties of [safeName] and of the manifest *)

Lemma safeChar_spec c : safeChar c = if isSafeChar c then c else "_"%char.
Proof. reflexivity. Qed.

Lemma isSafeChar_safeChar c : isSafeChar (safeChar c) = true.
Proof. rewrite safeChar_spec. by destruct (isSafeChar c) eqn:Hc. Qed.

Lemma length_substring0 n s :
  String.length (substring 0 n s) = Nat.min n (String.length s).
Proof.
  revert s. induction n as [|n IH]; intros [|c s]; cbn; try done.
  by rewrite IH.
Qed.

Lemma substring0_all n s :
  (String.length s ≤ n)%nat → substring 0 n s = s.
Proof.
  revert s. induction n as [|n IH]; intros [|c s]; cbn; try done; try lia.
  intros H. rewrite IH; [done | lia].
Qed.

Lemma allChars_substring0 p n s :
  allChars p s = true → allChars p (substring 0 n s) = true.
Proof.
  revert s. induction n as [|n IH]; intros [|c s]; cbn; try done.
  intros [Hc Hs]%andb_prop. by rewrite Hc, IH.
Qed.

Lemma allChars_mapChars_safeChar s :
  allChars isSafeChar (mapChars safeChar s) = true.
Proof.
  induction s as [|c s IH]; cbn -[isSafeChar safeChar]; [done|].
  by rewrite isSafeChar_safeChar, IH.
Qed.

Lemma mapChars_safeChar_id s :
  allChars isSafeChar s = true → mapChars safeChar s = s.
Proof.
  induction s as [|c s IH]; cbn -[isSafeChar safeChar]; [done|].
  intros [Hc Hs]%andb_prop. rewrite safeChar_spec, Hc. by rewrite IH.
Qed.

(** X16: a name made by [safeName] has at most 120 characters, all of them
    letters, digits, [_], [.] or [-]; [safeName] changes no name that already
    is of that form, so applying it twice is applying it once. *)
Theorem safeName_is_safe s :
  (String.length (safeName s) ≤ 120)%nat ∧
  allChars isSafeChar (safeName s) = true ∧
  safeName (safeName s) = safeName s ∧
  ((String.length s ≤ 120)%nat → allChars isSafeChar s = true → safeName s = s).
Proof.
  assert (∀ t, (String.length t ≤ 120)%nat → allChars isSafeChar t = true →
               safeName t = t) as Hid.
  { intros t Hlen Hsafe. unfold safeName.
    rewrite mapChars_safeChar_id by done. by apply substring0_all. }
  assert ((String.length (safeName s) ≤ 120)%nat) as Hlen.
  { unfold safeName. rewrite length_substring0. lia. }
  assert (allChars isSafeChar (safeName s) = true) as Hsafe.
  { unfold safeName. apply allChars_substring0, allChars_mapChars_safeChar. }
  split; [done|]. split; [done|]. split; [by apply Hid | exact (Hid s)].
Qed.

Lemma safeName_is_safe_witness :
  safeName "5VERv8NMvzbJMEkV8xnrLkEaWRtSz9CosKDYjCJjBRnb_spl-token.ts"
  = "5VERv8NMvzbJMEkV8xnrLkEaWRtSz9CosKDYjCJjBRnb_spl-token.ts".
Proof.
  apply (proj2 (proj2 (proj2 (safeName_is_safe
    "5VERv8NMvzbJMEkV8xnrLkEaWRtSz9CosKDYjCJjBRnb_spl-token.ts"))));
    [cbn; lia | reflexivity].
Defined.

Lemma allChars_app p a b :
  allChars p (a +:+ b) = allChars p a && allChars p b.
Proof. induction a as [|c a IH]; simpl; [done|]. by rewrite IH, andb_assoc. Qed.

Lemma mapChars_app f a b : mapChars f (a +:+ b) = mapChars f a +:+ mapChars f b.
Proof. induction a as [|c a IH]; simpl; [done|]. by rewrite IH. Qed.

Lemma length_mapChars f s : String.length (mapChars f s) = String.length s.
Proof. induction s as [|c s IH]; cbn; [done|]. by rewrite IH. Qed.

Lemma string_length_app a b :
  String.length (a +:+ b) = (String.length a + String.length b)%nat.
Proof. induction a as [|c a IH]; simpl; [done|]. by rewrite IH. Qed.

Lemma allChars_impl (p q : ascii → bool) s :
  (∀ c, p c = true → q c = true) → allChars p s = true → allChars q s = true.
Proof.
  intros Hpq. induction s as [|c s IH]; cbn; [done|].
  intros [Hc Hs]%andb_prop. by rewrite (Hpq c Hc), IH.
Qed.

Lemma substring0_app k x : substring 0 (String.length k) (k +:+ x) = k.
Proof.
  induction k as [|c k IH]; simpl; [by destruct x|]. by rewrite IH.
Qed.

Lemma substring_skip_app k m x :
  substring (String.length k) m (k +:+ x) = substring 0 m x.
Proof. induction k as [|c k IH]; simpl; [done|]. exact IH. Qed.

Lemma afterLastUnderscore_none t :
  allChars notUnderscore t = true → afterLastUnderscore t = None.
Proof.
  induction t as [|c t IH]; cbn; [done|].
  intros [Hc Ht]%andb_prop. rewrite IH by done.
  unfold notUnderscore in Hc. by destruct (Ascii.eqb c "_").
Qed.

Lemma afterLastUnderscore_app a t :
  allChars notUnderscore t = true →
  afterLastUnderscore (a +:+ "_" +:+ t) = Some t.
Proof.
  intros Ht. induction a as [|c a IH].
  - change (afterLastUnderscore (String "_" t) = Some t).
    simpl. by rewrite (afterLastUnderscore_none t Ht).
  - change (afterLastUnderscore (String c (a +:+ "_" +:+ t)) = Some t).
    simpl. by rewrite IH.
Qed.

Lemma endsWith_app k suffix : endsWith suffix (k +:+ suffix) = true.
Proof.
  unfold endsWith. rewrite string_length_app.
  rewrite (proj2 (Nat.leb_le _ _)) by lia.
  replace (String.length k + String.length suffix - String.length suffix)%nat
    with (String.length k) by lia.
  rewrite substring_skip_app, substring0_all by done.
  by rewrite String.eqb_refl.
Qed.

(** A file name made of an identifier, an underscore, a tag and [.ts] gives
    its tag back. *)
Lemma manifestKind_of_name a k :
  k ≠ "" → allChars notUnderscore k = true →
  manifestKind (a +:+ "_" +:+ k +:+ ".ts") = k.
Proof.
  intros Hk Hnu. unfold manifestKind.
  rewrite afterLastUnderscore_app by (by rewrite allChars_app, Hnu).
  rewrite endsWith_app, string_length_app. cbn [String.length andb].
  destruct k as [|c k]; [done|]. cbn [String.length].
  rewrite (proj2 (Nat.ltb_lt _ _)) by lia.
  replace (S (String.length k) + 3 - 3)%nat with (String.length (String c k))
    by (cbn; lia).
  apply substring0_app.
Qed.

Lemma pretty_N_go_tag (x : N) : ∀ s,
  allChars isTagChar s = true → allChars isTagChar (pretty_N_go x s) = true.
Proof.
  induction (N.lt_wf_0 x) as [x _ IH]; intros s Hs.
  destruct (decide (x = 0)%N) as [->|Hx]; [by rewrite pretty_N_go_0|].
  rewrite pretty_N_go_step by lia.
  apply IH; [apply N.div_lt; lia|].
  cbn [allChars]. rewrite Hs, andb_true_r.
  unfold pretty_N_char. by repeat case_match.
Qed.

Lemma pretty_nat_tag (n : nat) : allChars isTagChar (pretty n) = true.
Proof.
  unfold pretty, pretty_nat, pretty, pretty_N.
  case_decide as Hn; [done|]. by apply pretty_N_go_tag.
Qed.

Lemma isTagChar_safe c : isTagChar c = true → isSafeChar c = true.
Proof. unfold isTagChar. by intros [? ?]%andb_prop. Qed.

Lemma isTagChar_notUnderscore c : isTagChar c = true → notUnderscore c = true.
Proof. unfold isTagChar. by intros [? ?]%andb_prop. Qed.

Lemma classify_tag (l : list Instruction) :
  allChars isTagChar (classify l) = true ∧ classify l ≠ "".
Proof.
  destruct l as [|i [|j l]].
  - done.
  - cbn [classify]. by repeat case_match.
  - cbn [classify]. split; [|done].
    rewrite allChars_app, pretty_nat_tag. done.
Qed.

(** X17: the manifest reads the classification back from the name of the
    file that [processSig] writes: when identifier, tag and extension fit in
    the 120 characters that [safeName] keeps, the kind recorded for
    [safeName(`${sig}_${kind}.ts`)] is the tag computed by the classifier,
    whatever characters the identifier has. *)
Theorem manifest_recovers_kind sg raw c :
  normalize sg raw = Returned (Some c) →
  (String.length sg + String.length (kind c) + 4 ≤ 120)%nat →
  manifestKind (safeName (sg +:+ "_" +:+ kind c +:+ ".ts")) = kind c.
Proof.
  intros [_ [st [_ ->]]]%normalize_Some. cbn [kind].
  set (k := classify (detailedInstructions st)). intros Hlen.
  destruct (classify_tag (detailedInstructions st)) as [Htag Hne]. fold k in Htag, Hne.
  assert (safeName (sg +:+ "_" +:+ k +:+ ".ts")
          = mapChars safeChar sg +:+ "_" +:+ k +:+ ".ts") as ->.
  { unfold safeName. rewrite !mapChars_app.
    rewrite (mapChars_safeChar_id k)
      by (eapply allChars_impl; [apply isTagChar_safe | done]).
    change (mapChars safeChar "_") with "_".
    change (mapChars safeChar ".ts") with ".ts".
    apply substring0_all.
    rewrite !string_length_app, length_mapChars. cbn [String.length]. lia. }
  apply manifestKind_of_name; [done|].
  eapply allChars_impl; [apply isTagChar_notUnderscore | done].
Qed.

Lemma manifest_recovers_kind_witness :
  manifestKind (safeName ("5VERv8NMvzbJ/MEkV8" +:+ "_" +:+ "spl-token" +:+ ".ts"))
  = "spl-token".
Proof.
  apply (manifest_recovers_kind "5VERv8NMvzbJ/MEkV8"
           (rawOf (messageOfInstrs [tokenInstr]))
           {| kind := "spl-token";
              params := {| sig := "5VERv8NMvzbJ/MEkV8";
                           rp_instructions :=
                             [ {| programId := TOKEN_PROGRAM_ID;
                                  description := "SPL Token instruction";
                                  keys := []; data := "" |} ];
                           accounts := [TOKEN_PROGRAM_ID];
                           computeBudget := None |} |});
    [vm_compute; reflexivity | cbn; lia].
Defined.

(** ** Properties of the identifier list and of the script that writes it *)

Lemma splitOn_cons sep s : ∃ p ps, splitOn sep s = p :: ps.
Proof.
  induction s as [|c s [p [ps IH]]]; simpl; [by eexists _, _|].
  destruct (Ascii.eqb c sep); [by eexists _, _|]. rewrite IH. by eexists _, _.
Qed.

(** Splitting a text at one of its separators splits the pieces. *)
Lemma splitOn_app_sep sep a b :
  splitOn sep (a +:+ String sep b) = splitOn sep a ++ splitOn sep b.
Proof.
  induction a as [|c a IH]; simpl.
  - by rewrite Ascii.eqb_refl.
  - destruct (Ascii.eqb c sep); [by rewrite IH|].
    rewrite IH. by destruct (splitOn_cons sep a) as (p & ps & ->).
Qed.

Lemma splitOn_no_sep sep s :
  allChars (λ c, negb (Ascii.eqb c sep)) s = true → splitOn sep s = [s].
Proof.
  induction s as [|c s IH]; simpl; [done|].
  intros [Hc Hs]%andb_prop. apply negb_true_iff in Hc. rewrite Hc.
  by rewrite IH.
Qed.

(** The pieces are free of the separator, and of whatever the text is free
    of. *)
Lemma splitOn_pieces sep (q : ascii → bool) s p :
  p ∈ splitOn sep s →
  allChars (λ c, negb (Ascii.eqb c sep)) p = true ∧
  (allChars q s = true → allChars q p = true).
Proof.
  revert p. induction s as [|c s IH]; simpl; intros p Hp.
  - apply list_elem_of_singleton in Hp. by subst.
  - destruct (Ascii.eqb c sep) eqn:Hc.
    + apply elem_of_cons in Hp as [->|Hp]; [done|].
      destruct (IH p Hp) as [H1 H2]. split; [done|].
      intros [_ Hs]%andb_prop. by apply H2.
    + destruct (splitOn_cons sep s) as (p0 & ps & Hsplit). rewrite Hsplit in *.
      apply elem_of_cons in Hp as [->|Hp].
      * destruct (IH p0 (list_elem_of_here _ _)) as [H1 H2]. simpl.
        rewrite Hc, H1. split; [done|].
        intros [Hqc Hs]%andb_prop. by rewrite Hqc, H2.
      * destruct (IH p (list_elem_of_further _ _ _ Hp)) as [H1 H2].
        split; [done|]. intros [_ Hs]%andb_prop. by apply H2.
Qed.

Lemma joinLines_cons x y rest :
  joinLines (x :: y :: rest) = x +:+ String LF (joinLines (y :: rest)).
Proof. reflexivity. Qed.

Lemma splitOn_joinLines (l : list string) :
  l ≠ [] →
  Forall (λ s, allChars (λ c, negb (Ascii.eqb c LF)) s = true) l →
  splitOn LF (joinLines l) = l.
Proof.
  induction l as [|x [|y rest] IH]; intros Hne Hall; [done| |].
  - apply Forall_cons in Hall as [Hx _]. by apply splitOn_no_sep.
  - apply Forall_cons in Hall as [Hx Hrest].
    rewrite joinLines_cons, splitOn_app_sep, (splitOn_no_sep _ _ Hx).
    by rewrite IH.
Qed.

Lemma string_app_assoc (a b c : string) : (a +:+ b) +:+ c = a +:+ b +:+ c.
Proof.
  induction a as [|ch a IH]; [done|].
  change (String ch ((a +:+ b) +:+ c) = String ch (a +:+ b +:+ c)). by f_equal.
Qed.

Lemma string_app_nil_r (a : string) : a +:+ "" = a.
Proof.
  induction a as [|ch a IH]; [done|].
  change (String ch (a +:+ "") = String ch a). by f_equal.
Qed.

(** The lines of a text written as [lines.join('\n') + '\n']. *)
Lemma splitOn_written (l : list string) :
  l ≠ [] →
  Forall (λ s, allChars (λ c, negb (Ascii.eqb c LF)) s = true) l →
  splitOn LF (joinLines l +:+ String LF "") = l ++ [""].
Proof.
  intros Hne Hall. by rewrite splitOn_app_sep, splitOn_joinLines.
Qed.

Lemma plainChar_noSpace c : plainChar c = true → isSpace c = false.
Proof. destruct c as [[] [] [] [] [] [] [] []]; vm_compute; congruence. Qed.

Lemma plainChar_noComma c : plainChar c = true → negb (Ascii.eqb c COMMA) = true.
Proof. unfold plainChar. by intros [_ H]%andb_prop. Qed.

Lemma plainChar_noLF c : plainChar c = true → negb (Ascii.eqb c LF) = true.
Proof. destruct c as [[] [] [] [] [] [] [] []]; vm_compute; congruence. Qed.

Lemma dropFinalCR_plain s :
  allChars plainChar s = true → dropFinalCR s = s.
Proof.
  induction s as [|c s IH]; simpl; [done|].
  intros [Hc Hs]%andb_prop. destruct s as [|c' s'].
  - destruct (Ascii.eqb_spec c CR) as [->|]; [done|done].
  - by rewrite IH.
Qed.

Lemma stripSeparatorCR_plain (l : list string) :
  Forall (λ s, allChars plainChar s = true) l → stripSeparatorCR l = l.
Proof.
  induction l as [|x [|y rest] IH]; intros Hall; [done|done|].
  apply Forall_cons in Hall as [Hx Hrest].
  change (dropFinalCR x :: stripSeparatorCR (y :: rest) = x :: y :: rest).
  by rewrite dropFinalCR_plain, IH.
Qed.

Lemma trimEnd_plain s : allChars plainChar s = true → trimEnd s = s.
Proof.
  induction s as [|c s IH]; simpl; [done|].
  intros [Hc Hs]%andb_prop. rewrite IH by done.
  rewrite (plainChar_noSpace c Hc). by destruct s.
Qed.

Lemma trim_plain s : allChars plainChar s = true → trim s = s.
Proof.
  intros Hs. unfold trim.
  assert (trimStart s = s) as ->; [|by apply trimEnd_plain].
  destruct s as [|c s]; [done|]. simpl in *.
  apply andb_prop in Hs as [Hc _]. by rewrite (plainChar_noSpace c Hc).
Qed.

Lemma firstField_plain s : allChars plainChar s = true → firstField s = s.
Proof.
  intros Hs. unfold firstField. rewrite splitOn_no_sep; [done|].
  eapply allChars_impl; [apply plainChar_noComma | done].
Qed.

Lemma filter_Forall {A} (P : A → Prop) `{∀ x, Decision (P x)} (l : list A) :
  Forall P l → filter P l = l.
Proof.
  induction 1 as [|x l Hx Hl IH]; [done|].
  rewrite filter_cons_True by done. by rewrite IH.
Qed.

(** The identifiers read from a file written as a header line and one clean
    identifier per line are those identifiers. *)
Lemma parseSigs_written (sigs : list string) :
  Forall cleanSig sigs →
  parseSigs (joinLines ("signature" :: sigs) +:+ String LF "") = sigs.
Proof.
  intros Hclean.
  assert (Forall (λ s, allChars plainChar s = true) ("signature" :: sigs)) as Hplain.
  { constructor; [done|]. eapply Forall_impl; [exact Hclean|]. by intros s (_ & H & _). }
  unfold parseSigs, splitLines.
  rewrite splitOn_written; [|done|].
  2:{ eapply Forall_impl; [exact Hplain|]. intros s Hs.
      eapply allChars_impl; [apply plainChar_noLF | done]. }
  assert (Forall (λ s, allChars plainChar s = true) (("signature" :: sigs) ++ [""]))
    as Hplain' by (apply Forall_app; split; [done | by constructor]).
  rewrite stripSeparatorCR_plain by done.
  assert (trim <$> ("signature" :: sigs) ++ [""] = ("signature" :: sigs) ++ [""]) as ->.
  { clear -Hplain'. induction Hplain' as [|x l Hx Hl IH]; [done|].
    rewrite fmap_cons, IH. by rewrite trim_plain. }
  rewrite filter_app, (filter_cons_False _ "") by (by intros H; apply H).
  rewrite filter_nil, app_nil_r.
  rewrite filter_cons_True by done.
  rewrite (filter_Forall _ sigs)
    by (eapply Forall_impl; [exact Hclean|]; by intros s (H & _)).
  assert (firstField <$> "signature" :: sigs = "signature" :: sigs) as ->.
  { clear -Hplain. induction Hplain as [|x l Hx Hl IH]; [done|].
    rewrite fmap_cons, IH. by rewrite firstField_plain. }
  rewrite filter_cons_False by (intros (_ & _ & H); done).
  apply filter_Forall.
  eapply Forall_impl; [exact Hclean|]. by intros s (H1 & _ & H2 & H3).
Qed.

Lemma insertByTime_Permutation x l : insertByTime x l ≡ₚ x :: l.
Proof.
  induction l as [|y l IH]; simpl; [done|].
  destruct (timeKey y <? timeKey x); [done|].
  rewrite IH. apply Permutation_swap.
Qed.

Lemma insertByTime_sorted x l :
  StronglySorted notOlder l → StronglySorted notOlder (insertByTime x l).
Proof.
  induction l as [|y l IH]; simpl; intros Hs.
  - repeat constructor.
  - apply StronglySorted_inv in Hs as [Hl Hy].
    destruct (timeKey y <? timeKey x) eqn:Hlt.
    + apply Z.ltb_lt in Hlt. constructor; [by constructor|].
      constructor; [unfold notOlder; lia|].
      eapply Forall_impl; [exact Hy|]. unfold notOlder. intros z Hz. lia.
    + apply Z.ltb_ge in Hlt. constructor; [by apply IH|].
      rewrite insertByTime_Permutation. by constructor.
Qed.

Lemma sort_fold acc l :
  foldl (λ acc x, insertByTime x acc) acc l ≡ₚ acc ++ l ∧
  (StronglySorted notOlder acc →
   StronglySorted notOlder (foldl (λ acc x, insertByTime x acc) acc l)).
Proof.
  revert acc. induction l as [|x l IH]; intros acc; simpl.
  - by rewrite app_nil_r.
  - destruct (IH (insertByTime x acc)) as [H1 H2]. split.
    + rewrite H1, insertByTime_Permutation. apply Permutation_middle.
    + intros Hs. by apply H2, insertByTime_sorted.
Qed.

Lemma sortByTimeDesc_Permutation (l : list SigDetail) : sortByTimeDesc l ≡ₚ l.
Proof. unfold sortByTimeDesc. by destruct (sort_fold [] l) as [H _]. Qed.

(** X18: the signatures are put in the order newest first, a missing block
    time counting as 0: the sorted list has the same entries as the list
    collected, each as often, and no entry comes before a newer one. *)
Theorem signatures_are_sorted_newest_first (l : list SigDetail) :
  sortByTimeDesc l ≡ₚ l ∧ StronglySorted notOlder (sortByTimeDesc l).
Proof.
  unfold sortByTimeDesc. destruct (sort_fold [] l) as [H1 H2].
  split; [done|]. apply H2. constructor.
Qed.

Lemma clean_sorted (signatures : list SigDetail) :
  Forall (λ d, cleanSig (signature d)) signatures →
  Forall cleanSig (signature <$> sortByTimeDesc signatures).
Proof.
  intros H. apply Forall_fmap. by rewrite sortByTimeDesc_Permutation.
Qed.

(** X19: the two scripts agree on the file format: when the signature file
    does not exist yet and every signature is clean (a non-empty text of
    printable ASCII characters without blank or comma, not starting like
    the header or like a comment), the
    identifiers that the extraction script reads from the file written by
    [saveSignaturesToCSV] are exactly the signatures saved, newest first;
    the header line is not taken for an identifier. *)
Theorem saved_signatures_are_read_back signatures fs :
  fs !! OUTPUT_FILE = None →
  Forall (λ d, cleanSig (signature d)) signatures →
  ∃ content,
    saveSignaturesToCSV signatures fs !! OUTPUT_FILE = Some content ∧
    parseSigs content = signature <$> sortByTimeDesc signatures.
Proof.
  intros Hnone Hclean. unfold saveSignaturesToCSV. rewrite Hnone.
  eexists. split; [apply lookup_insert_eq|].
  by apply parseSigs_written, clean_sorted.
Qed.

Lemma saved_signatures_are_read_back_witness :
  ∃ content,
    saveSignaturesToCSV [sigOld; sigNew] ∅ !! OUTPUT_FILE = Some content ∧
    parseSigs content = ["5yNew"; "3xOld"].
Proof.
  apply (saved_signatures_are_read_back [sigOld; sigNew] ∅); [reflexivity|].
  repeat constructor; discriminate.
Defined.

(** *** Merging into an existing file *)

Lemma existingSignatures_app old x :
  lineTerminated old →
  existingSignatures (old +:+ x) = existingSignatures old ++ existingSignatures x.
Proof.
  intros [-> | [body ->]]; [done|].
  unfold existingSignatures.
  rewrite string_app_assoc. change (String LF "" +:+ x) with (String LF x).
  rewrite !splitOn_app_sep, !filter_app, !fmap_app.
  change (splitOn LF "") with [""].
  rewrite (filter_cons_False _ "") by (by intros [H _]; apply H).
  by rewrite filter_nil, fmap_nil, app_nil_r.
Qed.

Lemma existingSignatures_written (sigs : list string) :
  sigs ≠ [] → Forall cleanSig sigs →
  existingSignatures (joinLines sigs +:+ String LF "") = sigs.
Proof.
  intros Hne Hclean.
  assert (Forall (λ s, allChars plainChar s = true) sigs) as Hplain.
  { eapply Forall_impl; [exact Hclean|]. by intros s (_ & H & _). }
  unfold existingSignatures. rewrite splitOn_written; [|done|].
  2:{ eapply Forall_impl; [exact Hplain|]. intros s Hs.
      eapply allChars_impl; [apply plainChar_noLF | done]. }
  rewrite filter_app, (filter_cons_False _ "") by (by intros [H _]; apply H).
  rewrite filter_nil, app_nil_r.
  rewrite filter_Forall.
  - clear -Hplain. induction Hplain as [|x l Hx Hl IH]; [done|].
    rewrite fmap_cons, IH. by rewrite firstField_plain.
  - eapply Forall_impl; [exact Hclean|]. intros s (H1 & H2 & H3 & _).
    by rewrite trim_plain.
Qed.

Lemma existingSignatures_new_file (sigs : list string) :
  Forall cleanSig sigs →
  existingSignatures (joinLines ("signature" :: sigs) +:+ String LF "") = sigs.
Proof.
  intros Hclean. destruct sigs as [|s sigs]; [done|].
  change (joinLines ("signature" :: s :: sigs))
    with ("signature" +:+ String LF (joinLines (s :: sigs))).
  rewrite string_app_assoc.
  change (String LF (joinLines (s :: sigs)) +:+ String LF "")
    with (String LF (joinLines (s :: sigs) +:+ String LF "")).
  pose proof (existingSignatures_written (s :: sigs) ltac:(done) Hclean) as Hw.
  unfold existingSignatures in *.
  rewrite splitOn_app_sep, filter_app, fmap_app, Hw.
  change (splitOn LF "signature") with ["signature"].
  by rewrite filter_cons_False by (by intros [_ H]).
Qed.

Lemma filter_nil_iff {A} (P : A → Prop) `{∀ x, Decision (P x)} (l : list A) :
  filter P l = [] ↔ Forall (λ x, ¬ P x) l.
Proof.
  induction l as [|x l IH]; [by split; [constructor|]|].
  destruct (decide (P x)) as [Hx|Hx].
  - rewrite filter_cons_True by done. split; [done|].
    intros [Hnx _]%Forall_cons. done.
  - rewrite filter_cons_False by done. rewrite IH. split.
    + by constructor.
    + by intros [_ ?]%Forall_cons.
Qed.

Lemma filter_Forall_keep {A} (P Q : A → Prop) `{∀ x, Decision (P x)} (l : list A) :
  Forall Q l → Forall Q (filter P l).
Proof.
  induction 1 as [|x l Hx Hl IH]; [constructor|].
  destruct (decide (P x)).
  - rewrite filter_cons_True by done. by constructor.
  - by rewrite filter_cons_False by done.
Qed.

(** The text of the file after a merge that adds [new]. *)
Lemma merged_text old (new : list SigDetail) :
  lineTerminated old → new ≠ [] →
  Forall (λ d, cleanSig (signature d)) new →
  lineTerminated (old +:+ joinLines (signature <$> new) +:+ String LF "") ∧
  existingSignatures (old +:+ joinLines (signature <$> new) +:+ String LF "")
  = existingSignatures old ++ (signature <$> new).
Proof.
  intros Hterm Hne Hclean. split.
  - right. eexists. by rewrite <- string_app_assoc.
  - rewrite existingSignatures_app by done. f_equal.
    apply existingSignatures_written; [by destruct new | by apply Forall_fmap].
Qed.

(** X20: merging into an existing file that is empty or ends with a line
    feed keeps what the file records and adds, after it and newest first,
    the clean signatures that it did not record; the file again ends with a
    line feed. *)
Theorem merge_records_old_then_new signatures fs old :
  fs !! OUTPUT_FILE = Some old → lineTerminated old →
  Forall (λ d, cleanSig (signature d)) signatures →
  ∃ content,
    saveSignaturesToCSV signatures fs !! OUTPUT_FILE = Some content ∧
    lineTerminated content ∧
    existingSignatures content
    = existingSignatures old ++
      (signature <$> filter (λ d, signature d ∉ existingSignatures old)
                       (sortByTimeDesc signatures)).
Proof.
  intros Hold Hterm Hclean. unfold saveSignaturesToCSV. rewrite Hold.
  pose proof (filter_Forall_keep (λ d, signature d ∉ existingSignatures old) _ _
                (proj1 (Forall_fmap _ _ _) (clean_sorted _ Hclean))) as Hnewclean.
  destruct (filter _ (sortByTimeDesc signatures)) as [|d new] eqn:Hnew.
  - exists old. by rewrite app_nil_r.
  - eexists. split; [apply lookup_insert_eq|].
    by apply merged_text.
Qed.

Lemma merge_records_old_then_new_witness :
  ∃ content,
    saveSignaturesToCSV [sigOld; sigNew]
      (saveSignaturesToCSV [sigOld] ∅) !! OUTPUT_FILE = Some content ∧
    lineTerminated content ∧
    existingSignatures content = ["3xOld"; "5yNew"].
Proof.
  apply (merge_records_old_then_new [sigOld; sigNew] (saveSignaturesToCSV [sigOld] ∅)
           (joinLines ["signature"; "3xOld"] +:+ String LF "")).
  - reflexivity.
  - right. by eexists.
  - repeat constructor; discriminate.
Defined.

Lemma save_nothing_new signatures fs content :
  fs !! OUTPUT_FILE = Some content →
  Forall (λ d, signature d ∈ existingSignatures content) (sortByTimeDesc signatures) →
  saveSignaturesToCSV signatures fs = fs.
Proof.
  intros Hc Hall. unfold saveSignaturesToCSV. rewrite Hc.
  assert (filter (λ d, signature d ∉ existingSignatures content)
            (sortByTimeDesc signatures) = []) as ->; [|done].
  apply filter_nil_iff. eapply Forall_impl; [exact Hall|]. by intros d Hd Hn.
Qed.

(** X21: saving the same signatures a second time changes nothing, provided
    the signatures are clean and the file, if it existed, was empty or ended
    with a line feed: every signature is then found in the file and none is
    appended again. *)
Theorem save_twice_is_save_once signatures fs :
  (∀ old, fs !! OUTPUT_FILE = Some old → lineTerminated old) →
  Forall (λ d, cleanSig (signature d)) signatures →
  saveSignaturesToCSV signatures (saveSignaturesToCSV signatures fs)
  = saveSignaturesToCSV signatures fs.
Proof.
  intros Hterm Hclean.
  destruct (fs !! OUTPUT_FILE) as [old|] eqn:Hold.
  - pose proof (filter_Forall_keep (λ d, signature d ∉ existingSignatures old) _ _
                  (proj1 (Forall_fmap _ _ _) (clean_sorted _ Hclean))) as Hnewclean.
    assert (∃ content,
              saveSignaturesToCSV signatures fs !! OUTPUT_FILE = Some content ∧
              existingSignatures content
              = existingSignatures old ++
                (signature <$> filter (λ d, signature d ∉ existingSignatures old)
                                 (sortByTimeDesc signatures))) as (content & Hc & Hex).
    { unfold saveSignaturesToCSV. rewrite Hold.
      destruct (filter _ (sortByTimeDesc signatures)) as [|d new] eqn:Hnew.
      - exists old. by rewrite app_nil_r.
      - eexists. split; [apply lookup_insert_eq|].
        by apply merged_text; [apply Hterm | |]. }
    apply (save_nothing_new _ _ content Hc). rewrite Hex.
    apply Forall_forall. intros d Hd.
    destruct (decide (signature d ∈ existingSignatures old)) as [Hin|Hnin].
    + apply elem_of_app. by left.
    + apply elem_of_app. right. apply list_elem_of_fmap. exists d. split; [done|].
      by apply list_elem_of_filter.
  - assert (saveSignaturesToCSV signatures fs !! OUTPUT_FILE
            = Some (joinLines ("signature" :: (signature <$> sortByTimeDesc signatures))
                    +:+ String LF "")) as Hc.
    { unfold saveSignaturesToCSV. rewrite Hold. apply lookup_insert_eq. }
    apply (save_nothing_new _ _ _ Hc).
    rewrite existingSignatures_new_file by (by apply clean_sorted).
    apply Forall_forall. intros d Hd. by apply list_elem_of_fmap_2.
Qed.

Lemma save_twice_is_save_once_witness :
  saveSignaturesToCSV [sigOld; sigNew] (saveSignaturesToCSV [sigOld; sigNew] ∅)
  = saveSignaturesToCSV [sigOld; sigNew] ∅.
Proof.
  apply (save_twice_is_save_once [sigOld; sigNew] ∅).
  - intros old H. by rewrite lookup_empty in H.
  - repeat constructor; discriminate.
Defined.

(** *** Collecting the signatures *)

Lemma addSignature_inv dexName programAddress sigs : ∀ st,
  st.1 = signature <$> st.2 → NoDup st.1 →
  let st' := foldl (addSignature dexName programAddress) st sigs in
  st'.1 = signature <$> st'.2 ∧ NoDup st'.1 ∧
  ∀ s, s ∈ st'.1 ↔ s ∈ st.1 ∨ ∃ sg, sg ∈ sigs ∧ si_signature sg = s.
Proof.
  induction sigs as [|sg sigs IH]; intros st Heq Hnd; cbn [foldl].
  - split; [done|]. split; [done|]. intros s. split; [by left|].
    intros [H | (sg & Hsg & _)]; [done | by apply elem_of_nil in Hsg].
  - assert ((addSignature dexName programAddress st sg).1
            = signature <$> (addSignature dexName programAddress st sg).2 ∧
            NoDup (addSignature dexName programAddress st sg).1 ∧
            ∀ s, s ∈ (addSignature dexName programAddress st sg).1 ↔
                 s ∈ st.1 ∨ si_signature sg = s) as (H1 & H2 & H3).
    { unfold addSignature. case_bool_decide as Hin.
      - split; [done|]. split; [done|]. intros s. split; [by left|].
        intros [H | <-]; done.
      - cbn. split; [by rewrite fmap_app, Heq|]. split.
        + apply NoDup_app. split; [done|]. split; [|apply NoDup_singleton].
          intros x Hx Hx'. apply list_elem_of_singleton in Hx'. by subst.
        + intros s. rewrite elem_of_app, list_elem_of_singleton.
          split; (intros [H | H]; [by left | by right]). }
    destruct (IH _ H1 H2) as (H4 & H5 & H6).
    split; [done|]. split; [done|]. intros s. rewrite H6, H3. split.
    + intros [[H | <-] | (sg' & Hsg' & <-)]; [by left | right.. ].
      * exists sg. split; [apply list_elem_of_here | done].
      * exists sg'. split; [by apply list_elem_of_further | done].
    + intros [H | (sg' & [->|Hsg']%elem_of_cons & <-)];
        [by left; left | by left; right | right; by exists sg'].
Qed.

Lemma collect_inv fetched programs : ∀ st,
  st.1 = signature <$> st.2 → NoDup st.1 →
  let st' := foldl (λ st p, foldl (addSignature p.1 p.2) st (fetched p.2)) st programs in
  st'.1 = signature <$> st'.2 ∧ NoDup st'.1 ∧
  ∀ s, s ∈ st'.1 ↔
       s ∈ st.1 ∨ ∃ p sg, p ∈ programs ∧ sg ∈ fetched p.2 ∧ si_signature sg = s.
Proof.
  induction programs as [|p programs IH]; intros st Heq Hnd; cbn [foldl].
  - split; [done|]. split; [done|]. intros s. split; [by left|].
    intros [H | (p & sg & Hp & _)]; [done | by apply elem_of_nil in Hp].
  - destruct (addSignature_inv p.1 p.2 (fetched p.2) st Heq Hnd) as (H1 & H2 & H3).
    destruct (IH _ H1 H2) as (H4 & H5 & H6).
    split; [done|]. split; [done|]. intros s. rewrite H6, H3. split.
    + intros [[H | (sg & Hsg & <-)] | (p' & sg & Hp' & Hsg & <-)]; [by left | right..].
      * exists p, sg. split; [apply list_elem_of_here | done].
      * exists p', sg. split; [by apply list_elem_of_further | done].
    + intros [H | (p' & sg & [->|Hp']%elem_of_cons & Hsg & <-)].
      * by left; left.
      * left; right. by exists sg.
      * right. by exists p', sg.
Qed.

(** X22: the signatures collected over the programs are those that the
    provider returned for some program, each kept once however many
    programs returned it. *)
Theorem collected_signatures_are_unique fetched programs :
  NoDup (signature <$> collectSignatures fetched programs) ∧
  ∀ s, s ∈ signature <$> collectSignatures fetched programs ↔
       ∃ p sg, p ∈ programs ∧ sg ∈ fetched p.2 ∧ si_signature sg = s.
Proof.
  unfold collectSignatures.
  destruct (collect_inv fetched programs ([], []) eq_refl (NoDup_nil_2))
    as (H1 & H2 & H3).
  rewrite <- H1. split; [done|]. intros s. rewrite H3. split.
  - intros [H | H]; [by apply elem_of_nil in H | done].
  - by right.
Qed.

(** *** What the extraction script reads *)

Lemma allChars_dropFinalCR q s :
  allChars q s = true → allChars q (dropFinalCR s) = true.
Proof.
  induction s as [|c s IH]; simpl; [done|].
  intros [Hc Hs]%andb_prop. destruct s as [|c' s'].
  - destruct (Ascii.eqb c CR); [done|]. simpl. by rewrite Hc.
  - change (q c && allChars q (dropFinalCR (String c' s')) = true).
    by rewrite Hc, IH.
Qed.

Lemma allChars_trimStart q s :
  allChars q s = true → allChars q (trimStart s) = true.
Proof.
  induction s as [|c s IH]; simpl; [done|].
  intros [Hc Hs]%andb_prop. destruct (isSpace c); [by apply IH|].
  simpl. by rewrite Hc, Hs.
Qed.

Lemma allChars_trimEnd q s :
  allChars q s = true → allChars q (trimEnd s) = true.
Proof.
  induction s as [|c s IH]; simpl; [done|].
  intros [Hc Hs]%andb_prop. specialize (IH Hs).
  destruct (trimEnd s) as [|c' t].
  - destruct (isSpace c); [done|]. simpl. by rewrite Hc.
  - change (q c && allChars q (String c' t) = true). by rewrite Hc, IH.
Qed.

Lemma stripSeparatorCR_elem (l : list string) p :
  p ∈ stripSeparatorCR l → ∃ p0, p0 ∈ l ∧ (p = p0 ∨ p = dropFinalCR p0).
Proof.
  induction l as [|x [|y rest] IH]; intros Hp.
  - by apply elem_of_nil in Hp.
  - exists x. apply list_elem_of_singleton in Hp. subst.
    split; [apply list_elem_of_here | by left].
  - change (p ∈ dropFinalCR x :: stripSeparatorCR (y :: rest)) in Hp.
    apply elem_of_cons in Hp as [->|Hp].
    + exists x. split; [apply list_elem_of_here | by right].
    + destruct (IH Hp) as (p0 & Hp0 & H). exists p0.
      split; [by apply list_elem_of_further | done].
Qed.

Lemma firstField_chars (q : ascii → bool) l :
  allChars (λ c, negb (Ascii.eqb c COMMA)) (firstField l) = true ∧
  (allChars q l = true → allChars q (firstField l) = true).
Proof.
  unfold firstField. destruct (splitOn_cons COMMA l) as (p & ps & Hsplit).
  rewrite Hsplit. cbn [head default].
  apply (splitOn_pieces COMMA q l p). rewrite Hsplit. apply list_elem_of_here.
Qed.

(** X23: whatever the text of the CSV file, every identifier that the
    extraction script takes from it is not empty, holds no comma and no line
    feed, and starts neither with [#] nor with [signature]: blank lines,
    comment lines and the header line never become identifiers. *)
Theorem parsed_identifiers_are_wellformed content id :
  id ∈ parseSigs content →
  id ≠ "" ∧
  allChars (λ c, negb (Ascii.eqb c COMMA)) id = true ∧
  allChars (λ c, negb (Ascii.eqb c LF)) id = true ∧
  String.prefix "#" id = false ∧
  String.prefix "signature" id = false.
Proof.
  unfold parseSigs. intros Hid.
  apply list_elem_of_filter in Hid as [(Hne & Hhash & Hsig) Hid].
  apply list_elem_of_fmap in Hid as (line & -> & Hline).
  apply list_elem_of_filter in Hline as [_ Hline].
  apply list_elem_of_fmap in Hline as (raw & -> & Hraw).
  unfold splitLines in Hraw.
  apply stripSeparatorCR_elem in Hraw as (p0 & Hp0 & Hraw).
  destruct (splitOn_pieces LF (λ _, true) content p0 Hp0) as [HnoLF _].
  assert (allChars (λ c, negb (Ascii.eqb c LF)) raw = true) as Hraw'.
  { destruct Hraw as [-> | ->]; [done | by apply allChars_dropFinalCR]. }
  split; [done|]. split; [apply (firstField_chars (λ _, true))|].
  split; [|done].
  apply firstField_chars. unfold trim. by apply allChars_trimEnd, allChars_trimStart.
Qed.

Lemma parsed_identifiers_are_wellformed_witness :
  "5yNew" ≠ "" ∧
  allChars (λ c, negb (Ascii.eqb c COMMA)) "5yNew" = true ∧
  allChars (λ c, negb (Ascii.eqb c LF)) "5yNew" = true ∧
  String.prefix "#" "5yNew" = false ∧
  String.prefix "signature" "5yNew" = false.
Proof.
  apply (parsed_identifiers_are_wellformed
           ("signature" +:+ String LF ("# newest" +:+ String LF
              (" 5yNew,JUPITER V6" +:+ String CR (String LF "")))) "5yNew").
  vm_compute. apply list_elem_of_here.
Defined.

(** X24: from the fetch script to the extraction script: when the provider
    answers, the signature file does not exist yet and the provider's
    signatures are clean, the identifiers that the extraction script reads
    from the file written by [fetchSwapTransactions] are the signatures
    returned for the programs, each exactly once. *)
Theorem fetched_signatures_reach_the_extractor fetched fs :
  fs !! OUTPUT_FILE = None →
  (∀ p sg, p ∈ DEX_PROGRAMS → sg ∈ fetched p.2 → cleanSig (si_signature sg)) →
  ∃ content,
    fetchSwapTransactions true fetched fs !! OUTPUT_FILE = Some content ∧
    NoDup (parseSigs content) ∧
    ∀ s, s ∈ parseSigs content ↔
         ∃ p sg, p ∈ DEX_PROGRAMS ∧ sg ∈ fetched p.2 ∧ si_signature sg = s.
Proof.
  intros Hnone Hclean. unfold fetchSwapTransactions, saveSignaturesToCSV.
  rewrite Hnone. eexists. split; [apply lookup_insert_eq|].
  destruct (collect_inv fetched DEX_PROGRAMS ([], []) eq_refl (NoDup_nil_2))
    as (Heq & Hnd & Hmem).
  fold (collectSignatures fetched DEX_PROGRAMS) in Heq.
  assert (∀ s, s ∈ signature <$> collectSignatures fetched DEX_PROGRAMS ↔
               ∃ p sg, p ∈ DEX_PROGRAMS ∧ sg ∈ fetched p.2 ∧ si_signature sg = s)
    as Hmem'.
  { intros s. rewrite <- Heq. destruct (Hmem s) as [H1 H2]. split.
    - intros H. destruct (H1 H) as [Hn | H']; [by apply elem_of_nil in Hn | done].
    - intros H. apply H2. by right. }
  rewrite parseSigs_written.
  - split.
    + by rewrite sortByTimeDesc_Permutation, <- Heq.
    + intros s. rewrite sortByTimeDesc_Permutation. apply Hmem'.
  - apply clean_sorted, Forall_forall. intros d Hd.
    assert (signature d ∈ signature <$> collectSignatures fetched DEX_PROGRAMS) as Hs
      by (by apply list_elem_of_fmap_2).
    apply Hmem' in Hs as (p & sg & Hp & Hsg & <-). by eapply Hclean.
Qed.

Lemma fetched_signatures_reach_the_extractor_witness :
  ∃ content,
    fetchSwapTransactions true fetchedExample ∅ !! OUTPUT_FILE = Some content ∧
    NoDup (parseSigs content) ∧
    ∀ s, s ∈ parseSigs content ↔
         ∃ p sg, p ∈ DEX_PROGRAMS ∧ sg ∈ fetchedExample p.2 ∧ si_signature sg = s.
Proof.
  apply (fetched_signatures_reach_the_extractor fetchedExample ∅); [reflexivity|].
  intros p sg Hp Hsg. unfold fetchedExample in Hsg.
  repeat case_match;
    repeat (apply elem_of_cons in Hsg as [-> | Hsg];
            [repeat split; done|]);
    by apply elem_of_nil in Hsg.
Defined.

(** ** Keys as objects and keys as text: the normalizer treats them alike *)

Lemma messageOf_keysAsText raw :
  messageOf (keysAsText raw) = textMessage (messageOf raw).
Proof.
  unfold messageOf, keysAsText. cbn.
  destruct (transaction raw) as [[[m|] ti]|]; cbn; try done;
    by destruct (message raw).
Qed.

Lemma instructionsOf_keysAsText raw :
  instructionsOf (keysAsText raw) = textInstr <$> instructionsOf raw.
Proof.
  unfold instructionsOf. rewrite messageOf_keysAsText.
  destruct (instructions (messageOf raw)) as [l|] eqn:Hl; cbn; rewrite Hl; cbn; [done|].
  unfold keysAsText. cbn.
  destruct (transaction raw) as [[m [ti|]]|]; by cbn.
Qed.

Lemma accountKeysOf_keysAsText raw :
  accountKeysOf (keysAsText raw) = textKey <$> accountKeysOf raw.
Proof.
  unfold accountKeysOf. rewrite messageOf_keysAsText. cbn.
  by destruct (accountKeys (messageOf raw)).
Qed.

Lemma keyAt_text keyList i :
  Forall properKey keyList →
  keyAt (textKey <$> keyList) i = textKey <$> keyAt keyList i.
Proof.
  intros Hp. unfold keyAt. destruct (0 <=? i); [|done].
  rewrite list_lookup_fmap.
  destruct (keyList !! Z.to_nat i) as [k|] eqn:Hk; cbn; [|done].
  pose proof (Forall_lookup_1 _ _ _ _ Hp Hk) as Hproper.
  destruct k as [s|s]; cbn in *.
  - apply String.eqb_neq in Hproper. by rewrite Hproper.
  - by destruct (String.eqb s "").
Qed.

Lemma resolveProgramId_text keyList instr :
  Forall properKey keyList →
  (∀ k, in_programId instr = Some k → properKey k) →
  resolveProgramId (textKey <$> keyList) (textInstr instr)
  = resolveProgramId keyList instr.
Proof.
  intros Hkeys Hid.
  unfold resolveProgramId, byToBase58, byToString, bySystemMarker, byIndex,
    byProgramName. cbn.
  assert (keyText <$> (in_programIdIndex instr ≫= keyAt (textKey <$> keyList))
          = keyText <$> (in_programIdIndex instr ≫= keyAt keyList)) as ->.
  { destruct (in_programIdIndex instr) as [i|]; cbn; [|done].
    rewrite keyAt_text by done. by destruct (keyAt keyList i) as [[?|?]|]. }
  destruct (in_programId instr) as [[s|s]|] eqn:Hk; cbn; [|done|done].
  specialize (Hid _ eq_refl). cbn in Hid.
  apply String.eqb_neq in Hid. by rewrite Hid.
Qed.

Lemma collectKeys_text m keyList instr ua :
  Forall properKey keyList →
  collectKeys (textMessage m) (textKey <$> keyList) (textInstr instr) ua
  = collectKeys m keyList instr ua.
Proof.
  intros Hkeys. unfold collectKeys. cbn.
  destruct (in_accounts instr) as [accs|]; [|done].
  generalize (ua, @nil AccountMeta).
  induction accs as [|i accs IH]; intros st; [done|].
  cbn [foldl]. rewrite <- IH. f_equal.
  unfold indexedKey. rewrite keyAt_text by done.
  unfold numSignersOf, numWritableOf. cbn. rewrite length_fmap.
  by destruct (keyAt keyList i) as [[?|?]|].
Qed.

Lemma step_text m keyList st instr :
  Forall properKey keyList →
  (∀ k, in_programId instr = Some k → properKey k) →
  step (textMessage m) (textKey <$> keyList) st (textInstr instr)
  = step m keyList st instr.
Proof.
  intros Hkeys Hid. unfold step.
  rewrite resolveProgramId_text by done.
  destruct (resolveProgramId keyList instr) as [pid|]; [|done].
  by rewrite collectKeys_text.
Qed.

Lemma loop_text m keyList instrs : ∀ st,
  Forall properKey keyList →
  (∀ instr k, instr ∈ instrs → in_programId instr = Some k → properKey k) →
  loop (textMessage m) (textKey <$> keyList) st (textInstr <$> instrs)
  = loop m keyList st instrs.
Proof.
  induction instrs as [|instr rest IH]; intros st Hkeys Hid; [done|].
  cbn [fmap list_fmap loop].
  change (list_fmap _ _ textInstr rest) with (textInstr <$> rest).
  rewrite step_text; [|done|].
  2:{ intros k. apply Hid, list_elem_of_here. }
  destruct (step m keyList st instr) as [st1|]; [|done]. cbn.
  apply IH; [done|]. intros i k Hi. apply Hid. by apply list_elem_of_further.
Qed.

(** X25: the normalizer makes no difference between a [PublicKey] object
    and its base58 text: a response whose keys are objects with a non-empty
    text and the same response with every key replaced by its text (as it
    is after a trip through the JSON cache) are normalized to the same
    canonical transaction. *)
Theorem keys_as_text_normalize_alike sg raw :
  Forall properKey (accountKeysOf raw) →
  (∀ instr k, instr ∈ instructionsOf raw → in_programId instr = Some k →
              properKey k) →
  normalize sg (keysAsText raw) = normalize sg raw.
Proof.
  intros Hkeys Hid. unfold normalize.
  rewrite instructionsOf_keysAsText, accountKeysOf_keysAsText, messageOf_keysAsText.
  destruct (instructionsOf raw) as [|i l] eqn:Hi; [done|].
  change (textInstr <$> i :: l) with (textInstr i :: (textInstr <$> l)).
  cbv iota.
  change (textInstr i :: (textInstr <$> l)) with (textInstr <$> i :: l).
  by rewrite loop_text.
Qed.

Lemma keys_as_text_normalize_alike_witness :
  normalize "tx" (keysAsText (rawOf liveMessage211))
  = normalize "tx" (rawOf liveMessage211).
Proof.
  apply keys_as_text_normalize_alike.
  - repeat constructor; discriminate.
  - intros instr k Hin Hk. apply list_elem_of_singleton in Hin. subst instr.
    injection Hk as <-. discriminate.
Defined.

(** ** How long a fetch that gives up has lasted *)

Lemma backoff_weakest (rateLimited : bool) (n : Z) :
  0 ≤ n → backoffMs false n ≤ backoffMs rateLimited n.
Proof.
  intros Hn. destruct rateLimited; [|done]. unfold backoffMs, BASE_BACKOFF_MS.
  assert (2 ^ n ≤ 3 ^ n) by (apply Z.pow_le_mono_l; lia). lia.
Qed.

Lemma nextRpc_now E w : now w ≤ now (nextRpc E w).2.
Proof. unfold nextRpc, wait. cbn. repeat case_match; cbn; lia. Qed.

Section FetchDuration.

Context (L : Library).

Lemma tryOnce_waits E attempt url sg w :
  0 ≤ attempt ≤ 13 → (∀ n k, 0 ≤ k ≤ 150 → 0 ≤ random E n k ≤ k) →
  (tryOnce L E attempt url sg w).1 = None →
  now w + backoffMs false attempt ≤ now (tryOnce L E attempt url sg w).2.
Proof.
  intros Ha Hrand.
  assert (∀ b k, 0 ≤ k ≤ 150 →
            backoffMs false attempt
            ≤ Z.max 0 (timerDelay (backoffMs b attempt + random E (draws w) k)))
    as Hwait.
  { intros b k Hk. pose proof (Hrand (draws w) k Hk).
    rewrite backoff_fits by lia.
    pose proof (backoff_weakest b attempt ltac:(lia)). lia. }
  unfold tryOnce, send, catchError, draw, wait, elapse. cbn.
  destruct (getParsedTransaction E _ url sg) as [ms [v|]|ms msg]; cbn; [done| |].
  - destruct (getTransaction E _ url sg) as [ms' [v|]|ms' msg]; cbn; [done| |]; intros _.
    + pose proof (Hwait false 100 ltac:(lia)) as Hw.
      unfold backoffMs in Hw. lia.
    + pose proof (Hwait (is429 msg) 150 ltac:(lia)) as Hw.
      unfold backoffMs in Hw |- *. destruct (is429 msg); lia.
  - intros _. pose proof (Hwait (is429 msg) 150 ltac:(lia)) as Hw.
    unfold backoffMs in Hw |- *. destruct (is429 msg); lia.
Qed.

Lemma fetchLoop_duration E sg remaining : ∀ attempt w,
  0 ≤ attempt → attempt + Z.of_nat remaining ≤ 13 →
  (∀ n k, 0 ≤ k ≤ 150 → 0 ≤ random E n k ≤ k) →
  (fetchLoop L E sg remaining attempt w).1
  = Thrown ("Failed to fetch " +:+ sg +:+ " after " +:+
            pretty (MAX_RETRIES E) +:+ " attempts") →
  now w + BASE_BACKOFF_MS *
          (2 ^ (attempt + Z.of_nat remaining + 1) - 2 ^ (attempt + 1))
  ≤ now (fetchLoop L E sg remaining attempt w).2.
Proof.
  induction remaining as [|r IH]; intros attempt w Ha Hle Hrand; cbn [fetchLoop].
  - intros _. cbn [fst snd]. replace (attempt + Z.of_nat 0 + 1) with (attempt + 1) by lia.
    lia.
  - pose proof (nextRpc_now E w) as Hnow.
    destruct (nextRpc E w) as [[url|] w1]; cbn [fst snd] in *; [|done].
    destruct (connectionOk L url); [|done].
    pose proof (tryOnce_waits E (attempt + 1) url sg w1 ltac:(lia) Hrand) as Hone.
    destruct (tryOnce L E (attempt + 1) url sg w1) as [[v|] w2]; cbn [fst snd] in *;
      [done|].
    intros Hthrown.
    specialize (IH (attempt + 1) w2 ltac:(lia) ltac:(lia) Hrand Hthrown).
    specialize (Hone eq_refl). unfold backoffMs in Hone.
    replace (attempt + 1 + Z.of_nat r + 1) with (attempt + Z.of_nat (S r) + 1) in IH by lia.
    replace (attempt + 1 + 1) with (Z.succ (attempt + 1)) in IH by lia.
    rewrite Z.pow_succ_r in IH by lia. lia.
Qed.

(** X26: a fetch gives up only after the whole retry budget is spent, and
    not quickly.  With a budget of at most 13 attempts (every delay then
    fits a timer) and jitter within its range, an uncached fetch that ends
    with the error [Failed to fetch ... after MAX_RETRIES attempts] has
    lasted at least the sum of the base delays of its attempts,
    1000 * (2^(MAX_RETRIES + 1) - 2) milliseconds (62 seconds for the
    default of 5 attempts). *)
Theorem giving_up_takes_time E sg w :
  files w !! cachePathForSig sg = None →
  MAX_RETRIES E ≤ 13 →
  (∀ n k, 0 ≤ k ≤ 150 → 0 ≤ random E n k ≤ k) →
  (fetchParsedTx L E sg w).1
  = Thrown ("Failed to fetch " +:+ sg +:+ " after " +:+
            pretty (MAX_RETRIES E) +:+ " attempts") →
  now w + BASE_BACKOFF_MS * (2 ^ (Z.max 0 (MAX_RETRIES E) + 1) - 2)
  ≤ now (fetchParsedTx L E sg w).2.
Proof.
  intros Hmiss Hmax Hrand. unfold fetchParsedTx, isCached. rewrite Hmiss.
  rewrite bool_decide_eq_false_2 by (by intros [? ?]).
  intros Hthrown.
  pose proof (fetchLoop_duration E sg (Z.to_nat (MAX_RETRIES E)) 0 w
                ltac:(lia) ltac:(lia) Hrand Hthrown) as H.
  replace (0 + Z.of_nat (Z.to_nat (MAX_RETRIES E)) + 1)
    with (Z.max 0 (MAX_RETRIES E) + 1) in H by lia.
  exact H.
Qed.

End FetchDuration.

Lemma giving_up_takes_time_witness :
  now freshWorld + 62000
  ≤ now (fetchParsedTx libStub (timeoutEnv None) "tx9" freshWorld).2.
Proof.
  apply (giving_up_takes_time libStub (timeoutEnv None) "tx9" freshWorld);
    [reflexivity | cbn; lia | intros n k; cbn; lia | vm_compute; reflexivity].
Defined.

(** ** The canonical list of the earlier normalizer *)

Lemma Alt_step_programIds m keyList st instr st' :
  Alt.step m keyList st instr = Returned st' →
  programId <$> detailedInstructions st'
  = (programId <$> detailedInstructions st) ++ option_list (keptIdEarlier keyList instr).
Proof.
  unfold Alt.step, keptIdEarlier. intros Hstep.
  destruct (String.eqb (Alt.resolveProgramId keyList instr) COMPUTE_BUDGET_ID).
  - injection Hstep as <-. cbn. by rewrite app_nil_r.
  - destruct (Alt.describe _ instr) as [d|]; [|done].
    cbn in Hstep. injection Hstep as <-. cbn. by rewrite fmap_app.
Qed.

Lemma Alt_loop_programIds m keyList instrs : ∀ st st',
  Alt.loop m keyList st instrs = Returned st' →
  programId <$> detailedInstructions st'
  = (programId <$> detailedInstructions st) ++ omap (keptIdEarlier keyList) instrs.
Proof.
  induction instrs as [|instr rest IH]; intros st st' Hloop.
  - injection Hloop as <-. cbn. by rewrite app_nil_r.
  - cbn in Hloop. destruct (Alt.step m keyList st instr) as [st1|] eqn:Hstep; [|done].
    cbn in Hloop. rewrite (IH _ _ Hloop), (Alt_step_programIds _ _ _ _ _ Hstep).
    rewrite <- app_assoc. f_equal.
    destruct (keptIdEarlier keyList instr) eqn:Hk; cbn; rewrite Hk; reflexivity.
Qed.

Lemma keptId_keptIdEarlier keyList instr pid :
  keptId keyList instr = Some pid → keptIdEarlier keyList instr = Some pid.
Proof.
  unfold keptId, keptIdEarlier.
  destruct (resolveProgramId keyList instr) as [p|] eqn:Hres; [|done].
  by rewrite (Alt_resolveProgramId_resolved _ _ _ Hres).
Qed.

Lemma omap_sublist {A B} (f g : A → option B) (l : list A) :
  (∀ x y, f x = Some y → g x = Some y) → omap f l `sublist_of` omap g l.
Proof.
  intros Hfg. induction l as [|x l IH]; [done|].
  cbn. destruct (f x) as [y|] eqn:Hf.
  - rewrite (Hfg _ _ Hf). by apply sublist_skip.
  - destruct (g x); [by apply sublist_cons | done].
Qed.

(** X27: the earlier normalizer keeps every instruction of the response
    except those of the compute-budget program (one it cannot resolve goes
    under the program id of its label, or [unknown]); where both normalizers
    return, the program ids of the source's canonical list are those of the
    earlier one with some entries left out, in the same order. *)
Theorem earlier_normalizer_keeps_more sg raw c c' :
  normalize sg raw = Returned (Some c) →
  Alt.normalize sg raw = Returned (Some c') →
  programId <$> rp_instructions (params c')
  = omap (keptIdEarlier (accountKeysOf raw)) (instructionsOf raw) ∧
  (programId <$> rp_instructions (params c))
    `sublist_of` (programId <$> rp_instructions (params c')).
Proof.
  intros [Hne [st [Hloop ->]]]%normalize_Some Halt. cbn.
  unfold Alt.normalize in Halt.
  destruct (instructionsOf raw) as [|i l] eqn:Hi; [done|].
  destruct (Alt.loop _ _ _ _) as [st'|] eqn:Haltloop; [|done].
  cbn in Halt. injection Halt as <-. cbn.
  apply loop_programIds in Hloop. apply Alt_loop_programIds in Haltloop.
  rewrite Hloop, Haltloop. cbn [initialState detailedInstructions fmap list_fmap app].
  split; [done|].
  apply (omap_sublist (keptId (accountKeysOf raw)) (keptIdEarlier (accountKeysOf raw))
           (i :: l)), keptId_keptIdEarlier.
Qed.

Lemma earlier_normalizer_keeps_more_witness :
  ∃ c c',
    normalize "tx" (rawOf (messageOfInstrs [bareInstr; transferInstr])) = Returned (Some c) ∧
    Alt.normalize "tx" (rawOf (messageOfInstrs [bareInstr; transferInstr]))
    = Returned (Some c') ∧
    programId <$> rp_instructions (params c') = ["unknown"; SYSTEM_PROGRAM_ID] ∧
    (programId <$> rp_instructions (params c))
      `sublist_of` (programId <$> rp_instructions (params c')).
Proof.
  do 2 eexists. split; [vm_compute; reflexivity|]. split; [vm_compute; reflexivity|].
  destruct (earlier_normalizer_keeps_more "tx"
              (rawOf (messageOfInstrs [bareInstr; transferInstr])) _ _ eq_refl eq_refl)
    as [H1 H2].
  split; [exact H1 | exact H2].
Defined.
